(** * AfriLend: loan, pool and reputation accounting

  A shallow embedding of the settlement logic of the AfriLend contracts
  ([AfriLendLoanManager.sol], [LenderPool.sol], [Reputation.sol]) and of
  the server-side loan cancellation handler ([loanController.cancelLoan]
  over the [Loan] model), followed by the properties of the
  specification that concern them.

  Conventions.  A [uint256] is a [Z] together with the checked
  arithmetic of Solidity 0.8 (an overflow, an underflow or a division by
  zero aborts the call with a panic).  An [address] is an [N].  A
  Solidity [mapping] is a [gmap] read with the default value of its
  range.  A call either fails, and then nothing of the state is kept, or
  yields the new state and the external actions (transfers and events)
  it performed, in order. *)

From Stdlib Require Import ZArith List Lia Bool.
From stdpp Require Import gmap strings list fin_maps.

Open Scope Z_scope.

(** ** The execution model shared by the three contracts *)

Module Evm.

Abbreviation address := N (only parsing).

Definition uint256_max : Z := 2 ^ 256 - 1.
Definition int256_min : Z := - 2 ^ 255.
Definition int256_max : Z := 2 ^ 255 - 1.

(** Solidity time and ether units. *)
Definition days : Z := 86400.
Definition ether : Z := 10 ^ 18.

(** [Panic 17] is the arithmetic overflow/underflow panic (0x11),
    [Panic 18] division by zero (0x12). *)
Inductive failure :=
| Revert (reason : string)
| Panic (code : Z)
| TransferFailed.

Inductive result (A : Type) :=
| Ok (a : A)
| Fail (f : failure).
Arguments Ok {A} a.
Arguments Fail {A} f.

#[global] Instance result_ret : MRet result := fun A a => Ok a.
#[global] Instance result_bind : MBind result :=
  fun A B k m => match m with Ok a => k a | Fail f => Fail f end.

Definition require (b : bool) (reason : string) : result unit :=
  if b then Ok tt else Fail (Revert reason).

Definition checked_add (a b : Z) : result Z :=
  if a + b <=? uint256_max then Ok (a + b) else Fail (Panic 17).

Definition checked_sub (a b : Z) : result Z :=
  if b <=? a then Ok (a - b) else Fail (Panic 17).

Definition checked_mul (a b : Z) : result Z :=
  if a * b <=? uint256_max then Ok (a * b) else Fail (Panic 17).

Definition checked_div (a b : Z) : result Z :=
  if b =? 0 then Fail (Panic 18) else Ok (a / b).

(** The call environment: [msg.sender], [msg.value], [block.timestamp],
    and which accounts accept a plain [transfer] (an externally owned
    account always does, a contract may refuse). *)
Record Msg := {
  sender : address;
  value : Z;
  timestamp : Z;
  accepts : address -> bool
}.

Definition wf_msg (env : Msg) : Prop :=
  0 <= value env <= uint256_max /\ 0 <= timestamp env <= uint256_max.

(** A call from an externally owned account, in a world where every
    account accepts transfers. *)
Definition call (who : address) (v t : Z) : Msg :=
  {| sender := who; value := v; timestamp := t; accepts := fun _ => true |}.

(** A function that is not [payable] rejects any attached value. *)
Definition nonpayable (env : Msg) : result unit :=
  if value env =? 0 then Ok tt else Fail (Revert "").

(** [payable(to).transfer(amt)] out of the contract balance [bal]. *)
Definition transfer (env : Msg) (to : address) (amt : Z) (bal : Z) : result Z :=
  if (amt <=? bal) && accepts env to then Ok (bal - amt) else Fail TransferFailed.

(** Reading a [mapping(address => uint256)]. *)
Definition mget (m : gmap N Z) (a : address) : Z := default 0 (m !! a).

(** The linear scans of [fundLoan] and [addLiquidity]:
    [for (i = 0; i < arr.length; i++) if (arr[i] == who) { found = true; break; }]. *)
Fixpoint scan (who : address) (arr : list N) : bool :=
  match arr with
  | [] => false
  | a :: rest => if N.eqb a who then true else scan who rest
  end.

(** Sum of the entries of a mapping over a list of keys. *)
Definition sum_over (m : gmap N Z) (ks : list N) : Z :=
  fold_right (fun a acc => mget m a + acc) 0 ks.

(** Sum of the amounts of a list of (recipient, amount) pairs. *)
Definition total (ps : list (N * Z)) : Z :=
  fold_right (fun p acc => snd p + acc) 0 ps.

(** Sum of the amounts that a list of payments gives to one recipient. *)
Definition paid_to (a : address) (ps : list (N * Z)) : Z :=
  total (filter (fun p => fst p = a) ps).

(** Sum of all the entries of a mapping. *)
Definition sum_all (m : gmap N Z) : Z :=
  map_fold (fun _ v acc => v + acc) 0 m.

End Evm.

(** ** AfriLendLoanManager.sol *)

Module LoanManager.
Import Evm.

Inductive LoanStatus := Pending | Funded | Active | Repaid | Defaulted.

Definition status_eqb (a b : LoanStatus) : bool :=
  match a, b with
  | Pending, Pending | Funded, Funded | Active, Active
  | Repaid, Repaid | Defaulted, Defaulted => true
  | _, _ => false
  end.

Record Loan := {
  id : Z;
  borrower : address;
  amount : Z;
  fundedAmount : Z;
  interestRate : Z;
  duration : Z;
  createdAt : Z;
  dueDate : Z;
  purpose : string;
  status : LoanStatus;
  lenders : list N;
  lenderContributions : gmap N Z
}.

(** The value of a storage slot that was never written. *)
Definition empty_loan : Loan := {|
  id := 0; borrower := 0%N; amount := 0; fundedAmount := 0;
  interestRate := 0; duration := 0; createdAt := 0; dueDate := 0;
  purpose := ""; status := Pending; lenders := [];
  lenderContributions := ∅
|}.

Inductive Event :=
| LoanCreated (loanId : Z) (who : address) (amt rate dur : Z) (why : string)
| LoanFunded (loanId : Z) (lender : address) (amt : Z)
| LoanRepaid (loanId : Z) (who : address) (amt : Z).

Inductive Action :=
| Transfer (to : address) (amt : Z)
| Emit (e : Event).

Record State := {
  _loanCounter : Z;
  _loans : gmap Z Loan;
  _borrowerLoans : gmap N (list Z);
  _lenderLoans : gmap N (list Z);
  balance : Z
}.

Definition initial : State := {|
  _loanCounter := 0; _loans := ∅; _borrowerLoans := ∅;
  _lenderLoans := ∅; balance := 0
|}.

Definition loan_at (st : State) (loanId : Z) : Loan :=
  default empty_loan (_loans st !! loanId).

Definition MIN_LOAN_AMOUNT : Z := ether / 100.
Definition MAX_LOAN_AMOUNT : Z := 100 * ether.
Definition MIN_INTEREST_RATE : Z := 5.
Definition MAX_INTEREST_RATE : Z := 50.
Definition MIN_DURATION : Z := 30 * days.
Definition MAX_DURATION : Z := 365 * days.

Definition onlyValidLoan (loanId : Z) (st : State) : result unit :=
  require (loanId <? _loanCounter st) "Loan does not exist".

Definition onlyBorrower (env : Msg) (loanId : Z) (st : State) : result unit :=
  require (N.eqb (borrower (loan_at st loanId)) (sender env))
          "Only borrower can perform this action".

Definition onlyActiveLoan (loanId : Z) (st : State) : result unit :=
  require (status_eqb (status (loan_at st loanId)) Active) "Loan is not active".

Definition push_id (who : address) (loanId : Z) (m : gmap N (list Z)) : gmap N (list Z) :=
  <[who := default [] (m !! who) ++ [loanId]]> m.

Definition createLoan (env : Msg) (amount' interestRate' duration' : Z)
    (purpose' : string) (st : State) : result (State * Z * list Action) :=
  _ ← nonpayable env;
  _ ← require ((MIN_LOAN_AMOUNT <=? amount') && (amount' <=? MAX_LOAN_AMOUNT))
              "Invalid loan amount";
  _ ← require ((MIN_INTEREST_RATE <=? interestRate') && (interestRate' <=? MAX_INTEREST_RATE))
              "Invalid interest rate";
  _ ← require ((MIN_DURATION <=? duration') && (duration' <=? MAX_DURATION))
              "Invalid duration";
  _ ← require (0 <? Z.of_nat (String.length purpose')) "Purpose cannot be empty";
  let loanId := _loanCounter st in
  counter' ← checked_add (_loanCounter st) 1;
  due ← checked_add (timestamp env) duration';
  let slot := loan_at st loanId in
  let loan := {|
    id := loanId; borrower := sender env; amount := amount'; fundedAmount := 0;
    interestRate := interestRate'; duration := duration';
    createdAt := timestamp env; dueDate := due; purpose := purpose';
    status := Pending; lenders := lenders slot;
    lenderContributions := lenderContributions slot |} in
  mret ({| _loanCounter := counter';
           _loans := <[loanId := loan]> (_loans st);
           _borrowerLoans := push_id (sender env) loanId (_borrowerLoans st);
           _lenderLoans := _lenderLoans st;
           balance := balance st |},
        loanId,
        [Emit (LoanCreated loanId (sender env) amount' interestRate' duration' purpose')]).

Definition fundLoan (env : Msg) (loanId : Z) (st : State) : result (State * list Action) :=
  _ ← onlyValidLoan loanId st;
  let loan := loan_at st loanId in
  _ ← require (status_eqb (status loan) Pending) "Loan is not available for funding";
  _ ← require (0 <? value env) "Funding amount must be greater than 0";
  remaining ← checked_sub (amount loan) (fundedAmount loan);
  _ ← require (value env <=? remaining) "Funding amount exceeds remaining loan amount";
  funded' ← checked_add (fundedAmount loan) (value env);
  contribution' ← checked_add (mget (lenderContributions loan) (sender env)) (value env);
  let lenderExists := scan (sender env) (lenders loan) in
  let lenders' := if lenderExists then lenders loan else lenders loan ++ [sender env] in
  let lenderLoans' :=
    if lenderExists then _lenderLoans st
    else push_id (sender env) loanId (_lenderLoans st) in
  let status' := if amount loan <=? funded' then Active else status loan in
  let loan' := {|
    id := id loan; borrower := borrower loan; amount := amount loan;
    fundedAmount := funded';
    interestRate := interestRate loan; duration := duration loan;
    createdAt := createdAt loan; dueDate := dueDate loan; purpose := purpose loan;
    status := status'; lenders := lenders';
    lenderContributions := <[sender env := contribution']> (lenderContributions loan) |} in
  mret ({| _loanCounter := _loanCounter st;
           _loans := <[loanId := loan']> (_loans st);
           _borrowerLoans := _borrowerLoans st;
           _lenderLoans := lenderLoans';
           balance := balance st + value env |},
        [Emit (LoanFunded loanId (sender env) (value env))]).

Definition calculateRepaymentAmount (loanId : Z) (st : State) : result Z :=
  _ ← onlyValidLoan loanId st;
  let loan := loan_at st loanId in
  let principal := fundedAmount loan in
  p1 ← checked_mul principal (interestRate loan);
  p2 ← checked_mul p1 (duration loan);
  let interest := p2 / (365 * days * 10000) in
  checked_add principal interest.

(** The distribution loop of [repayLoan]: one transfer per entry of
    [lenders], in order, out of the running contract balance. *)
Fixpoint distribute (env : Msg) (loan : Loan) (repaymentAmount : Z)
    (ls : list N) (bal : Z) : result (Z * list (N * Z)) :=
  match ls with
  | [] => mret (bal, [])
  | lender :: rest =>
      let contribution := mget (lenderContributions loan) lender in
      p ← checked_mul contribution repaymentAmount;
      lenderShare ← checked_div p (fundedAmount loan);
      bal' ← transfer env lender lenderShare bal;
      '(bal'', paid) ← distribute env loan repaymentAmount rest bal';
      mret (bal'', (lender, lenderShare) :: paid)
  end.

Definition pay (p : N * Z) : Action := Transfer (fst p) (snd p).

Definition repayLoan (env : Msg) (loanId : Z) (st : State) : result (State * list Action) :=
  _ ← onlyValidLoan loanId st;
  _ ← onlyBorrower env loanId st;
  _ ← onlyActiveLoan loanId st;
  let loan := loan_at st loanId in
  repaymentAmount ← calculateRepaymentAmount loanId st;
  _ ← require (repaymentAmount <=? value env) "Insufficient repayment amount";
  _ ← require (timestamp env <=? dueDate loan) "Loan has expired";
  '(bal, paid) ← distribute env loan repaymentAmount (lenders loan)
                            (balance st + value env);
  '(bal', refund) ←
    (if repaymentAmount <? value env then
       excess ← checked_sub (value env) repaymentAmount;
       b ← transfer env (sender env) excess bal;
       mret (b, [Transfer (sender env) excess])
     else mret (bal, []));
  let loan' := {|
    id := id loan; borrower := borrower loan; amount := amount loan;
    fundedAmount := fundedAmount loan;
    interestRate := interestRate loan; duration := duration loan;
    createdAt := createdAt loan; dueDate := dueDate loan; purpose := purpose loan;
    status := Repaid; lenders := lenders loan;
    lenderContributions := lenderContributions loan |} in
  mret ({| _loanCounter := _loanCounter st;
           _loans := <[loanId := loan']> (_loans st);
           _borrowerLoans := _borrowerLoans st;
           _lenderLoans := _lenderLoans st;
           balance := bal' |},
        map pay paid ++ refund ++ [Emit (LoanRepaid loanId (sender env) repaymentAmount)]).

Definition getLenderContribution (loanId : Z) (lender : address) (st : State) : result Z :=
  _ ← onlyValidLoan loanId st;
  mret (mget (lenderContributions (loan_at st loanId)) lender).

Definition getLoanLenders (loanId : Z) (st : State) : result (list N) :=
  _ ← onlyValidLoan loanId st;
  mret (lenders (loan_at st loanId)).

Definition isLoanFullyFunded (loanId : Z) (st : State) : result bool :=
  _ ← onlyValidLoan loanId st;
  mret (amount (loan_at st loanId) <=? fundedAmount (loan_at st loanId)).

(** The state-changing entry points, and a transaction: a failed call
    leaves the state as it was. *)
Inductive Call :=
| CreateLoan (amount' interestRate' duration' : Z) (purpose' : string)
| FundLoan (loanId : Z)
| RepayLoan (loanId : Z).

Definition exec (env : Msg) (c : Call) (st : State) : result (State * list Action) :=
  match c with
  | CreateLoan a r d p => '(st', _, acts) ← createLoan env a r d p st; mret (st', acts)
  | FundLoan i => fundLoan env i st
  | RepayLoan i => repayLoan env i st
  end.

Definition transact (env : Msg) (c : Call) (st : State) : State :=
  match exec env c st with
  | Ok (st', _) => st'
  | Fail _ => st
  end.

Inductive reachable : State -> Prop :=
| reach_initial : reachable initial
| reach_step env c st st' acts :
    reachable st -> wf_msg env -> exec env c st = Ok (st', acts) -> reachable st'.

(** Sum of the recorded contributions of a list of lenders. *)
Definition contributed (loan : Loan) (ls : list N) : Z :=
  sum_over (lenderContributions loan) ls.

(** What holds of every loan that exists. *)
Record loan_inv (loan : Loan) : Prop := {
  inv_amount : MIN_LOAN_AMOUNT <= amount loan <= MAX_LOAN_AMOUNT;
  inv_funded : 0 <= fundedAmount loan <= amount loan;
  inv_status : status loan = Pending \/ status loan = Active \/ status loan = Repaid;
  inv_pending : status loan = Pending <-> fundedAmount loan < amount loan;
  inv_nodup : NoDup (lenders loan);
  inv_nonneg : forall a, 0 <= mget (lenderContributions loan) a;
  inv_outside : forall a, a ∉ lenders loan -> mget (lenderContributions loan) a = 0;
  inv_sum : contributed loan (lenders loan) = fundedAmount loan;
  inv_rate : MIN_INTEREST_RATE <= interestRate loan <= MAX_INTEREST_RATE;
  inv_duration : MIN_DURATION <= duration loan <= MAX_DURATION
}.

Record state_inv (st : State) : Prop := {
  inv_counter : 0 <= _loanCounter st;
  inv_fresh : forall i, ~ (0 <= i < _loanCounter st) -> _loans st !! i = None;
  inv_loans : forall i, 0 <= i < _loanCounter st -> loan_inv (loan_at st i)
}.

(** The order in which a loan may move between statuses. *)
Definition may_follow (s s' : LoanStatus) : Prop :=
  match s with
  | Pending => s' = Pending \/ s' = Active
  | Active => s' = Active \/ s' = Repaid \/ s' = Defaulted
  | _ => s' = s
  end.

(** The remaining views. *)
Definition getLoan (loanId : Z) (st : State) : result Loan :=
  _ ← onlyValidLoan loanId st;
  mret (loan_at st loanId).

Definition getBorrowerLoans (who : address) (st : State) : list Z :=
  default [] (_borrowerLoans st !! who).

Definition getLenderLoans (who : address) (st : State) : list Z :=
  default [] (_lenderLoans st !! who).

Definition getTotalLoans (st : State) : Z := _loanCounter st.

(** The ids in use, and the sum of what has been funded on all of them. *)
Definition loan_ids (st : State) : list Z := seqZ 0 (_loanCounter st).

Definition funded_total (st : State) : Z :=
  foldr (fun i acc => fundedAmount (loan_at st i) + acc) 0 (loan_ids st).

(** The two indexes list exactly the loans of each address, once each. *)
Record index_inv (st : State) : Prop := {
  idx_lender : forall a j,
    j ∈ getLenderLoans a st <->
    0 <= j < _loanCounter st /\ a ∈ lenders (loan_at st j);
  idx_lender_nodup : forall a, NoDup (getLenderLoans a st);
  idx_borrower : forall a j,
    j ∈ getBorrowerLoans a st <->
    0 <= j < _loanCounter st /\ borrower (loan_at st j) = a;
  idx_borrower_nodup : forall a, NoDup (getBorrowerLoans a st)
}.

End LoanManager.

(** ** LenderPool.sol *)

Module LenderPool.
Import Evm.

Record Pool := {
  id : Z;
  creator : address;
  name : string;
  description : string;
  targetAmount : Z;
  currentAmount : Z;
  interestRate : Z;
  createdAt : Z;
  active : bool;
  lenders : list N;
  lenderShares : gmap N Z;
  lenderYield : gmap N Z
}.

Definition empty_pool : Pool := {|
  id := 0; creator := 0%N; name := ""; description := ""; targetAmount := 0;
  currentAmount := 0; interestRate := 0; createdAt := 0; active := false;
  lenders := []; lenderShares := ∅; lenderYield := ∅
|}.

Inductive Event :=
| PoolCreated (poolId : Z) (who : address) (label : string) (target rate : Z)
| LiquidityAdded (poolId : Z) (lender : address) (amt : Z)
| LiquidityRemoved (poolId : Z) (lender : address) (amt : Z)
| YieldDistributed (poolId : Z) (totalYield : Z) (time : Z).

Inductive Action :=
| Transfer (to : address) (amt : Z)
| Emit (e : Event).

Record State := {
  _poolCounter : Z;
  _pools : gmap Z Pool;
  _userPools : gmap N (list Z);
  balance : Z
}.

Definition initial : State :=
  {| _poolCounter := 0; _pools := ∅; _userPools := ∅; balance := 0 |}.

Definition pool_at (st : State) (poolId : Z) : Pool :=
  default empty_pool (_pools st !! poolId).

Definition MIN_POOL_AMOUNT : Z := 1 * ether.
Definition MAX_POOL_AMOUNT : Z := 1000 * ether.
Definition MIN_INTEREST_RATE : Z := 3.
Definition MAX_INTEREST_RATE : Z := 25.

Definition onlyValidPool (poolId : Z) (st : State) : result unit :=
  require (poolId <? _poolCounter st) "Pool does not exist".

Definition onlyPoolCreator (env : Msg) (poolId : Z) (st : State) : result unit :=
  require (N.eqb (creator (pool_at st poolId)) (sender env))
          "Only pool creator can perform this action".

Definition onlyActivePool (poolId : Z) (st : State) : result unit :=
  require (active (pool_at st poolId)) "Pool is not active".

Definition push_id (who : address) (poolId : Z) (m : gmap N (list Z)) : gmap N (list Z) :=
  <[who := default [] (m !! who) ++ [poolId]]> m.

Definition set_pool (st : State) (poolId : Z) (pool : Pool)
    (userPools : gmap N (list Z)) (bal : Z) : State :=
  {| _poolCounter := _poolCounter st;
     _pools := <[poolId := pool]> (_pools st);
     _userPools := userPools;
     balance := bal |}.

Definition createPool (env : Msg) (name' description' : string)
    (targetAmount' interestRate' : Z) (st : State) : result (State * Z * list Action) :=
  _ ← nonpayable env;
  _ ← require (0 <? Z.of_nat (String.length name')) "Pool name cannot be empty";
  _ ← require ((MIN_POOL_AMOUNT <=? targetAmount') && (targetAmount' <=? MAX_POOL_AMOUNT))
              "Invalid target amount";
  _ ← require ((MIN_INTEREST_RATE <=? interestRate') && (interestRate' <=? MAX_INTEREST_RATE))
              "Invalid interest rate";
  let poolId := _poolCounter st in
  counter' ← checked_add (_poolCounter st) 1;
  let slot := pool_at st poolId in
  let pool := {|
    id := poolId; creator := sender env; name := name'; description := description';
    targetAmount := targetAmount'; currentAmount := 0; interestRate := interestRate';
    createdAt := timestamp env; active := true; lenders := lenders slot;
    lenderShares := lenderShares slot; lenderYield := lenderYield slot |} in
  mret ({| _poolCounter := counter';
           _pools := <[poolId := pool]> (_pools st);
           _userPools := push_id (sender env) poolId (_userPools st);
           balance := balance st |},
        poolId,
        [Emit (PoolCreated poolId (sender env) name' targetAmount' interestRate')]).

Definition addLiquidity (env : Msg) (poolId : Z) (st : State) : result (State * list Action) :=
  _ ← onlyValidPool poolId st;
  _ ← onlyActivePool poolId st;
  let pool := pool_at st poolId in
  _ ← require (0 <? value env) "Amount must be greater than 0";
  sum ← checked_add (currentAmount pool) (value env);
  _ ← require (sum <=? targetAmount pool) "Exceeds pool target amount";
  current' ← checked_add (currentAmount pool) (value env);
  share' ← checked_add (mget (lenderShares pool) (sender env)) (value env);
  let lenderExists := scan (sender env) (lenders pool) in
  let pool' := {|
    id := id pool; creator := creator pool; name := name pool;
    description := description pool; targetAmount := targetAmount pool;
    currentAmount := current'; interestRate := interestRate pool;
    createdAt := createdAt pool; active := active pool;
    lenders := if lenderExists then lenders pool else lenders pool ++ [sender env];
    lenderShares := <[sender env := share']> (lenderShares pool);
    lenderYield := lenderYield pool |} in
  mret (set_pool st poolId pool'
          (if lenderExists then _userPools st
           else push_id (sender env) poolId (_userPools st))
          (balance st + value env),
        [Emit (LiquidityAdded poolId (sender env) (value env))]).

Definition removeLiquidity (env : Msg) (poolId amount : Z) (st : State)
    : result (State * list Action) :=
  _ ← nonpayable env;
  _ ← onlyValidPool poolId st;
  let pool := pool_at st poolId in
  _ ← require (amount <=? mget (lenderShares pool) (sender env)) "Insufficient shares";
  current' ← checked_sub (currentAmount pool) amount;
  share' ← checked_sub (mget (lenderShares pool) (sender env)) amount;
  bal' ← transfer env (sender env) amount (balance st);
  let pool' := {|
    id := id pool; creator := creator pool; name := name pool;
    description := description pool; targetAmount := targetAmount pool;
    currentAmount := current'; interestRate := interestRate pool;
    createdAt := createdAt pool; active := active pool;
    lenders := lenders pool;
    lenderShares := <[sender env := share']> (lenderShares pool);
    lenderYield := lenderYield pool |} in
  mret (set_pool st poolId pool' (_userPools st) bal',
        [Transfer (sender env) amount;
         Emit (LiquidityRemoved poolId (sender env) amount)]).

(** The loop of [distributeYield]: for every entry of [lenders], in order,
    credit the accumulated yield and transfer the same amount. *)
Fixpoint distribute (env : Msg) (pool : Pool) (totalYield : Z) (ls : list N)
    (yields : gmap N Z) (bal : Z) : result (gmap N Z * Z * list (N * Z)) :=
  match ls with
  | [] => mret (yields, bal, [])
  | lender :: rest =>
      let lenderShare := mget (lenderShares pool) lender in
      p ← checked_mul totalYield lenderShare;
      lenderYield' ← checked_div p (currentAmount pool);
      credited ← checked_add (mget yields lender) lenderYield';
      bal' ← transfer env lender lenderYield' bal;
      '(yields', bal'', paid) ←
        distribute env pool totalYield rest (<[lender := credited]> yields) bal';
      mret (yields', bal'', (lender, lenderYield') :: paid)
  end.

Definition pay (p : N * Z) : Action := Transfer (fst p) (snd p).

Definition distributeYield (env : Msg) (poolId totalYield : Z) (st : State)
    : result (State * list Action) :=
  _ ← nonpayable env;
  _ ← onlyValidPool poolId st;
  _ ← onlyPoolCreator env poolId st;
  let pool := pool_at st poolId in
  _ ← require (0 <? totalYield) "Yield must be greater than 0";
  _ ← require (0 <? currentAmount pool) "Pool has no liquidity";
  '(yields', bal', paid) ←
    distribute env pool totalYield (lenders pool) (lenderYield pool) (balance st);
  let pool' := {|
    id := id pool; creator := creator pool; name := name pool;
    description := description pool; targetAmount := targetAmount pool;
    currentAmount := currentAmount pool; interestRate := interestRate pool;
    createdAt := createdAt pool; active := active pool;
    lenders := lenders pool; lenderShares := lenderShares pool;
    lenderYield := yields' |} in
  mret (set_pool st poolId pool' (_userPools st) bal',
        map pay paid ++ [Emit (YieldDistributed poolId totalYield (timestamp env))]).

Definition deactivatePool (env : Msg) (poolId : Z) (st : State)
    : result (State * list Action) :=
  _ ← nonpayable env;
  _ ← onlyValidPool poolId st;
  _ ← onlyPoolCreator env poolId st;
  let pool := pool_at st poolId in
  let pool' := {|
    id := id pool; creator := creator pool; name := name pool;
    description := description pool; targetAmount := targetAmount pool;
    currentAmount := currentAmount pool; interestRate := interestRate pool;
    createdAt := createdAt pool; active := false;
    lenders := lenders pool; lenderShares := lenderShares pool;
    lenderYield := lenderYield pool |} in
  mret (set_pool st poolId pool' (_userPools st) (balance st), []).

Definition getLenderShare (poolId : Z) (lender : address) (st : State) : result Z :=
  _ ← onlyValidPool poolId st;
  mret (mget (lenderShares (pool_at st poolId)) lender).

Definition getLenderYield (poolId : Z) (lender : address) (st : State) : result Z :=
  _ ← onlyValidPool poolId st;
  mret (mget (lenderYield (pool_at st poolId)) lender).

Inductive Call :=
| CreatePool (name' description' : string) (targetAmount' interestRate' : Z)
| AddLiquidity (poolId : Z)
| RemoveLiquidity (poolId amount : Z)
| DistributeYield (poolId totalYield : Z)
| DeactivatePool (poolId : Z).

(** Every integer argument of a call is a [uint256]. *)
Definition wf_call (c : Call) : Prop :=
  match c with
  | CreatePool _ _ t r => 0 <= t <= uint256_max /\ 0 <= r <= uint256_max
  | AddLiquidity i | DeactivatePool i => 0 <= i <= uint256_max
  | RemoveLiquidity i a => 0 <= i <= uint256_max /\ 0 <= a <= uint256_max
  | DistributeYield i y => 0 <= i <= uint256_max /\ 0 <= y <= uint256_max
  end.

Definition exec (env : Msg) (c : Call) (st : State) : result (State * list Action) :=
  match c with
  | CreatePool n d t r => '(st', _, acts) ← createPool env n d t r st; mret (st', acts)
  | AddLiquidity i => addLiquidity env i st
  | RemoveLiquidity i a => removeLiquidity env i a st
  | DistributeYield i y => distributeYield env i y st
  | DeactivatePool i => deactivatePool env i st
  end.

Definition transact (env : Msg) (c : Call) (st : State) : State :=
  match exec env c st with
  | Ok (st', _) => st'
  | Fail _ => st
  end.

Inductive reachable : State -> Prop :=
| reach_initial : reachable initial
| reach_step env c st st' acts :
    reachable st -> wf_msg env -> wf_call c ->
    exec env c st = Ok (st', acts) -> reachable st'.

(** The transfers among the actions of a call, in order. *)
Fixpoint transfers (acts : list Action) : list (N * Z) :=
  match acts with
  | [] => []
  | Transfer to amt :: rest => (to, amt) :: transfers rest
  | Emit _ :: rest => transfers rest
  end.

Record pool_inv (pool : Pool) : Prop := {
  inv_current : 0 <= currentAmount pool;
  inv_nodup : NoDup (lenders pool);
  inv_nonneg : forall a, 0 <= mget (lenderShares pool) a;
  inv_outside : forall a, a ∉ lenders pool -> mget (lenderShares pool) a = 0;
  inv_sum : sum_over (lenderShares pool) (lenders pool) = currentAmount pool
}.

Record state_inv (st : State) : Prop := {
  inv_counter : 0 <= _poolCounter st;
  inv_fresh : forall i, ~ (0 <= i < _poolCounter st) -> _pools st !! i = None;
  inv_pools : forall i, 0 <= i < _poolCounter st -> pool_inv (pool_at st i)
}.

(** The remaining views. *)
Definition getPool (poolId : Z) (st : State) : result Pool :=
  _ ← onlyValidPool poolId st;
  mret (pool_at st poolId).

Definition getPoolLenders (poolId : Z) (st : State) : result (list N) :=
  _ ← onlyValidPool poolId st;
  mret (lenders (pool_at st poolId)).

Definition getUserPools (who : address) (st : State) : list Z :=
  default [] (_userPools st !! who).

Definition getTotalPools (st : State) : Z := _poolCounter st.

(** What the contract owes its contributors: the sum of [currentAmount]
    over all pools. *)
Definition liabilities (st : State) : Z :=
  foldr (fun i acc => currentAmount (pool_at st i) + acc) 0 (seqZ 0 (_poolCounter st)).

(** Ether can reach the contract without any of its functions running (sent
    to the address before deployment, or forced on it): the balance grows
    by [v] and nothing else changes. *)
Definition receive (v : Z) (st : State) : State :=
  {| _poolCounter := _poolCounter st;
     _pools := _pools st;
     _userPools := _userPools st;
     balance := balance st + v |}.

(** The states of a deployed contract: successful calls, with ether
    arriving from outside at any point in between. *)
Inductive deployed : State -> Prop :=
| dep_initial : deployed initial
| dep_receive v st : deployed st -> 0 <= v -> deployed (receive v st)
| dep_step env c st st' acts :
    deployed st -> wf_msg env -> wf_call c ->
    exec env c st = Ok (st', acts) -> deployed st'.

(** How often [poolId] occurs in the list [getUserPools who]. *)
Definition listed (poolId : Z) (who : address) (st : State) : nat :=
  count_occ Z.eq_dec (getUserPools who st) poolId.

(** What [_userPools] records: a pool is listed once for its creator and
    once for each of its lenders. *)
Definition user_index (st : State) : Prop :=
  forall a j,
    listed j a st =
      if decide (0 <= j < _poolCounter st) then
        (Nat.b2n (bool_decide (creator (pool_at st j) = a))
         + Nat.b2n (bool_decide (a ∈ lenders (pool_at st j))))%nat
      else 0%nat.

End LenderPool.

(** ** Reputation.sol *)

Module Reputation.
Import Evm.

Inductive TrustLevel := New | Basic | Good | Excellent | Premium.

Definition level_eqb (a b : TrustLevel) : bool :=
  match a, b with
  | New, New | Basic, Basic | Good, Good | Excellent, Excellent
  | Premium, Premium => true
  | _, _ => false
  end.

Record UserReputation := {
  score : Z;
  totalLoans : Z;
  successfulLoans : Z;
  defaultedLoans : Z;
  totalLent : Z;
  totalBorrowed : Z;
  lastUpdated : Z;
  trustLevel : TrustLevel;
  categoryScores : gmap string Z
}.

Definition empty_reputation : UserReputation := {|
  score := 0; totalLoans := 0; successfulLoans := 0; defaultedLoans := 0;
  totalLent := 0; totalBorrowed := 0; lastUpdated := 0; trustLevel := New;
  categoryScores := ∅
|}.

Inductive Event :=
| ReputationUpdated (user : address) (newScore previousScore : Z) (reason : string)
| TrustLevelChanged (user : address) (newLevel previousLevel : TrustLevel).

Record State := {
  _reputations : gmap N UserReputation;
  _registeredUsers : gmap N bool;
  _users : list N
}.

Definition initial : State :=
  {| _reputations := ∅; _registeredUsers := ∅; _users := [] |}.

Definition reputation_of (st : State) (user : address) : UserReputation :=
  default empty_reputation (_reputations st !! user).

Definition registered (st : State) (user : address) : bool :=
  default false (_registeredUsers st !! user).

Definition set_reputation (st : State) (user : address) (r : UserReputation) : State :=
  {| _reputations := <[user := r]> (_reputations st);
     _registeredUsers := _registeredUsers st;
     _users := _users st |}.

Definition MAX_SCORE : Z := 2000.
Definition MIN_SCORE : Z := 0.
Definition SUCCESSFUL_LOAN_POINTS : Z := 50.
Definition DEFAULT_PENALTY : Z := 100.
Definition ON_TIME_REPAYMENT_BONUS : Z := 25.
Definition EARLY_REPAYMENT_BONUS : Z := 10.
Definition LENDING_POINTS : Z := 30.
Definition REFERRAL_POINTS : Z := 20.

Definition onlyRegisteredUser (user : address) (st : State) : result unit :=
  require (registered st user) "User not registered".

Definition _min (a b : Z) : Z := if a <? b then a else b.
Definition _max (a b : Z) : Z := if b <? a then a else b.

(** The chain of comparisons by which [_updateTrustLevel] picks [newLevel]. *)
Definition newLevel_of (newScore : Z) : TrustLevel :=
  if 1000 <=? newScore then Premium
  else if 601 <=? newScore then Excellent
  else if 301 <=? newScore then Good
  else if 101 <=? newScore then Basic
  else New.

Definition with_level (r : UserReputation) (lvl : TrustLevel) : UserReputation := {|
  score := score r; totalLoans := totalLoans r; successfulLoans := successfulLoans r;
  defaultedLoans := defaultedLoans r; totalLent := totalLent r;
  totalBorrowed := totalBorrowed r; lastUpdated := lastUpdated r;
  trustLevel := lvl; categoryScores := categoryScores r |}.

Definition _updateTrustLevel (user : address) (previousScore newScore : Z)
    (st : State) : State * list Event :=
  let previousLevel := trustLevel (reputation_of st user) in
  let newLevel := newLevel_of newScore in
  if negb (level_eqb newLevel previousLevel) then
    (set_reputation st user (with_level (reputation_of st user) newLevel),
     [TrustLevelChanged user newLevel previousLevel])
  else (st, []).

Definition registerUser (env : Msg) (user : address) (st : State)
    : result (State * list Event) :=
  _ ← nonpayable env;
  _ ← require (negb (registered st user)) "User already registered";
  let r := reputation_of st user in
  let r' := {|
    score := 100; totalLoans := totalLoans r; successfulLoans := successfulLoans r;
    defaultedLoans := defaultedLoans r; totalLent := totalLent r;
    totalBorrowed := totalBorrowed r; lastUpdated := timestamp env;
    trustLevel := New; categoryScores := categoryScores r |} in
  mret ({| _reputations := <[user := r']> (_reputations st);
           _registeredUsers := <[user := true]> (_registeredUsers st);
           _users := _users st ++ [user] |},
        [ReputationUpdated user 100 0 "User registered"]).

(** The common end of every update: store the record, re-derive the trust
    level from the stored score, report the new score. *)
Definition commit (user : address) (previousScore : Z) (r' : UserReputation)
    (reason : string) (st : State) : State * list Event :=
  let st1 := set_reputation st user r' in
  let '(st2, evs) := _updateTrustLevel user previousScore (score r') st1 in
  (st2, evs ++ [ReputationUpdated user (score r') previousScore reason]).

Definition updateReputationOnRepayment (env : Msg) (borrower : address)
    (loanAmount : Z) (wasOnTime wasEarly : bool) (st : State)
    : result (State * list Event) :=
  _ ← nonpayable env;
  _ ← onlyRegisteredUser borrower st;
  let r := reputation_of st borrower in
  let previousScore := score r in
  successful' ← checked_add (successfulLoans r) 1;
  total' ← checked_add (totalLoans r) 1;
  borrowed' ← checked_add (totalBorrowed r) loanAmount;
  let pointsToAdd := SUCCESSFUL_LOAN_POINTS in
  pointsToAdd ← (if wasOnTime then checked_add pointsToAdd ON_TIME_REPAYMENT_BONUS
                 else mret pointsToAdd);
  pointsToAdd ← (if wasEarly then checked_add pointsToAdd EARLY_REPAYMENT_BONUS
                 else mret pointsToAdd);
  raised ← checked_add (score r) pointsToAdd;
  let r' := {|
    score := _min raised MAX_SCORE; totalLoans := total';
    successfulLoans := successful'; defaultedLoans := defaultedLoans r;
    totalLent := totalLent r; totalBorrowed := borrowed';
    lastUpdated := timestamp env; trustLevel := trustLevel r;
    categoryScores := categoryScores r |} in
  mret (commit borrower previousScore r' "Successful loan repayment" st).

Definition updateReputationOnDefault (env : Msg) (borrower : address)
    (loanAmount : Z) (st : State) : result (State * list Event) :=
  _ ← nonpayable env;
  _ ← onlyRegisteredUser borrower st;
  let r := reputation_of st borrower in
  let previousScore := score r in
  defaulted' ← checked_add (defaultedLoans r) 1;
  total' ← checked_add (totalLoans r) 1;
  borrowed' ← checked_add (totalBorrowed r) loanAmount;
  let penalty := DEFAULT_PENALTY in
  lowered ← checked_sub (score r) penalty;
  let r' := {|
    score := _max lowered MIN_SCORE; totalLoans := total';
    successfulLoans := successfulLoans r; defaultedLoans := defaulted';
    totalLent := totalLent r; totalBorrowed := borrowed';
    lastUpdated := timestamp env; trustLevel := trustLevel r;
    categoryScores := categoryScores r |} in
  mret (commit borrower previousScore r' "Loan default" st).

Definition updateReputationOnLending (env : Msg) (lender : address)
    (loanAmount : Z) (st : State) : result (State * list Event) :=
  _ ← nonpayable env;
  _ ← onlyRegisteredUser lender st;
  let r := reputation_of st lender in
  let previousScore := score r in
  lent' ← checked_add (totalLent r) loanAmount;
  let pointsToAdd := LENDING_POINTS in
  raised ← checked_add (score r) pointsToAdd;
  let r' := {|
    score := _min raised MAX_SCORE; totalLoans := totalLoans r;
    successfulLoans := successfulLoans r; defaultedLoans := defaultedLoans r;
    totalLent := lent'; totalBorrowed := totalBorrowed r;
    lastUpdated := timestamp env; trustLevel := trustLevel r;
    categoryScores := categoryScores r |} in
  mret (commit lender previousScore r' "Lending activity" st).

Definition updateReputationOnReferral (env : Msg) (referrer referredUser : address)
    (st : State) : result (State * list Event) :=
  _ ← nonpayable env;
  _ ← onlyRegisteredUser referrer st;
  let r := reputation_of st referrer in
  let previousScore := score r in
  let pointsToAdd := REFERRAL_POINTS in
  raised ← checked_add (score r) pointsToAdd;
  let r' := {|
    score := _min raised MAX_SCORE; totalLoans := totalLoans r;
    successfulLoans := successfulLoans r; defaultedLoans := defaultedLoans r;
    totalLent := totalLent r; totalBorrowed := totalBorrowed r;
    lastUpdated := timestamp env; trustLevel := trustLevel r;
    categoryScores := categoryScores r |} in
  mret (commit referrer previousScore r' "Referral bonus" st).

Definition category_of (r : UserReputation) (category : string) : Z :=
  default 0 (categoryScores r !! category).

(** [points] is an [int256]; negating the least one overflows. *)
Definition updateCategoryScore (env : Msg) (user : address) (category : string)
    (points : Z) (st : State) : result (State * list Event) :=
  _ ← nonpayable env;
  _ ← onlyRegisteredUser user st;
  let r := reputation_of st user in
  let previousScore := score r in
  '(cat', score') ←
    (if 0 <? points then
       c ← checked_add (category_of r category) points;
       raised ← checked_add (score r) points;
       mret (c, _min raised MAX_SCORE)
     else
       absPoints ← (if points =? int256_min then Fail (Panic 17) else mret (- points));
       c ← checked_sub (category_of r category) absPoints;
       lowered ← checked_sub (score r) absPoints;
       mret (_max c 0, _max lowered MIN_SCORE));
  let r' := {|
    score := score'; totalLoans := totalLoans r;
    successfulLoans := successfulLoans r; defaultedLoans := defaultedLoans r;
    totalLent := totalLent r; totalBorrowed := totalBorrowed r;
    lastUpdated := timestamp env; trustLevel := trustLevel r;
    categoryScores := <[category := cat']> (categoryScores r) |} in
  mret (commit user previousScore r' ("Category update: " +:+ category) st).

Definition getUserScore (user : address) (st : State) : result (Z * TrustLevel) :=
  _ ← onlyRegisteredUser user st;
  mret (score (reputation_of st user), trustLevel (reputation_of st user)).

Inductive Call :=
| RegisterUser (user : address)
| OnRepayment (borrower : address) (loanAmount : Z) (wasOnTime wasEarly : bool)
| OnDefault (borrower : address) (loanAmount : Z)
| OnLending (lender : address) (loanAmount : Z)
| OnReferral (referrer referredUser : address)
| OnCategory (user : address) (category : string) (points : Z).

Definition wf_call (c : Call) : Prop :=
  match c with
  | OnRepayment _ a _ _ | OnDefault _ a | OnLending _ a => 0 <= a <= uint256_max
  | OnCategory _ _ p => int256_min <= p <= int256_max
  | _ => True
  end.

Definition exec (env : Msg) (c : Call) (st : State) : result (State * list Event) :=
  match c with
  | RegisterUser u => registerUser env u st
  | OnRepayment b a t e => updateReputationOnRepayment env b a t e st
  | OnDefault b a => updateReputationOnDefault env b a st
  | OnLending l a => updateReputationOnLending env l a st
  | OnReferral r u => updateReputationOnReferral env r u st
  | OnCategory u c p => updateCategoryScore env u c p st
  end.

Definition transact (env : Msg) (c : Call) (st : State) : State :=
  match exec env c st with
  | Ok (st', _) => st'
  | Fail _ => st
  end.

Inductive reachable : State -> Prop :=
| reach_initial : reachable initial
| reach_step env c st st' evs :
    reachable st -> wf_msg env -> wf_call c ->
    exec env c st = Ok (st', evs) -> reachable st'.

(** The tiers as the specification words them: New below 101, Basic below
    301, Good below 601, Excellent below 1001, Premium from 1001 on. *)
Definition spec_tier (s : Z) : TrustLevel :=
  if s <? 101 then New
  else if s <? 301 then Basic
  else if s <? 601 then Good
  else if s <? 1001 then Excellent
  else Premium.

(** The tiers with the line between Excellent and Premium drawn at 1000:
    New below 101, Basic below 301, Good below 601, Excellent below 1000,
    Premium from 1000. *)
Definition threshold_tier (s : Z) : TrustLevel :=
  if s <? 101 then New
  else if s <? 301 then Basic
  else if s <? 601 then Good
  else if s <? 1000 then Excellent
  else Premium.

(** The outcome of applying a list of calls in turn, failed ones skipped. *)
Definition run (env : Msg) (cs : list Call) (st : State) : State :=
  fold_left (fun s c => transact env c s) cs st.

(** The remaining views. *)
Definition getUserReputation (user : address) (st : State) : result UserReputation :=
  _ ← onlyRegisteredUser user st;
  mret (reputation_of st user).

Definition getCategoryScore (user : address) (category : string) (st : State)
    : result Z :=
  _ ← onlyRegisteredUser user st;
  mret (category_of (reputation_of st user) category).

Definition isUserRegistered (user : address) (st : State) : bool := registered st user.

Definition getTotalUsers (st : State) : Z := Z.of_nat (length (_users st)).

Definition getAllUsers (st : State) : list N := _users st.

(** The points a rewarding call adds to the score of its subject. *)
Definition reward (c : Call) : Z :=
  match c with
  | OnRepayment _ _ t e =>
      SUCCESSFUL_LOAN_POINTS + (if t then ON_TIME_REPAYMENT_BONUS else 0)
      + (if e then EARLY_REPAYMENT_BONUS else 0)
  | OnLending _ _ => LENDING_POINTS
  | OnReferral _ _ => REFERRAL_POINTS
  | _ => 0
  end.

(** The user whose record a call writes. *)
Definition subject (c : Call) : address :=
  match c with
  | RegisterUser u | OnRepayment u _ _ _ | OnDefault u _ | OnLending u _
  | OnReferral u _ | OnCategory u _ _ => u
  end.

End Reputation.

(** ** The server: the [Loan] model and [loanController.cancelLoan]

    Amounts are JavaScript numbers; the model takes them as integers.  On
    whole numbers up to [Number.MAX_SAFE_INTEGER] the additions and
    comparisons of the code are exact and are the ones of the model; on
    fractions and beyond that range the code rounds, and what is proved of
    amounts is stated for the exact range only.  The [loans] collection is
    a map from document id to loan, a date is a clock reading, and
    [null]/[undefined] is [None]. *)

Module Server.

Record Loan := {
  id : string;
  borrowerId : string;
  amount : Z;
  fundedAmount : Z;
  interestRate : Z;
  duration : Z;
  status : string;
  lenders : list string;
  lenderContributions : gmap string Z;
  updatedAt : Z;
  fundedAt : option Z;
  isActive : bool
}.

Abbreviation loans := (gmap string Loan) (only parsing).

(** [new Loan(data)] for a request that carries the listed fields only:
    [fundedAmount] 0, [status] 'pending', no lenders, [isActive] true. *)
Definition new_loan (id' borrowerId' : string) (amount' interestRate' duration' now : Z)
    : Loan := {|
  id := id'; borrowerId := borrowerId'; amount := amount'; fundedAmount := 0;
  interestRate := interestRate'; duration := duration'; status := "pending";
  lenders := []; lenderContributions := ∅; updatedAt := now; fundedAt := None;
  isActive := true
|}.

(** [Loan.findById]. *)
Definition findById (db : loans) (loanId : string) : option Loan := db !! loanId.

(** [Array.prototype.includes] on the lender list. *)
Fixpoint includes (ls : list string) (who : string) : bool :=
  match ls with
  | [] => false
  | a :: rest => if String.eqb a who then true else includes rest who
  end.

(** [loan.fundLoan(lenderId, amount)]: the loan document after the call.
    The two additions are the code's on whole amounts within the safe
    range, and [(contributions[lenderId] || 0)] is the lookup with default
    0 for every [lenderId] that is not an inherited property name. *)
Definition fundLoan (loan : Loan) (lenderId : string) (amount' now : Z) : Loan :=
  let lenders' :=
    if negb (includes (lenders loan) lenderId) then lenders loan ++ [lenderId]
    else lenders loan in
  let contributions' :=
    <[lenderId := default 0 (lenderContributions loan !! lenderId) + amount']>
      (lenderContributions loan) in
  let funded' := fundedAmount loan + amount' in
  let full := amount loan <=? funded' in
  {| id := id loan; borrowerId := borrowerId loan; amount := amount loan;
     fundedAmount := funded';
     interestRate := interestRate loan; duration := duration loan;
     status := if full then "active" else status loan;
     lenders := lenders'; lenderContributions := contributions';
     updatedAt := now;
     fundedAt := if full then Some now else fundedAt loan;
     isActive := isActive loan |}.

(** [loan.update({ status: 'cancelled', isActive: false })]. *)
Definition cancelled (loan : Loan) (now : Z) : Loan :=
  {| id := id loan; borrowerId := borrowerId loan; amount := amount loan;
     fundedAmount := fundedAmount loan;
     interestRate := interestRate loan; duration := duration loan;
     status := "cancelled";
     lenders := lenders loan; lenderContributions := lenderContributions loan;
     updatedAt := now; fundedAt := fundedAt loan; isActive := false |}.

(** What the handler sends: the HTTP status, and either the [error] and
    [message] of a refusal or the message of a success. *)
Inductive Response :=
| Refused (code : Z) (error message : string)
| Success (code : Z) (message : string).

(** [cancelLoan]: [DELETE /api/loans/:id] by the authenticated [userId]. *)
Definition cancelLoan (db : loans) (loanId userId : string) (now : Z)
    : Response * loans :=
  match findById db loanId with
  | None =>
      (Refused 404 "Loan not found" "The requested loan does not exist", db)
  | Some loan =>
      if negb (String.eqb (borrowerId loan) userId) then
        (Refused 403 "Permission denied" "Only the borrower can cancel this loan", db)
      else if negb (String.eqb (status loan) "pending") then
        (Refused 400 "Cannot cancel loan" "Only pending loans can be cancelled", db)
      else
        (Success 200 "Loan cancelled successfully",
         <[loanId := cancelled loan now]> db)
  end.

(** The specification's rule: cancellation is open only while the loan is
    pending and nothing has been funded. *)
Definition spec_cancellable (loan : Loan) : Prop :=
  status loan = "pending" /\ fundedAmount loan = 0.

(** The fields of the [User] model that funding looks at; an absent
    [walletAddress] is [None]. *)
Record User := {
  isVerified : bool;
  walletAddress : option string
}.

(** [user.canFundLoan()], as the handler tests it: [isVerified] and a
    [walletAddress] that is truthy (present and not the empty string). *)
Definition canFundLoan (u : User) : bool :=
  isVerified u &&
  match walletAddress u with
  | Some w => negb (String.eqb w "")
  | None => false
  end.

(** The controller's [fundLoan]: [POST /api/loans/:id/fund] by the
    authenticated [userId].  [user] is what [User.findById(userId)] returns
    and [chain_ok] tells whether [loanService.fundLoanOnBlockchain] went
    through.  The result is [None] when the handler throws (calling
    [canFundLoan] on a missing user) and the error middleware takes over. *)
Definition handleFundLoan (db : loans) (user : option User) (chain_ok : bool)
    (loanId userId : string) (amount' now : Z) : option (Response * loans) :=
  match findById db loanId with
  | None =>
      Some (Refused 404 "Loan not found" "The requested loan does not exist", db)
  | Some loan =>
      if negb (String.eqb (status loan) "pending") then
        Some (Refused 400 "Invalid loan status" "Loan is not available for funding", db)
      else if String.eqb (borrowerId loan) userId then
        Some (Refused 400 "Cannot fund own loan" "You cannot fund your own loan", db)
      else
        match user with
        | None => None
        | Some u =>
            if negb (canFundLoan u) then
              Some (Refused 403 "Permission denied"
                      "User must be verified and have a connected wallet to fund loans",
                    db)
            else if negb chain_ok then
              Some (Refused 500 "Blockchain transaction failed"
                      "Unable to process funding transaction", db)
            else
              Some (Success 200 "Loan funded successfully",
                    <[loanId := fundLoan loan userId amount' now]> db)
        end
  end.

(** A loan funded by a list of (lender, amount) contributions in turn. *)
Definition fund_all (loan : Loan) (fs : list (string * Z)) (now : Z) : Loan :=
  fold_left (fun l f => fundLoan l (fst f) (snd f) now) fs loan.

(** Sum of the recorded contributions of a list of lenders. *)
Definition contributed (loan : Loan) (ls : list string) : Z :=
  foldr (fun a acc => default 0 (lenderContributions loan !! a) + acc) 0 ls.

(** What the model keeps while a loan is only funded. *)
Record ledger_ok (loan : Loan) : Prop := {
  ok_nodup : NoDup (lenders loan);
  ok_outside : forall a, a ∉ lenders loan -> lenderContributions loan !! a = None;
  ok_nonneg : forall a, 0 <= default 0 (lenderContributions loan !! a);
  ok_sum : contributed loan (lenders loan) = fundedAmount loan;
  ok_status : (status loan = "pending" /\ fundedAmount loan < amount loan) \/
              (status loan = "active" /\ amount loan <= fundedAmount loan)
}.

(** [Number.MAX_SAFE_INTEGER]: up to it a JavaScript number holds every
    whole number, and adds and compares whole numbers without rounding. *)
Definition MAX_SAFE_INTEGER : Z := 2 ^ 53 - 1.

(** The property names that the plain object [lenderContributions]
    inherits from [Object.prototype]: read before they are written, they do
    not give [undefined], so [(contributions[id] || 0)] is not 0 for them. *)
Definition inherited_keys : list string :=
  ["constructor"; "__proto__"; "hasOwnProperty"; "isPrototypeOf";
   "propertyIsEnumerable"; "toLocaleString"; "toString"; "valueOf";
   "__defineGetter__"; "__defineSetter__"; "__lookupGetter__"; "__lookupSetter__"].

Definition sum_amounts (fs : list (string * Z)) : Z :=
  foldr (fun f acc => snd f + acc) 0 fs.

(** One contribution whose sum with [fundedAmount] the code computes
    exactly: whole numbers, nothing negative, within the safe range. *)
Definition exact_sum (loan : Loan) (amount' : Z) : Prop :=
  0 <= amount loan <= MAX_SAFE_INTEGER /\
  0 <= fundedAmount loan /\ 0 <= amount' /\
  fundedAmount loan + amount' <= MAX_SAFE_INTEGER.

(** A run of contributions on which the integers of the model are the
    numbers of the code: positive whole amounts whose total with
    [fundedAmount] stays within the safe range, from lenders whose ids are
    not inherited property names. *)
Definition exact_funding (loan : Loan) (fs : list (string * Z)) : Prop :=
  0 <= amount loan <= MAX_SAFE_INTEGER /\
  fundedAmount loan + sum_amounts fs <= MAX_SAFE_INTEGER /\
  Forall (fun f => 0 < snd f /\ fst f ∉ inherited_keys) fs.

End Server.

(** ** Concrete runs used as test inputs *)

Module LoanScenario.
Import Evm LoanManager.

Definition alice : address := 1%N.
Definition bob : address := 2%N.
Definition carol : address := 3%N.

(** Alice asks for 0.01 ether at rate 5 for 30 days; Bob lends one wei and
    Carol the rest. *)
Definition requested : State :=
  transact (call alice 0 1000) (CreateLoan (ether / 100) 5 (30 * days) "stock") initial.
Definition partly_funded : State :=
  transact (call bob 1 1001) (FundLoan 0) requested.
Definition funded : State :=
  transact (call carol (ether / 100 - 1) 1002) (FundLoan 0) partly_funded.
Definition due : Z := 10000410958904109.
Definition repaid : State :=
  transact (call alice due 2000) (RepayLoan 0) funded.

(** Alice asks for one ether at rate 10 for a year; Bob lends all of it. *)
Definition yearly : State :=
  transact (call bob ether 1001) (FundLoan 0)
    (transact (call alice 0 1000) (CreateLoan ether 10 (365 * days) "shop") initial).

End LoanScenario.

Module PoolScenario.
Import Evm LenderPool.

Definition alice : address := 1%N.
Definition bob : address := 2%N.
Definition dana : address := 4%N.

(** Dana opens a pool with a target of one ether. *)
Definition created : State :=
  transact (call dana 0 1000) (CreatePool "savers" "village savings" (1 * ether) 5) initial.

(** Alice and Bob put in 300 each. *)
Definition even : State :=
  transact (call bob 300 1002) (AddLiquidity 0)
    (transact (call alice 300 1001) (AddLiquidity 0) created).

Definition even_yield : State :=
  transact (call dana 0 1003) (DistributeYield 0 100) even.

(** The same pool after Dana has deactivated it. *)
Definition even_inactive : State :=
  transact (call dana 0 1003) (DeactivatePool 0) even.
Definition even_paid : State :=
  transact (call dana 0 1004) (DistributeYield 0 100) even_inactive.
Definition even_paid_twice : State :=
  transact (call dana 0 1005) (DistributeYield 0 100) even_paid.

(** Alice puts in 100 and Bob 200. *)
Definition uneven : State :=
  transact (call bob 200 1002) (AddLiquidity 0)
    (transact (call alice 100 1001) (AddLiquidity 0) created).
Definition uneven_paid : State :=
  transact (call dana 0 1004) (DistributeYield 0 100) uneven.

(** The pool of Alice and Bob after 7 wei were forced on the contract. *)
Definition even_forced : State := receive 7 even.
Definition even_forced_paid : State :=
  transact (call dana 0 1003) (DistributeYield 0 100) even_forced.

(** Dana puts 300 into her own pool. *)
Definition own : State :=
  transact (call dana 300 1001) (AddLiquidity 0) created.

End PoolScenario.

Module ReputationScenario.
Import Evm Reputation.

Definition operator : address := 9%N.
Definition user : address := 7%N.

Definition env : Msg := call operator 0 1000.

Definition fresh : State := transact env (RegisterUser user) initial.

(** One default takes the starting score of 100 down to 0. *)
Definition defaulted : State := transact env (OnDefault user 500) fresh.

(** A referral after the default: the score is 20. *)
Definition referred : State := transact env (OnReferral user operator) defaulted.

(** Eighteen plain repayments take the starting score of 100 to 1000;
    seventeen take it to 950. *)
Definition repayments (n : nat) : list Call :=
  List.repeat (OnRepayment user 1 false false) n.
Definition at_950 : State := run env (repayments 17) fresh.
Definition at_1000 : State := run env (repayments 18) fresh.

End ReputationScenario.

Module ServerScenario.
Import Server.

(** Amara asks for 1000; one lender has put in 500, so the loan is still
    pending. *)
Definition asked : Loan := new_loan "loan1" "amara" 1000 10 90 1.
Definition half_funded : Loan := fundLoan asked "lender" 500 2.
Definition db : gmap string Loan := <["loan1" := half_funded]> ∅.

(** The same loan once a second lender has put in the rest. *)
Definition fully_funded : Loan := fundLoan half_funded "lender2" 500 3.
Definition db_active : gmap string Loan := <["loan1" := fully_funded]> ∅.

End ServerScenario.
(** * Properties *)

(** ** Reasoning about calls *)

Module EvmFacts.
Import Evm.

Lemma bind_Ok {A B} (m : result A) (k : A -> result B) (r : B) :
  m ≫= k = Ok r -> exists a, m = Ok a /\ k a = Ok r.
Proof. destruct m as [a|f]; simpl; [eauto | discriminate]. Qed.

Lemma require_Ok b reason u : require b reason = Ok u -> b = true.
Proof. destruct b; [reflexivity | discriminate]. Qed.

Lemma nonpayable_Ok env u : nonpayable env = Ok u -> value env = 0.
Proof. unfold nonpayable. destruct (Z.eqb_spec (value env) 0); [auto | discriminate]. Qed.

Lemma checked_add_Ok a b c : checked_add a b = Ok c -> c = a + b /\ a + b <= uint256_max.
Proof.
  unfold checked_add. destruct (Z.leb_spec (a + b) uint256_max); [|discriminate].
  intros [= <-]. auto.
Qed.

Lemma checked_sub_Ok a b c : checked_sub a b = Ok c -> c = a - b /\ b <= a.
Proof.
  unfold checked_sub. destruct (Z.leb_spec b a); [|discriminate].
  intros [= <-]. auto.
Qed.

Lemma checked_mul_Ok a b c : checked_mul a b = Ok c -> c = a * b /\ a * b <= uint256_max.
Proof.
  unfold checked_mul. destruct (Z.leb_spec (a * b) uint256_max); [|discriminate].
  intros [= <-]. auto.
Qed.

Lemma checked_div_Ok a b c : checked_div a b = Ok c -> c = a / b /\ b <> 0.
Proof.
  unfold checked_div. destruct (Z.eqb_spec b 0); [discriminate|].
  intros [= <-]. auto.
Qed.

Lemma checked_add_cases a b :
  checked_add a b = Ok (a + b) \/ checked_add a b = Fail (Panic 17).
Proof. unfold checked_add. destruct (a + b <=? uint256_max); auto. Qed.

Lemma transfer_Ok env to amt bal bal' :
  transfer env to amt bal = Ok bal' -> bal' = bal - amt /\ amt <= bal /\ accepts env to = true.
Proof.
  unfold transfer. destruct (Z.leb_spec amt bal); simpl; [|discriminate].
  destruct (accepts env to); [|discriminate]. intros [= <-]. auto.
Qed.

Lemma mget_insert_eq (m : gmap N Z) a v : mget (<[a := v]> m) a = v.
Proof. unfold mget. by rewrite lookup_insert_eq. Qed.

Lemma mget_insert_ne (m : gmap N Z) a b v : a <> b -> mget (<[a := v]> m) b = mget m b.
Proof. intros. unfold mget. by rewrite lookup_insert_ne. Qed.

Lemma mget_empty a : mget ∅ a = 0.
Proof. reflexivity. Qed.

Lemma scan_elem who (arr : list N) : scan who arr = true <-> who ∈ arr.
Proof.
  induction arr as [|a rest IH]; simpl.
  - split; [discriminate | intros H; inversion H].
  - destruct (N.eqb_spec a who) as [->|Hne].
    + split; [intros _; constructor | reflexivity].
    + rewrite IH. split; [by constructor|].
      intros H. inversion H; subst; [congruence | assumption].
Qed.

Lemma scan_not_elem who (arr : list N) : scan who arr = false <-> who ∉ arr.
Proof.
  rewrite <- scan_elem. destruct (scan who arr); split; congruence.
Qed.

Lemma sum_over_app (m : gmap N Z) ks ks' :
  sum_over m (ks ++ ks') = sum_over m ks + sum_over m ks'.
Proof. induction ks as [|k ks IH]; simpl; [reflexivity | rewrite IH; lia]. Qed.

Lemma sum_over_insert_notin (m : gmap N Z) a v (ks : list N) :
  a ∉ ks -> sum_over (<[a := v]> m) ks = sum_over m ks.
Proof.
  induction ks as [|k ks IH]; simpl; [reflexivity|].
  intros Hn. rewrite not_elem_of_cons in Hn. destruct Hn as [Hne Hn].
  rewrite mget_insert_ne by congruence. rewrite IH by assumption. reflexivity.
Qed.

Lemma sum_over_insert_in (m : gmap N Z) a v (ks : list N) :
  NoDup ks -> a ∈ ks -> sum_over (<[a := v]> m) ks = sum_over m ks + (v - mget m a).
Proof.
  induction 1 as [|k ks Hk Hnd IH]; intros Hin; [inversion Hin|].
  simpl. destruct (decide (a = k)) as [->|Hne].
  - rewrite mget_insert_eq, sum_over_insert_notin by assumption. lia.
  - rewrite mget_insert_ne by assumption.
    rewrite IH; [lia|]. inversion Hin; subst; [congruence | assumption].
Qed.

(** *** Pro-rata splitting by floor division *)

Lemma floor_share_bounds c R F :
  0 < F -> F * (c * R / F) <= c * R <= F * (c * R / F) + (F - 1).
Proof.
  intros HF. pose proof (Z.div_mod (c * R) F ltac:(lia)).
  pose proof (Z.mod_pos_bound (c * R) F HF). lia.
Qed.

Lemma floor_split_bounds (m : gmap N Z) R F (ls : list N)
    (paid := map (fun a => (a, mget m a * R / F)) ls) :
  0 < F ->
  F * total paid <= R * sum_over m ls <=
  F * total paid + Z.of_nat (length ls) * (F - 1).
Proof.
  intros HF. subst paid. induction ls as [|a ls IH]; [simpl; lia|].
  cbn [map total fold_right sum_over length snd].
  fold (total (map (fun a => (a, mget m a * R / F)) ls)). fold (sum_over m ls).
  pose proof (floor_share_bounds (mget m a) R F HF). nia.
Qed.

Lemma floor_split_exact (m : gmap N Z) R F (ls : list N) :
  0 < F -> (forall a, a ∈ ls -> (mget m a * R) mod F = 0) ->
  F * total (map (fun a => (a, mget m a * R / F)) ls) = R * sum_over m ls.
Proof.
  intros HF. induction ls as [|a ls IH]; intros Hdiv; [simpl; lia|].
  cbn [map total fold_right sum_over snd].
  fold (total (map (fun a => (a, mget m a * R / F)) ls)). fold (sum_over m ls).
  assert (Ha : (mget m a * R) mod F = 0) by (apply Hdiv; constructor).
  pose proof (Z.div_mod (mget m a * R) F ltac:(lia)).
  assert (IH' : F * total (map (fun a => (a, mget m a * R / F)) ls) = R * sum_over m ls).
  { apply IH. intros b Hb. apply Hdiv. by constructor. }
  nia.
Qed.

Lemma floor_split_exact_inv (m : gmap N Z) R F (ls : list N) :
  0 < F ->
  F * total (map (fun a => (a, mget m a * R / F)) ls) = R * sum_over m ls ->
  forall a, a ∈ ls -> (mget m a * R) mod F = 0.
Proof.
  intros HF. induction ls as [|b ls IH]; intros Heq a Ha; [inversion Ha|].
  cbn [map total fold_right sum_over snd] in Heq.
  fold (total (map (fun a => (a, mget m a * R / F)) ls)) in Heq.
  fold (sum_over m ls) in Heq.
  pose proof (floor_share_bounds (mget m b) R F HF) as [Hb _].
  pose proof (floor_split_bounds m R F ls HF) as [Hrest _].
  pose proof (Z.div_mod (mget m b * R) F ltac:(lia)) as Hdm.
  apply elem_of_cons in Ha as [->|Ha].
  - nia.
  - apply IH; [nia | assumption].
Qed.

Lemma wf_msg_call who v t :
  0 <= v <= uint256_max -> 0 <= t <= uint256_max -> wf_msg (call who v t).
Proof. intros. split; assumption. Qed.

(** Closed range goals, by evaluation. *)
Ltac range := split; [apply Z.leb_le | apply Z.leb_le]; vm_compute; reflexivity.
Ltac wf := apply wf_msg_call; range.

End EvmFacts.


(** ** Sums over the ids in use *)

Module SumFacts.

Lemma sum_ids_ext (f g : Z -> Z) (l : list Z) :
  (forall i, i ∈ l -> f i = g i) ->
  foldr (fun i acc => f i + acc) 0 l = foldr (fun i acc => g i + acc) 0 l.
Proof.
  induction l as [|j l IH]; intros H; simpl; [reflexivity|].
  rewrite (H j) by constructor. rewrite IH; [reflexivity|].
  intros i Hi. apply H. by constructor.
Qed.

Lemma sum_ids_update (f g : Z -> Z) (l : list Z) j d :
  NoDup l -> j ∈ l -> g j = f j + d -> (forall i, i <> j -> g i = f i) ->
  foldr (fun i acc => g i + acc) 0 l = foldr (fun i acc => f i + acc) 0 l + d.
Proof.
  intros Hnd Hj Hgj Hother. induction Hnd as [|k l Hk Hnd IH]; [inversion Hj|].
  simpl. destruct (decide (k = j)) as [->|Hne].
  - rewrite Hgj. rewrite (sum_ids_ext g f l); [lia|].
    intros i Hi. apply Hother. intros ->. contradiction.
  - rewrite (Hother k Hne). rewrite IH; [lia|].
    inversion Hj; subst; [congruence | assumption].
Qed.

Lemma sum_ids_nonneg (f : Z -> Z) (l : list Z) :
  (forall i, i ∈ l -> 0 <= f i) -> 0 <= foldr (fun i acc => f i + acc) 0 l.
Proof.
  induction l as [|j l IH]; intros H; simpl; [lia|].
  assert (0 <= f j) by (apply H; constructor).
  assert (0 <= foldr (fun i acc => f i + acc) 0 l); [|lia].
  apply IH. intros i Hi. apply H. by constructor.
Qed.

Lemma sum_ids_snoc (f : Z -> Z) (l : list Z) k :
  foldr (fun i acc => f i + acc) 0 (l ++ [k]) =
  foldr (fun i acc => f i + acc) 0 l + f k.
Proof. induction l as [|j l IH]; simpl; [lia | rewrite IH; lia]. Qed.

Lemma seqZ_snoc n : 0 <= n -> seqZ 0 (n + 1) = seqZ 0 n ++ [n].
Proof.
  intros Hn. rewrite seqZ_app by lia. reflexivity.
Qed.

End SumFacts.
(** ** The loan manager *)

Module LoanManagerFacts.
Import Evm EvmFacts LoanManager.

Lemma status_eqb_eq a b : status_eqb a b = true <-> a = b.
Proof. destruct a, b; simpl; split; congruence. Qed.

(** What a successful [fundLoan] did. *)
Lemma fundLoan_Ok env i st st' acts (l := loan_at st i) :
  fundLoan env i st = Ok (st', acts) ->
  i < _loanCounter st /\ status l = Pending /\ 0 < value env /\
  fundedAmount l + value env <= amount l /\
  _loanCounter st' = _loanCounter st /\
  balance st' = balance st + value env /\
  acts = [Emit (LoanFunded i (sender env) (value env))] /\
  _loans st' = <[i := {|
      id := id l; borrower := borrower l; amount := amount l;
      fundedAmount := fundedAmount l + value env;
      interestRate := interestRate l; duration := duration l;
      createdAt := createdAt l; dueDate := dueDate l; purpose := purpose l;
      status := if amount l <=? fundedAmount l + value env then Active else Pending;
      lenders := if scan (sender env) (lenders l) then lenders l
                 else lenders l ++ [sender env];
      lenderContributions :=
        <[sender env := mget (lenderContributions l) (sender env) + value env]>
          (lenderContributions l) |}]> (_loans st).
Proof.
  unfold fundLoan, onlyValidLoan. intros H.
  apply bind_Ok in H as (? & E1 & H). apply require_Ok in E1.
  apply bind_Ok in H as (? & E2 & H). apply require_Ok, status_eqb_eq in E2.
  apply bind_Ok in H as (? & E3 & H). apply require_Ok in E3.
  apply bind_Ok in H as (rem & E4 & H). apply checked_sub_Ok in E4 as [-> E4].
  apply bind_Ok in H as (? & E5 & H). apply require_Ok in E5.
  apply bind_Ok in H as (f' & E6 & H). apply checked_add_Ok in E6 as [-> E6].
  apply bind_Ok in H as (c' & E7 & H). apply checked_add_Ok in E7 as [-> E7].
  injection H as <- <-. fold l in E2, E4, E5 |- *. simpl.
  rewrite E2. repeat split; auto; lia.
Qed.

(** What a successful [createLoan] did. *)
Lemma createLoan_Ok env a r d p st st' i acts :
  createLoan env a r d p st = Ok (st', i, acts) ->
  i = _loanCounter st /\ value env = 0 /\
  MIN_LOAN_AMOUNT <= a <= MAX_LOAN_AMOUNT /\
  MIN_INTEREST_RATE <= r <= MAX_INTEREST_RATE /\
  MIN_DURATION <= d <= MAX_DURATION /\
  _loanCounter st' = _loanCounter st + 1 /\
  balance st' = balance st /\
  _loans st' = <[i := {|
      id := i; borrower := sender env; amount := a; fundedAmount := 0;
      interestRate := r; duration := d; createdAt := timestamp env;
      dueDate := timestamp env + d; purpose := p; status := Pending;
      lenders := lenders (loan_at st i);
      lenderContributions := lenderContributions (loan_at st i) |}]> (_loans st).
Proof.
  unfold createLoan. intros H.
  apply bind_Ok in H as (? & E0 & H). apply nonpayable_Ok in E0.
  apply bind_Ok in H as (? & E1 & H). apply require_Ok, andb_true_iff in E1 as [E1 E1'].
  apply bind_Ok in H as (? & E2 & H). apply require_Ok, andb_true_iff in E2 as [E2 E2'].
  apply bind_Ok in H as (? & E3 & H). apply require_Ok, andb_true_iff in E3 as [E3 E3'].
  apply bind_Ok in H as (? & E4 & H).
  apply bind_Ok in H as (c' & E5 & H). apply checked_add_Ok in E5 as [-> E5].
  apply bind_Ok in H as (due & E6 & H). apply checked_add_Ok in E6 as [-> E6].
  injection H as <- <- <-. simpl. repeat split; auto; lia.
Qed.

(** The distribution loop pays every lender, in order, the floor of its
    pro-rata part. *)
Lemma repay_loop_Ok env loan R ls bal bal' paid :
  distribute env loan R ls bal = Ok (bal', paid) ->
  paid = map (fun a => (a, mget (lenderContributions loan) a * R / fundedAmount loan)) ls /\
  bal' = bal - total paid /\
  (ls <> [] -> fundedAmount loan <> 0).
Proof.
  revert bal bal' paid. induction ls as [|a ls IH]; simpl; intros bal bal' paid H.
  - injection H as <- <-. simpl. repeat split; [lia | congruence].
  - apply bind_Ok in H as (p & E1 & H). apply checked_mul_Ok in E1 as [-> E1].
    apply bind_Ok in H as (s & E2 & H). apply checked_div_Ok in E2 as [-> E2].
    apply bind_Ok in H as (b1 & E3 & H). apply transfer_Ok in E3 as (-> & E3 & E3').
    apply bind_Ok in H as ([b2 paid'] & E4 & H). injection H as <- <-.
    apply IH in E4 as (-> & -> & _). simpl. repeat split; [lia | auto].
Qed.

Lemma calculateRepaymentAmount_Ok i st R (l := loan_at st i) :
  calculateRepaymentAmount i st = Ok R ->
  i < _loanCounter st /\
  R = fundedAmount l +
      fundedAmount l * interestRate l * duration l / (365 * days * 10000).
Proof.
  unfold calculateRepaymentAmount, onlyValidLoan. intros H.
  apply bind_Ok in H as (? & E1 & H). apply require_Ok in E1.
  apply bind_Ok in H as (p1 & E2 & H). apply checked_mul_Ok in E2 as [-> E2].
  apply bind_Ok in H as (p2 & E3 & H). apply checked_mul_Ok in E3 as [-> E3].
  apply checked_add_Ok in H as [-> H]. split; [lia | reflexivity].
Qed.

(** What a successful [repayLoan] did. *)
Lemma repayLoan_Ok env i st st' acts (l := loan_at st i) :
  repayLoan env i st = Ok (st', acts) ->
  exists R paid refund,
    calculateRepaymentAmount i st = Ok R /\
    i < _loanCounter st /\ borrower l = sender env /\ status l = Active /\
    R <= value env /\ timestamp env <= dueDate l /\
    paid = map (fun a => (a, mget (lenderContributions l) a * R / fundedAmount l))
               (lenders l) /\
    refund = (if R <? value env then [Transfer (sender env) (value env - R)] else []) /\
    acts = map pay paid ++ refund ++ [Emit (LoanRepaid i (sender env) R)] /\
    balance st' = balance st + value env - total paid - (value env - R) /\
    _loanCounter st' = _loanCounter st /\
    _loans st' = <[i := {|
      id := id l; borrower := borrower l; amount := amount l;
      fundedAmount := fundedAmount l;
      interestRate := interestRate l; duration := duration l;
      createdAt := createdAt l; dueDate := dueDate l; purpose := purpose l;
      status := Repaid; lenders := lenders l;
      lenderContributions := lenderContributions l |}]> (_loans st).
Proof.
  unfold repayLoan, onlyValidLoan, onlyBorrower, onlyActiveLoan. intros H.
  apply bind_Ok in H as (? & E1 & H). apply require_Ok in E1.
  apply bind_Ok in H as (? & E2 & H). apply require_Ok in E2.
  apply bind_Ok in H as (? & E3 & H). apply require_Ok, status_eqb_eq in E3.
  apply bind_Ok in H as (R & E4 & H).
  apply bind_Ok in H as (? & E5 & H). apply require_Ok in E5.
  apply bind_Ok in H as (? & E6 & H). apply require_Ok in E6.
  apply bind_Ok in H as ([bal paid] & E7 & H).
  apply repay_loop_Ok in E7 as (Hpaid & -> & _).
  apply bind_Ok in H as ([bal' refund] & E8 & H). injection H as <- <-.
  exists R, paid, refund. fold l in E2, E3, E6, Hpaid |- *. simpl.
  apply N.eqb_eq in E2.
  destruct (Z.ltb_spec R (value env)) as [Hlt|Hge].
  - apply bind_Ok in E8 as (ex & E8 & E9). apply checked_sub_Ok in E8 as [-> E8].
    apply bind_Ok in E9 as (b & E9 & E10). apply transfer_Ok in E9 as (-> & E9 & E9').
    injection E10 as <- <-. repeat split; auto; lia.
  - injection E8 as <- <-. repeat split; auto; lia.
Qed.

(** *** The invariant of reachable states *)

Lemma loan_at_updated st st' i l' :
  _loans st' = <[i := l']> (_loans st) ->
  loan_at st' i = l' /\ forall j, j <> i -> loan_at st' j = loan_at st j.
Proof.
  intros E. unfold loan_at. rewrite E. split.
  - by rewrite lookup_insert_eq.
  - intros j Hj. by rewrite lookup_insert_ne.
Qed.

Lemma MIN_LOAN_AMOUNT_pos : 0 < MIN_LOAN_AMOUNT.
Proof. reflexivity. Qed.

Lemma loan_initial_inv : state_inv initial.
Proof.
  split; simpl; [lia | intros; apply lookup_empty | intros; lia].
Qed.

Lemma createLoan_inv env a r d p st st' i acts :
  state_inv st -> createLoan env a r d p st = Ok (st', i, acts) -> state_inv st'.
Proof.
  intros [Hc Hf Hl] H.
  apply createLoan_Ok in H as (-> & _ & Ha & Hr & Hd & Hc' & _ & E).
  pose proof (loan_at_updated _ _ _ _ E) as [Hi Ho].
  assert (Hslot : loan_at st (_loanCounter st) = empty_loan).
  { unfold loan_at. rewrite Hf by lia. reflexivity. }
  rewrite Hslot in *. simpl in *.
  split.
  - lia.
  - intros j Hj. rewrite E, lookup_insert_ne by lia. apply Hf. lia.
  - intros j Hj. destruct (decide (j = _loanCounter st)) as [->|Hne].
    + rewrite Hi. pose proof MIN_LOAN_AMOUNT_pos.
      split; simpl.
      * lia.
      * lia.
      * auto.
      * split; [lia | auto].
      * constructor.
      * intros. rewrite mget_empty. lia.
      * reflexivity.
      * reflexivity.
      * assumption.
      * assumption.
    + rewrite Ho by assumption. apply Hl. lia.
Qed.

Lemma fundLoan_loan_inv env l (v := value env) (s := sender env) :
  loan_inv l -> status l = Pending -> 0 < v -> fundedAmount l + v <= amount l ->
  loan_inv {|
      id := id l; borrower := borrower l; amount := amount l;
      fundedAmount := fundedAmount l + v;
      interestRate := interestRate l; duration := duration l;
      createdAt := createdAt l; dueDate := dueDate l; purpose := purpose l;
      status := if amount l <=? fundedAmount l + v then Active else Pending;
      lenders := if scan s (lenders l) then lenders l else lenders l ++ [s];
      lenderContributions :=
        <[s := mget (lenderContributions l) s + v]> (lenderContributions l) |}.
Proof.
  intros [Ha Hf Hs Hp Hnd Hnn Hout Hsum Hr Hd] Hst Hv Hle.
  split; simpl; [| | | | | | | |assumption|assumption].
  - assumption.
  - lia.
  - destruct (amount l <=? fundedAmount l + v); auto.
  - destruct (Z.leb_spec (amount l) (fundedAmount l + v)); split;
      try discriminate; try lia; auto.
  - destruct (scan s (lenders l)) eqn:Hscan; [assumption|].
    apply scan_not_elem in Hscan. apply NoDup_app. split; [assumption|].
    split; [|apply NoDup_singleton].
    intros x Hx Hx'. apply list_elem_of_singleton in Hx'. congruence.
  - intros a. destruct (decide (s = a)) as [<-|Hne].
    + rewrite mget_insert_eq. specialize (Hnn s). lia.
    + rewrite mget_insert_ne by assumption. apply Hnn.
  - intros a Ha'. destruct (scan s (lenders l)) eqn:Hscan.
    + apply scan_elem in Hscan.
      rewrite mget_insert_ne by (intros ->; contradiction). auto.
    + rewrite not_elem_of_app in Ha'. destruct Ha' as [Ha1 Ha2].
      rewrite mget_insert_ne; [auto|].
      intros ->. apply Ha2. constructor.
  - unfold contributed in *. simpl. destruct (scan s (lenders l)) eqn:Hscan.
    + apply scan_elem in Hscan. rewrite sum_over_insert_in by assumption. lia.
    + apply scan_not_elem in Hscan.
      rewrite sum_over_app, sum_over_insert_notin by assumption. simpl.
      rewrite mget_insert_eq, (Hout s Hscan). lia.
Qed.

Lemma fundLoan_inv env i st st' acts :
  state_inv st -> fundLoan env i st = Ok (st', acts) -> state_inv st'.
Proof.
  intros [Hc Hf Hl] H.
  apply fundLoan_Ok in H as (Hi & Hst & Hv & Hle & Hc' & _ & _ & E).
  pose proof (loan_at_updated _ _ _ _ E) as [Hi' Ho].
  assert (Hi0 : 0 <= i).
  { destruct (Z.le_gt_cases 0 i) as [|Hneg]; [assumption|].
    unfold loan_at in Hv, Hle. rewrite Hf in Hle by lia. simpl in Hle. lia. }
  split.
  - lia.
  - intros j Hj. rewrite E, lookup_insert_ne by lia. apply Hf. lia.
  - intros j Hj. destruct (decide (j = i)) as [->|Hne].
    + rewrite Hi'. apply fundLoan_loan_inv; auto; apply Hl; lia.
    + rewrite Ho by assumption. apply Hl. lia.
Qed.

Lemma repayLoan_inv env i st st' acts :
  state_inv st -> repayLoan env i st = Ok (st', acts) -> state_inv st'.
Proof.
  intros [Hc Hf Hl] H.
  apply repayLoan_Ok in H
    as (R & paid & refund & _ & Hi & _ & Hst & _ & _ & _ & _ & _ & _ & Hc' & E).
  pose proof (loan_at_updated _ _ _ _ E) as [Hi' Ho].
  assert (Hi0 : 0 <= i).
  { destruct (Z.le_gt_cases 0 i) as [|Hneg]; [assumption|].
    unfold loan_at in Hst. rewrite Hf in Hst by lia. discriminate. }
  split.
  - lia.
  - intros j Hj. rewrite E, lookup_insert_ne by lia. apply Hf. lia.
  - intros j Hj. destruct (decide (j = i)) as [->|Hne].
    + rewrite Hi'. destruct (Hl i) as [Ha Hfu Hs Hp Hnd Hnn Hout Hsum Hr Hd]; [lia|].
      split; simpl; auto.
      split; [discriminate|]. intros Hlt. apply Hp in Hlt. congruence.
    + rewrite Ho by assumption. apply Hl. lia.
Qed.

Lemma loan_exec_inv env c st st' acts :
  state_inv st -> exec env c st = Ok (st', acts) -> state_inv st'.
Proof.
  intros Hinv H. destruct c as [a r d p|i|i]; simpl in H.
  - apply bind_Ok in H as ([[s1 i1] a1] & E & H). injection H as <- <-.
    eapply createLoan_inv; eauto.
  - eapply fundLoan_inv; eauto.
  - eapply repayLoan_inv; eauto.
Qed.

Lemma loan_reachable_inv st : reachable st -> state_inv st.
Proof.
  induction 1 as [|env c st st' acts _ IH _ H]; [apply loan_initial_inv|].
  eapply loan_exec_inv; eauto.
Qed.

Lemma valid_nonneg st i :
  state_inv st -> _loans st !! i <> None -> 0 <= i < _loanCounter st.
Proof.
  intros [_ Hf _] Hi. destruct (decide (0 <= i < _loanCounter st)); [assumption|].
  exfalso. auto.
Qed.

Lemma active_valid st i :
  state_inv st -> status (loan_at st i) = Active -> 0 <= i < _loanCounter st.
Proof.
  intros Hinv Hst. apply valid_nonneg; [assumption|].
  intros Hn. unfold loan_at in Hst. rewrite Hn in Hst. discriminate.
Qed.

Lemma loan_reachable_transact env c st :
  reachable st -> wf_msg env -> reachable (transact env c st).
Proof.
  intros Hr Hw. unfold transact. destruct (exec env c st) as [[st' acts]|f] eqn:E.
  - eapply reach_step; eauto.
  - assumption.
Qed.


Lemma reachable_requested : reachable LoanScenario.requested.
Proof. apply loan_reachable_transact; [apply reach_initial | wf]. Qed.

Lemma reachable_partly_funded : reachable LoanScenario.partly_funded.
Proof. apply loan_reachable_transact; [apply reachable_requested | wf]. Qed.

Lemma reachable_funded : reachable LoanScenario.funded.
Proof. apply loan_reachable_transact; [apply reachable_partly_funded | wf]. Qed.

Lemma reachable_yearly : reachable LoanScenario.yearly.
Proof.
  apply loan_reachable_transact; [apply loan_reachable_transact; [apply reach_initial | wf] | wf].
Qed.

(** *** Repayment distribution *)

(** C1, as amended.  When [repayLoan] succeeds on a reachable state, the
    call makes exactly these transfers: each lender, in enumeration order,
    is paid the floor of [contribution * repayment / fundedAmount], then
    the borrower is refunded what was sent above the repayment, if
    anything; nothing else is paid.  The payouts to the lenders sum to at
    most [calculateRepaymentAmount] and fall short of it by less than the
    number of lenders; the shortfall stays in the contract; and the sum is
    exact if and only if [fundedAmount] divides every
    [contribution * repayment]. *)
Theorem repayLoan_payouts_floor env i st st' acts (l := loan_at st i) :
  reachable st -> repayLoan env i st = Ok (st', acts) ->
  exists R,
    calculateRepaymentAmount i st = Ok R /\
    let paid := map (fun a => (a, mget (lenderContributions l) a * R / fundedAmount l))
                    (lenders l) in
    acts = map pay paid
           ++ (if R <? value env then [Transfer (sender env) (value env - R)] else [])
           ++ [Emit (LoanRepaid i (sender env) R)] /\
    total paid <= R /\
    R < total paid + Z.of_nat (length (lenders l)) /\
    balance st' = balance st + (R - total paid) /\
    (total paid = R <->
     forall a, a ∈ lenders l ->
       (mget (lenderContributions l) a * R) mod fundedAmount l = 0).
Proof.
  intros Hreach H. apply loan_reachable_inv in Hreach as Hinv.
  apply repayLoan_Ok in H
    as (R & paid & refund & HR & Hi & _ & Hst & _ & _ & Hpaid & Hrefund & Hacts & Hbal & _).
  fold l in Hpaid. exists R. cbv zeta. rewrite <- Hpaid, <- Hrefund.
  pose proof (active_valid _ _ Hinv Hst) as Hv.
  pose proof (inv_loans _ Hinv i Hv) as Hl. fold l in Hl, Hst.
  destruct Hl as [Ha Hf Hs Hp Hnd Hnn Hout Hsum Hr Hd].
  assert (HF : fundedAmount l = amount l).
  { destruct (Z.lt_ge_cases (fundedAmount l) (amount l)) as [Hlt|]; [|lia].
    apply Hp in Hlt. congruence. }
  pose proof MIN_LOAN_AMOUNT_pos as Hmin.
  assert (HFpos : 0 < fundedAmount l) by lia.
  pose proof (floor_split_bounds (lenderContributions l) R (fundedAmount l)
                (lenders l) HFpos) as [Hup Hlow].
  rewrite <- Hpaid in Hup, Hlow. unfold contributed in Hsum. rewrite Hsum in Hup, Hlow.
  assert (Hlen : 0 < Z.of_nat (length (lenders l))).
  { destruct (lenders l); simpl in *; lia. }
  split; [assumption|]. split; [assumption|]. split; [nia|]. split; [nia|].
  split; [lia|]. split.
  - intros Hex.
    apply (floor_split_exact_inv (lenderContributions l) R (fundedAmount l)
             (lenders l) HFpos).
    rewrite <- Hpaid, Hsum, Hex. lia.
  - intros Hdiv.
    pose proof (floor_split_exact (lenderContributions l) R (fundedAmount l)
                  (lenders l) HFpos Hdiv) as Hex.
    rewrite <- Hpaid, Hsum in Hex. nia.
Qed.

Lemma repayLoan_payouts_floor_witness :
  let l := loan_at LoanScenario.funded 0 in
  let env := call LoanScenario.alice LoanScenario.due 2000 in
  exists R,
    calculateRepaymentAmount 0 LoanScenario.funded = Ok R /\
    let paid := map (fun a => (a, mget (lenderContributions l) a * R / fundedAmount l))
                    (lenders l) in
    [Transfer LoanScenario.bob 1; Transfer LoanScenario.carol 10000410958904107;
     Emit (LoanRepaid 0 LoanScenario.alice LoanScenario.due)] =
      map pay paid
      ++ (if R <? value env then [Transfer (sender env) (value env - R)] else [])
      ++ [Emit (LoanRepaid 0 (sender env) R)] /\
    total paid <= R /\
    R < total paid + Z.of_nat (length (lenders l)) /\
    balance LoanScenario.repaid = balance LoanScenario.funded + (R - total paid) /\
    (total paid = R <->
     forall a, a ∈ lenders l ->
       (mget (lenderContributions l) a * R) mod fundedAmount l = 0).
Proof.
  apply (repayLoan_payouts_floor
           (call LoanScenario.alice LoanScenario.due 2000) 0
           LoanScenario.funded LoanScenario.repaid).
  - apply reachable_funded.
  - vm_compute. reflexivity.
Defined.

(** C1, as stated, fails: with contributions of 1 wei and 0.01 ether - 1 wei
    the two payouts are 1 and 10000410958904107, one wei less than the
    required repayment 10000410958904109. *)
Lemma repayLoan_payouts_lose_a_wei :
  reachable LoanScenario.funded /\
  status (loan_at LoanScenario.funded 0) = Active /\
  calculateRepaymentAmount 0 LoanScenario.funded = Ok LoanScenario.due /\
  repayLoan (call LoanScenario.alice LoanScenario.due 2000) 0
            LoanScenario.funded =
    Ok (LoanScenario.repaid,
        map pay [(LoanScenario.bob, 1); (LoanScenario.carol, 10000410958904107)]
        ++ [Emit (LoanRepaid 0 LoanScenario.alice LoanScenario.due)]) /\
  total [(LoanScenario.bob, 1); (LoanScenario.carol, 10000410958904107)]
    <> LoanScenario.due.
Proof.
  split; [apply reachable_funded|].
  repeat split; try (vm_compute; reflexivity). vm_compute. discriminate.
Qed.

(** *** Funding and the order of statuses *)

(** How one successful call changes a loan that already exists: not at
    all, by a funding that stays within the requested amount, or by the
    repayment of an active loan. *)
Lemma exec_loan_step env c st st' acts i (l := loan_at st i) (l' := loan_at st' i) :
  state_inv st -> exec env c st = Ok (st', acts) -> 0 <= i < _loanCounter st ->
  _loanCounter st <= _loanCounter st' /\
  (l' = l \/
   (status l = Pending /\ amount l' = amount l /\
    fundedAmount l < fundedAmount l' <= amount l /\
    status l' = (if amount l <=? fundedAmount l' then Active else Pending)) \/
   (status l = Active /\ amount l' = amount l /\
    fundedAmount l' = fundedAmount l /\ status l' = Repaid)).
Proof.
  intros Hinv H Hi. subst l l'. destruct c as [a r d p|j|j]; simpl in H.
  - apply bind_Ok in H as ([[s1 i1] a1] & E & H). injection H as <- <-.
    apply createLoan_Ok in E as (-> & _ & _ & _ & _ & Hc & _ & E).
    apply loan_at_updated in E as [_ Ho].
    split; [lia|]. left. apply Ho. lia.
  - apply fundLoan_Ok in H as (_ & Hst & Hv & Hle & Hc & _ & _ & E).
    apply loan_at_updated in E as [He Ho]. split; [lia|].
    destruct (decide (i = j)) as [->|Hne]; [|left; auto].
    right. left. rewrite He. simpl. repeat split; auto; lia.
  - apply repayLoan_Ok in H
      as (R & paid & refund & _ & _ & _ & Hst & _ & _ & _ & _ & _ & _ & Hc & E).
    apply loan_at_updated in E as [He Ho]. split; [lia|].
    destruct (decide (i = j)) as [->|Hne]; [|left; auto].
    right. right. rewrite He. simpl. auto.
Qed.

Lemma fundLoan_overshoot env i st (l := loan_at st i) :
  state_inv st -> 0 <= i < _loanCounter st ->
  amount l - fundedAmount l < value env ->
  fundLoan env i st =
    Fail (Revert (if status_eqb (status l) Pending
                  then "Funding amount exceeds remaining loan amount"
                  else "Loan is not available for funding")).
Proof.
  intros Hinv Hi Hover. destruct (inv_loans _ Hinv i Hi) as [_ Hf _ _ _ _ _ _ _ _].
  fold l in Hf. unfold fundLoan, onlyValidLoan.
  destruct (Z.ltb_spec i (_loanCounter st)); [|lia]. simpl. fold l.
  destruct (status_eqb (status l) Pending); [|reflexivity]. simpl.
  destruct (Z.ltb_spec 0 (value env)); [|lia]. simpl.
  unfold checked_sub. destruct (Z.leb_spec (fundedAmount l) (amount l)); [|lia]. simpl.
  destruct (Z.leb_spec (value env) (amount l - fundedAmount l)); [lia|]. reflexivity.
Qed.

(** C2.  On every reachable state, for every existing loan:
    [fundedAmount] never exceeds [amount]; the loan is [Pending] exactly
    while it is not fully funded; a contribution above the remaining
    capacity is rejected; and over every successful call the loan moves
    from [Pending] to [Active] exactly when that call brings [fundedAmount]
    up to [amount], and its status only moves forward: out of [Pending]
    never back into it, out of [Active] only to [Repaid] or [Defaulted]. *)
Theorem loan_funding_bound_and_status_order st i (l := loan_at st i) :
  reachable st -> 0 <= i < _loanCounter st ->
  fundedAmount l <= amount l /\
  (status l = Pending <-> fundedAmount l < amount l) /\
  (forall env, amount l - fundedAmount l < value env ->
     exists reason, fundLoan env i st = Fail (Revert reason)) /\
  forall env c st' acts, exec env c st = Ok (st', acts) ->
    let l' := loan_at st' i in
    fundedAmount l' <= amount l' /\
    (status l' = Pending <-> fundedAmount l' < amount l') /\
    (status l = Pending /\ status l' = Active <->
     fundedAmount l < amount l /\ fundedAmount l' = amount l') /\
    may_follow (status l) (status l') /\
    (status l <> Pending -> status l' <> Pending).
Proof.
  intros Hreach Hi. apply loan_reachable_inv in Hreach as Hinv.
  destruct (inv_loans _ Hinv i Hi) as [Ha Hf Hs Hp _ _ _ _ _ _].
  fold l in Ha, Hf, Hs, Hp.
  split; [lia|]. split; [exact Hp|]. split.
  { intros env Hover. eexists. apply fundLoan_overshoot; assumption. }
  intros env c st' acts H l'.
  pose proof (loan_exec_inv _ _ _ _ _ Hinv H) as Hinv'.
  destruct (exec_loan_step env c st st' acts i Hinv H Hi) as [Hc Hstep].
  fold l l' in Hstep.
  destruct (inv_loans _ Hinv' i ltac:(lia)) as [Ha' Hf' Hs' Hp' _ _ _ _ _ _].
  fold l' in Ha', Hf', Hs', Hp'.
  split; [lia|]. split; [exact Hp'|]. split; [|split].
  - destruct Hstep as [E|[(Hst & Ham & Hfu & Hst')|(Hst & Ham & Hfu & Hst')]].
    + rewrite E. split.
      * intros [E1 E2]. congruence.
      * intros [E1 E2]. lia.
    + split.
      * intros [_ Hact]. split; [apply Hp; assumption|].
        destruct (Z.lt_ge_cases (fundedAmount l') (amount l')) as [Hlt|]; [|lia].
        apply Hp' in Hlt. congruence.
      * intros [Hlt Heq]. split; [assumption|].
        rewrite Hst'. destruct (Z.leb_spec (amount l) (fundedAmount l')); [reflexivity|lia].
    + split.
      * intros [E1 _]. congruence.
      * intros [Hlt _]. apply Hp in Hlt. congruence.
  - destruct Hstep as [E|[(Hst & Ham & Hfu & Hst')|(Hst & Ham & Hfu & Hst')]].
    + rewrite E. unfold may_follow. destruct (status l); auto.
    + rewrite Hst, Hst'. simpl. destruct (amount l <=? fundedAmount l'); auto.
    + rewrite Hst, Hst'. simpl. auto.
  - intros Hnp Hpend. apply Hp' in Hpend.
    destruct Hstep as [E|[(Hst & Ham & Hfu & Hst')|(Hst & Ham & Hfu & Hst')]].
    + rewrite E in Hpend. apply Hp in Hpend. contradiction.
    + contradiction.
    + apply Hnp, Hp. lia.
Qed.

Lemma loan_funding_bound_and_status_order_witness :
  let l := loan_at LoanScenario.partly_funded 0 in
  fundedAmount l <= amount l /\
  (status l = Pending <-> fundedAmount l < amount l) /\
  (forall env, amount l - fundedAmount l < value env ->
     exists reason, fundLoan env 0 LoanScenario.partly_funded = Fail (Revert reason)) /\
  forall env c st' acts, exec env c LoanScenario.partly_funded = Ok (st', acts) ->
    let l' := loan_at st' 0 in
    fundedAmount l' <= amount l' /\
    (status l' = Pending <-> fundedAmount l' < amount l') /\
    (status l = Pending /\ status l' = Active <->
     fundedAmount l < amount l /\ fundedAmount l' = amount l') /\
    may_follow (status l) (status l') /\
    (status l <> Pending -> status l' <> Pending).
Proof.
  apply (loan_funding_bound_and_status_order LoanScenario.partly_funded 0).
  - apply reachable_partly_funded.
  - split; [apply Z.leb_le | apply Z.ltb_lt]; vm_compute; reflexivity.
Defined.

(** The first scenario of the specification, in wei: two lenders fill the
    loan, which becomes active at the second contribution and not before. *)
Example funding_reaches_active :
  status (loan_at LoanScenario.partly_funded 0) = Pending /\
  status (loan_at LoanScenario.funded 0) = Active /\
  fundedAmount (loan_at LoanScenario.funded 0) = amount (loan_at LoanScenario.funded 0) /\
  lenders (loan_at LoanScenario.funded 0) = [LoanScenario.bob; LoanScenario.carol] /\
  fundLoan (call LoanScenario.bob 1 1003) 0 LoanScenario.funded =
    Fail (Revert "Loan is not available for funding") /\
  status (loan_at LoanScenario.repaid 0) = Repaid.
Proof. repeat split; vm_compute; reflexivity. Qed.

(** *** The lender list and the contribution ledger *)

(** C3.  On every reachable state and for every existing loan, the lender
    list has no duplicates, the recorded contributions of the listed
    lenders sum to [fundedAmount], and nobody outside the list has a
    contribution; a successful [fundLoan] by a listed lender leaves the
    list as it is and adds the amount to that lender's entry, one by a new
    lender appends that lender once, and nobody else's entry changes. *)
Theorem lenders_distinct_and_contributions_sum st i (l := loan_at st i) :
  reachable st -> 0 <= i < _loanCounter st ->
  NoDup (lenders l) /\
  contributed l (lenders l) = fundedAmount l /\
  (forall a, a ∉ lenders l -> getLenderContribution i a st = Ok 0) /\
  forall env st' acts, fundLoan env i st = Ok (st', acts) ->
    let l' := loan_at st' i in
    (sender env ∈ lenders l -> lenders l' = lenders l) /\
    (sender env ∉ lenders l -> lenders l' = lenders l ++ [sender env]) /\
    NoDup (lenders l') /\
    contributed l' (lenders l') = fundedAmount l' /\
    getLenderContribution i (sender env) st' =
      Ok (mget (lenderContributions l) (sender env) + value env) /\
    (forall a, a <> sender env ->
       getLenderContribution i a st' = getLenderContribution i a st).
Proof.
  intros Hreach Hi. apply loan_reachable_inv in Hreach as Hinv.
  destruct (inv_loans _ Hinv i Hi) as [_ _ _ _ Hnd _ Hout Hsum _ _].
  fold l in Hnd, Hout, Hsum.
  assert (Hvalid : forall s, _loanCounter s = _loanCounter st ->
                     onlyValidLoan i s = Ok tt).
  { intros s Hs. unfold onlyValidLoan. rewrite Hs.
    destruct (Z.ltb_spec i (_loanCounter st)); [reflexivity | lia]. }
  split; [exact Hnd|]. split; [exact Hsum|]. split.
  - intros a Ha. unfold getLenderContribution. rewrite Hvalid by reflexivity.
    simpl. fold l. rewrite Hout by assumption. reflexivity.
  - intros env st' acts H l'.
    pose proof (fundLoan_inv _ _ _ _ _ Hinv H) as Hinv'.
    apply fundLoan_Ok in H as (_ & _ & _ & _ & Hc & _ & _ & E).
    apply loan_at_updated in E as [He _]. fold l in He. fold l' in He.
    destruct (inv_loans _ Hinv' i ltac:(lia)) as [_ _ _ _ Hnd' _ _ Hsum' _ _].
    fold l' in Hnd', Hsum'.
    split; [|split; [|split; [exact Hnd'|split; [exact Hsum'|split]]]].
    + intros Hin. apply scan_elem in Hin. rewrite He. simpl. rewrite Hin. reflexivity.
    + intros Hnin. apply scan_not_elem in Hnin. rewrite He. simpl. rewrite Hnin.
      reflexivity.
    + unfold getLenderContribution. rewrite (Hvalid st' Hc). simpl. fold l'.
      rewrite He. simpl. rewrite mget_insert_eq. reflexivity.
    + intros a Hne. unfold getLenderContribution.
      rewrite (Hvalid st' Hc), (Hvalid st eq_refl). simpl. fold l l'.
      rewrite He. simpl. rewrite mget_insert_ne by congruence. reflexivity.
Qed.

Lemma lenders_distinct_and_contributions_sum_witness :
  let l := loan_at LoanScenario.partly_funded 0 in
  NoDup (lenders l) /\
  contributed l (lenders l) = fundedAmount l /\
  (forall a, a ∉ lenders l ->
     getLenderContribution 0 a LoanScenario.partly_funded = Ok 0) /\
  forall env st' acts, fundLoan env 0 LoanScenario.partly_funded = Ok (st', acts) ->
    let l' := loan_at st' 0 in
    (sender env ∈ lenders l -> lenders l' = lenders l) /\
    (sender env ∉ lenders l -> lenders l' = lenders l ++ [sender env]) /\
    NoDup (lenders l') /\
    contributed l' (lenders l') = fundedAmount l' /\
    getLenderContribution 0 (sender env) st' =
      Ok (mget (lenderContributions l) (sender env) + value env) /\
    (forall a, a <> sender env ->
       getLenderContribution 0 a st' =
       getLenderContribution 0 a LoanScenario.partly_funded).
Proof.
  apply (lenders_distinct_and_contributions_sum LoanScenario.partly_funded 0).
  - apply reachable_partly_funded.
  - split; [apply Z.leb_le | apply Z.ltb_lt]; vm_compute; reflexivity.
Defined.

(** A lender who funds twice is listed once and credited with both amounts. *)
Example repeat_contribution_is_merged :
  let st := transact (call LoanScenario.bob 41 1003) (FundLoan 0)
                     LoanScenario.partly_funded in
  lenders (loan_at st 0) = [LoanScenario.bob] /\
  getLenderContribution 0 LoanScenario.bob st = Ok 42 /\
  fundedAmount (loan_at st 0) = 42.
Proof. vm_compute. auto. Qed.

(** *** The repayment amount *)

(** On an existing loan the computation cannot overflow: the preview
    always returns. *)
Lemma calculateRepaymentAmount_total st i (l := loan_at st i) :
  state_inv st -> 0 <= i < _loanCounter st ->
  calculateRepaymentAmount i st =
    Ok (fundedAmount l +
        fundedAmount l * interestRate l * duration l / (365 * days * 10000)).
Proof.
  intros Hinv Hi. destruct (inv_loans _ Hinv i Hi) as [Ha Hf _ _ _ _ _ _ Hr Hd].
  fold l in Ha, Hf, Hr, Hd.
  unfold calculateRepaymentAmount, onlyValidLoan.
  destruct (Z.ltb_spec i (_loanCounter st)); [|lia]. simpl. fold l.
  unfold MIN_LOAN_AMOUNT, MAX_LOAN_AMOUNT, MIN_INTEREST_RATE, MAX_INTEREST_RATE,
    MIN_DURATION, MAX_DURATION, ether, days in *.
  change (10 ^ 18) with 1000000000000000000 in *.
  assert (Hp1 : 0 <= fundedAmount l * interestRate l <= 100 * 1000000000000000000 * 50) by nia.
  assert (Hp2 : 0 <= fundedAmount l * interestRate l * duration l
               <= 100 * 1000000000000000000 * 50 * (365 * 86400)) by nia.
  assert (Hmax : uint256_max =
    115792089237316195423570985008687907853269984665640564039457584007913129639935)
    by reflexivity.
  unfold checked_mul, checked_add. rewrite Hmax.
  destruct (Z.leb_spec (fundedAmount l * interestRate l)
    115792089237316195423570985008687907853269984665640564039457584007913129639935);
    [|lia]. simpl.
  destruct (Z.leb_spec (fundedAmount l * interestRate l * duration l)
    115792089237316195423570985008687907853269984665640564039457584007913129639935);
    [|lia]. simpl.
  assert (Hp3 : 0 <= fundedAmount l * interestRate l * duration l / (365 * 86400 * 10000)
               <= 100 * 1000000000000000000 * 50 * (365 * 86400)).
  { split; [apply Z.div_pos; lia|].
    apply Z.div_le_upper_bound; [lia|]. nia. }
  destruct (Z.leb_spec (fundedAmount l +
      fundedAmount l * interestRate l * duration l / (365 * 86400 * 10000))
    115792089237316195423570985008687907853269984665640564039457584007913129639935);
    [reflexivity | lia].
Qed.

(** [repayLoan] enforces exactly the amount that [calculateRepaymentAmount]
    previews: a payment below it is rejected as insufficient. *)
Lemma repayLoan_enforces_preview env i st R (l := loan_at st i) :
  calculateRepaymentAmount i st = Ok R ->
  borrower l = sender env -> status l = Active -> value env < R ->
  repayLoan env i st = Fail (Revert "Insufficient repayment amount").
Proof.
  intros HR Hb Hst Hlt. pose proof (calculateRepaymentAmount_Ok _ _ _ HR) as [Hi _].
  unfold repayLoan, onlyValidLoan, onlyBorrower, onlyActiveLoan. fold l.
  destruct (Z.ltb_spec i (_loanCounter st)); [|lia]. simpl.
  rewrite Hb, N.eqb_refl, Hst. simpl. rewrite HR. simpl.
  destruct (Z.leb_spec R (value env)); [lia | reflexivity].
Qed.

(** C4 (the code departs from the claim).  The rate bounds admit 5 to 50,
    read as percent, while the divisor is the basis-point one: a loan of one
    ether at rate 10 for 365 days owes 1.001 ether, that is 0.1 percent of
    interest and not 10 percent, and the rate 1000 that would mean 10
    percent in basis points is refused at creation. *)
Theorem rate_bounds_and_divisor_disagree :
  reachable LoanScenario.yearly /\
  interestRate (loan_at LoanScenario.yearly 0) = 10 /\
  fundedAmount (loan_at LoanScenario.yearly 0) = ether /\
  calculateRepaymentAmount 0 LoanScenario.yearly = Ok (ether + ether / 1000) /\
  ether + ether / 1000 <> ether + ether * 10 / 100 /\
  createLoan (call LoanScenario.alice 0 1000) ether 1000 (365 * days)
             "shop" initial = Fail (Revert "Invalid interest rate").
Proof.
  split; [apply reachable_yearly|].
  repeat split; try (vm_compute; reflexivity). vm_compute. discriminate.
Qed.

(** *** Late repayment *)




(** *** Further properties of the loan manager *)

Import SumFacts.

Lemma loan_ids_valid st i : i ∈ loan_ids st <-> 0 <= i < _loanCounter st.
Proof. unfold loan_ids. rewrite elem_of_seqZ. lia. Qed.

Lemma funded_total_nonneg st : state_inv st -> 0 <= funded_total st.
Proof.
  intros Hinv. apply sum_ids_nonneg. intros i Hi. apply loan_ids_valid in Hi.
  destruct (inv_loans _ Hinv i Hi). lia.
Qed.

(** The payouts of a successful repayment never exceed the amount due. *)
Lemma repayLoan_balance env i st st' acts :
  state_inv st -> repayLoan env i st = Ok (st', acts) ->
  balance st <= balance st' /\ funded_total st' = funded_total st.
Proof.
  intros Hinv H. pose proof H as H0.
  apply repayLoan_Ok in H
    as (R & paid & refund & HR & Hi & _ & Hst & Hpay & _ & Hpaid & _ & _ & Hbal & Hc & E).
  pose proof (active_valid _ _ Hinv Hst) as Hv.
  destruct (inv_loans _ Hinv i Hv) as [Ha Hf Hs Hp Hnd Hnn Hout Hsum Hr Hd].
  set (l := loan_at st i) in *.
  assert (HF : fundedAmount l = amount l).
  { destruct (Z.lt_ge_cases (fundedAmount l) (amount l)) as [Hlt|]; [|lia].
    apply Hp in Hlt. congruence. }
  pose proof MIN_LOAN_AMOUNT_pos as Hmin.
  assert (HFpos : 0 < fundedAmount l) by lia.
  pose proof (floor_split_bounds (lenderContributions l) R (fundedAmount l)
                (lenders l) HFpos) as [Hup _].
  rewrite <- Hpaid in Hup. unfold contributed in Hsum. rewrite Hsum in Hup.
  split; [nia|].
  apply loan_at_updated in E as [He Ho].
  unfold funded_total, loan_ids. rewrite Hc. apply sum_ids_ext.
  intros j _. destruct (decide (j = i)) as [->|Hne].
  - rewrite He. reflexivity.
  - rewrite Ho by assumption. reflexivity.
Qed.

Lemma exec_solvent env c st st' acts :
  state_inv st -> funded_total st <= balance st ->
  exec env c st = Ok (st', acts) -> funded_total st' <= balance st'.
Proof.
  intros Hinv Hsol H. destruct c as [a r d p|i|i]; simpl in H.
  - apply bind_Ok in H as ([[s1 i1] a1] & E & H). injection H as <- <-.
    apply createLoan_Ok in E as (-> & _ & _ & _ & _ & Hc & Hb & E).
    apply loan_at_updated in E as [He Ho].
    pose proof (inv_counter _ Hinv) as Hc0.
    unfold funded_total, loan_ids in *. rewrite Hc, Hb.
    rewrite seqZ_snoc, sum_ids_snoc, He by assumption. simpl.
    rewrite (sum_ids_ext (fun j => fundedAmount (loan_at s1 j))
                         (fun j => fundedAmount (loan_at st j))); [lia|].
    intros j Hj. apply elem_of_seqZ in Hj. rewrite Ho by lia. reflexivity.
  - pose proof H as H0. apply fundLoan_inv in H0; [|assumption].
    apply fundLoan_Ok in H as (Hi & Hst & Hv & Hle & Hc & Hb & _ & E).
    apply loan_at_updated in E as [He Ho].
    assert (Hi0 : 0 <= i < _loanCounter st).
    { apply valid_nonneg; [assumption|]. intros Hn.
      unfold loan_at in Hle. rewrite Hn in Hle. simpl in Hle. lia. }
    unfold funded_total, loan_ids in *. rewrite Hc, Hb.
    rewrite (sum_ids_update (fun j => fundedAmount (loan_at st j))
               (fun j => fundedAmount (loan_at st' j)) _ i (value env)).
    + lia.
    + apply NoDup_seqZ.
    + apply elem_of_seqZ. lia.
    + rewrite He. reflexivity.
    + intros j Hj. rewrite Ho by assumption. reflexivity.
  - apply repayLoan_balance in H as [Hb Hf]; [lia | assumption].
Qed.

Lemma reachable_solvent st : reachable st -> 0 <= funded_total st <= balance st.
Proof.
  intros Hreach. split; [apply funded_total_nonneg, loan_reachable_inv, Hreach|].
  induction Hreach as [|env c st st' acts Hr IH _ H]; [vm_compute; discriminate|].
  eapply exec_solvent; eauto. apply loan_reachable_inv, Hr.
Qed.

(** How a successful call changes an existing loan, in full. *)
Lemma exec_loan_change env c st st' acts i (l := loan_at st i) (l' := loan_at st' i) :
  state_inv st -> 0 <= i < _loanCounter st -> exec env c st = Ok (st', acts) ->
  l' = l \/
  (c = FundLoan i /\ status l = Pending /\ 0 < value env /\
   l' = {| id := id l; borrower := borrower l; amount := amount l;
           fundedAmount := fundedAmount l + value env;
           interestRate := interestRate l; duration := duration l;
           createdAt := createdAt l; dueDate := dueDate l; purpose := purpose l;
           status := if amount l <=? fundedAmount l + value env then Active else Pending;
           lenders := if scan (sender env) (lenders l) then lenders l
                      else lenders l ++ [sender env];
           lenderContributions :=
             <[sender env := mget (lenderContributions l) (sender env) + value env]>
               (lenderContributions l) |}) \/
  (c = RepayLoan i /\ status l = Active /\ timestamp env <= dueDate l /\
   l' = {| id := id l; borrower := borrower l; amount := amount l;
           fundedAmount := fundedAmount l;
           interestRate := interestRate l; duration := duration l;
           createdAt := createdAt l; dueDate := dueDate l; purpose := purpose l;
           status := Repaid; lenders := lenders l;
           lenderContributions := lenderContributions l |}).
Proof.
  intros Hinv Hi H. subst l l'. destruct c as [a r d p|j|j]; simpl in H.
  - apply bind_Ok in H as ([[s1 i1] a1] & E & H). injection H as <- <-.
    apply createLoan_Ok in E as (-> & _ & _ & _ & _ & _ & _ & E).
    apply loan_at_updated in E as [_ Ho]. left. apply Ho. lia.
  - apply fundLoan_Ok in H as (_ & Hst & Hv & _ & _ & _ & _ & E).
    apply loan_at_updated in E as [He Ho].
    destruct (decide (i = j)) as [->|Hne]; [|left; auto].
    right. left. rewrite He. auto.
  - apply repayLoan_Ok in H
      as (R & paid & refund & _ & _ & _ & Hst & _ & Hdue & _ & _ & _ & _ & _ & E).
    apply loan_at_updated in E as [He Ho].
    destruct (decide (i = j)) as [->|Hne]; [|left; auto].
    right. right. rewrite He. auto.
Qed.

Lemma contribution_le_funded l a :
  loan_inv l -> mget (lenderContributions l) a <= fundedAmount l.
Proof.
  intros [_ Hf _ _ Hnd Hnn Hout Hsum _ _].
  destruct (decide (a ∈ lenders l)) as [Hin|Hnin]; [|rewrite Hout by assumption; lia].
  unfold contributed in Hsum. rewrite <- Hsum. clear Hsum Hout Hnd Hf.
  induction (lenders l) as [|b ls IH]; [inversion Hin|]. simpl.
  assert (Hrest : 0 <= sum_over (lenderContributions l) ls).
  { clear IH Hin. induction ls as [|k ks IHk]; simpl; [lia|]. specialize (Hnn k). lia. }
  inversion Hin; subst.
  - lia.
  - specialize (Hnn b). specialize (IH ltac:(assumption)). lia.
Qed.

(** X1.  The principal that lenders put in never leaves the contract: on
    every reachable state the balance covers the sum of [fundedAmount] over
    all loans, repaid ones included, and no call lowers that sum. *)
Theorem funded_principal_stays_in_contract st :
  reachable st ->
  0 <= funded_total st <= balance st /\
  forall env c st' acts, exec env c st = Ok (st', acts) ->
    funded_total st <= funded_total st' <= balance st'.
Proof.
  intros Hreach. pose proof (reachable_solvent _ Hreach) as Hsol.
  apply loan_reachable_inv in Hreach as Hinv.
  split; [exact Hsol|]. intros env c st' acts H.
  split; [|eapply exec_solvent; eauto; lia].
  pose proof (loan_exec_inv _ _ _ _ _ Hinv H) as Hinv'.
  assert (Hc : _loanCounter st <= _loanCounter st').
  { destruct c as [a r d p|j|j]; simpl in H.
    - apply bind_Ok in H as ([[s1 i1] a1] & E & H). injection H as <- <-.
      apply createLoan_Ok in E as (_ & _ & _ & _ & _ & -> & _). lia.
    - apply fundLoan_Ok in H as (_ & _ & _ & _ & -> & _). lia.
    - apply repayLoan_Ok in H
        as (R & paid & refund & _ & _ & _ & _ & _ & _ & _ & _ & _ & _ & -> & _). lia. }
  pose proof (inv_counter _ Hinv) as Hc0.
  unfold funded_total, loan_ids.
  replace (_loanCounter st') with (_loanCounter st + (_loanCounter st' - _loanCounter st))
    by lia.
  rewrite seqZ_app, foldr_app by lia.
  assert (Htail : 0 <= foldr (fun i acc => fundedAmount (loan_at st' i) + acc) 0
                    (seqZ (0 + _loanCounter st) (_loanCounter st' - _loanCounter st))).
  { apply sum_ids_nonneg. intros j Hj. apply elem_of_seqZ in Hj.
    destruct (inv_loans _ Hinv' j ltac:(lia)). lia. }
  revert Htail.
  generalize (foldr (fun i acc => fundedAmount (loan_at st' i) + acc) 0
                (seqZ (0 + _loanCounter st) (_loanCounter st' - _loanCounter st))).
  intros t Ht.
  assert (Hmono : forall l' : list Z, (forall j, j ∈ l' -> 0 <= j < _loanCounter st) ->
    foldr (fun i acc => fundedAmount (loan_at st i) + acc) 0 l' <=
    foldr (fun i acc => fundedAmount (loan_at st' i) + acc) t l').
  { induction l' as [|j l' IH]; intros Hl'; simpl; [lia|].
    assert (Hj : 0 <= j < _loanCounter st) by (apply Hl'; constructor).
    assert (fundedAmount (loan_at st j) <= fundedAmount (loan_at st' j)).
    { destruct (exec_loan_change env c st st' acts j Hinv Hj H)
        as [->|[(_ & _ & Hv & ->)|(_ & _ & _ & ->)]]; simpl; lia. }
    assert (foldr (fun i acc => fundedAmount (loan_at st i) + acc) 0 l' <=
            foldr (fun i acc => fundedAmount (loan_at st' i) + acc) t l'); [|lia].
    apply IH. intros k Hk. apply Hl'. by constructor. }
  apply Hmono. intros j Hj. apply elem_of_seqZ in Hj. lia.
Qed.

Lemma funded_principal_stays_in_contract_witness :
  0 <= funded_total LoanScenario.funded <= balance LoanScenario.funded /\
  forall env c st' acts, exec env c LoanScenario.funded = Ok (st', acts) ->
    funded_total LoanScenario.funded <= funded_total st' <= balance st'.
Proof.
  apply (funded_principal_stays_in_contract LoanScenario.funded).
  apply reachable_funded.
Defined.

Lemma uint256_max_big : 10 ^ 45 <= uint256_max.
Proof. apply Z.leb_le. vm_compute. reflexivity. Qed.

(** Bounds of the amount due on an existing loan. *)
Lemma repayment_bounds l :
  loan_inv l ->
  let R := fundedAmount l +
           fundedAmount l * interestRate l * duration l / (365 * days * 10000) in
  fundedAmount l + fundedAmount l * 3 / 73000 <= R <= fundedAmount l + fundedAmount l / 200.
Proof.
  intros [Ha Hf _ _ _ _ _ _ Hr Hd]. cbv zeta.
  unfold MIN_INTEREST_RATE, MAX_INTEREST_RATE, MIN_DURATION, MAX_DURATION, days in *.
  set (F := fundedAmount l) in *. set (r := interestRate l) in *.
  set (d := duration l) in *.
  assert (H1 : F * 5 <= F * r <= F * 50) by nia.
  assert (H2 : F * 5 * (30 * 86400) <= F * r * d <= F * 50 * (365 * 86400)) by nia.
  change (365 * 86400 * 10000) with 315360000000.
  assert (Hlow : F * 3 / 73000 <= F * r * d / 315360000000).
  { replace (F * 3 / 73000) with ((F * 3 * 4320000) / (73000 * 4320000)).
    - change (73000 * 4320000) with 315360000000.
      apply Z.div_le_mono; lia.
    - rewrite Z.div_mul_cancel_r by lia. reflexivity. }
  assert (Hup : F * r * d / 315360000000 <= F / 200).
  { replace (F / 200) with ((F * 1576800000) / (200 * 1576800000)).
    - change (200 * 1576800000) with 315360000000.
      apply Z.div_le_mono; lia.
    - rewrite Z.div_mul_cancel_r by lia. reflexivity. }
  lia.
Qed.

(** X2.  The amount due on an existing loan never overflows and stays
    within narrow bounds of the principal: whatever the admitted rate
    (5 to 50) and duration (30 to 365 days), the interest lies between
    [floor (3 * fundedAmount / 73000)] and [floor (fundedAmount / 200)],
    that is at most half a percent. *)
Theorem repayment_amount_bounds st i (l := loan_at st i) :
  reachable st -> 0 <= i < _loanCounter st ->
  exists R, calculateRepaymentAmount i st = Ok R /\
    fundedAmount l + fundedAmount l * 3 / 73000 <= R <= fundedAmount l + fundedAmount l / 200.
Proof.
  intros Hreach Hi. apply loan_reachable_inv in Hreach as Hinv.
  eexists. split; [apply calculateRepaymentAmount_total; assumption|].
  apply repayment_bounds. apply (inv_loans _ Hinv i Hi).
Qed.

Lemma repayment_amount_bounds_witness :
  exists R, calculateRepaymentAmount 0 LoanScenario.yearly = Ok R /\
    fundedAmount (loan_at LoanScenario.yearly 0)
      + fundedAmount (loan_at LoanScenario.yearly 0) * 3 / 73000 <= R
    <= fundedAmount (loan_at LoanScenario.yearly 0)
      + fundedAmount (loan_at LoanScenario.yearly 0) / 200.
Proof.
  apply (repayment_amount_bounds LoanScenario.yearly 0).
  - apply reachable_yearly.
  - split; [apply Z.leb_le | apply Z.ltb_lt]; vm_compute; reflexivity.
Defined.

(** X3.  On a reachable state [fundLoan] succeeds exactly when the loan
    exists, is pending, and the attached value is positive and within the
    remaining capacity: no arithmetic check can fail on the way. *)
Theorem fundLoan_succeeds_iff env i st (l := loan_at st i) :
  reachable st ->
  ((exists st' acts, fundLoan env i st = Ok (st', acts)) <->
   0 <= i < _loanCounter st /\ status l = Pending /\
   0 < value env <= amount l - fundedAmount l).
Proof.
  intros Hreach. apply loan_reachable_inv in Hreach as Hinv. split.
  - intros (st' & acts & H).
    apply fundLoan_Ok in H as (Hi & Hst & Hv & Hle & _). fold l in Hst, Hle.
    split; [|split; [assumption | lia]].
    apply valid_nonneg; [assumption|]. intros Hn.
    unfold l, loan_at in Hle. rewrite Hn in Hle. simpl in Hle. lia.
  - intros (Hi & Hst & Hv).
    pose proof (inv_loans _ Hinv i Hi) as Hl. fold l in Hl.
    pose proof (contribution_le_funded l (sender env) Hl) as Hc.
    destruct Hl as [Ha Hf _ _ _ Hnn _ _ _ _].
    pose proof uint256_max_big as Hbig.
    assert (Hmax : amount l <= uint256_max).
    { unfold MAX_LOAN_AMOUNT, ether in Ha.
      assert (100 * 10 ^ 18 <= 10 ^ 45) by (apply Z.leb_le; vm_compute; reflexivity). lia. }
    unfold fundLoan, onlyValidLoan. fold l.
    destruct (Z.ltb_spec i (_loanCounter st)); [|lia]. simpl.
    rewrite Hst. simpl.
    destruct (Z.ltb_spec 0 (value env)); [|lia]. simpl.
    unfold checked_sub. destruct (Z.leb_spec (fundedAmount l) (amount l)); [|lia]. simpl.
    destruct (Z.leb_spec (value env) (amount l - fundedAmount l)); [|lia]. simpl.
    unfold checked_add.
    destruct (Z.leb_spec (fundedAmount l + value env) uint256_max); [|lia]. simpl.
    destruct (Z.leb_spec (mget (lenderContributions l) (sender env) + value env)
                uint256_max); [|lia]. simpl.
    eauto.
Qed.

Lemma fundLoan_succeeds_iff_witness :
  let env := call LoanScenario.carol (ether / 100 - 1) 1002 in
  let l := loan_at LoanScenario.partly_funded 0 in
  ((exists st' acts, fundLoan env 0 LoanScenario.partly_funded = Ok (st', acts)) <->
   0 <= 0 < _loanCounter LoanScenario.partly_funded /\ status l = Pending /\
   0 < value env <= amount l - fundedAmount l).
Proof.
  apply (fundLoan_succeeds_iff (call LoanScenario.carol (ether / 100 - 1) 1002) 0
           LoanScenario.partly_funded).
  apply reachable_partly_funded.
Defined.

(** X4.  The terms of a loan are fixed at creation and its ledger only
    grows: over every successful call the borrower, amount, rate, duration,
    dates and purpose of an existing loan are unchanged, no lender is
    removed from the list (the list is extended at its end), and no
    contribution decreases: the contract has no withdrawal of a
    contribution. *)
Theorem loan_terms_fixed_and_ledger_grows env c st st' acts i
    (l := loan_at st i) (l' := loan_at st' i) :
  reachable st -> 0 <= i < _loanCounter st -> exec env c st = Ok (st', acts) ->
  (id l', borrower l', amount l', interestRate l', duration l', createdAt l',
   dueDate l', purpose l') =
  (id l, borrower l, amount l, interestRate l, duration l, createdAt l,
   dueDate l, purpose l) /\
  lenders l `prefix_of` lenders l' /\
  fundedAmount l <= fundedAmount l' /\
  forall a, mget (lenderContributions l) a <= mget (lenderContributions l') a.
Proof.
  intros Hreach Hi H. apply loan_reachable_inv in Hreach as Hinv.
  destruct (exec_loan_change env c st st' acts i Hinv Hi H)
    as [E|[(_ & _ & Hv & E)|(_ & _ & _ & E)]]; fold l l' in E; rewrite E; simpl.
  - repeat split; try reflexivity; intros; lia.
  - repeat split; try lia.
    + destruct (scan (sender env) (lenders l)); [reflexivity|].
      by apply prefix_app_r.
    + intros a. destruct (decide (sender env = a)) as [<-|Hne].
      * rewrite mget_insert_eq. lia.
      * rewrite mget_insert_ne by assumption. lia.
  - repeat split; try reflexivity; intros; lia.
Qed.

Lemma loan_terms_fixed_and_ledger_grows_witness :
  let l := loan_at LoanScenario.partly_funded 0 in
  let l' := loan_at LoanScenario.funded 0 in
  (id l', borrower l', amount l', interestRate l', duration l', createdAt l',
   dueDate l', purpose l') =
  (id l, borrower l, amount l, interestRate l, duration l, createdAt l,
   dueDate l, purpose l) /\
  lenders l `prefix_of` lenders l' /\
  fundedAmount l <= fundedAmount l' /\
  forall a, mget (lenderContributions l) a <= mget (lenderContributions l') a.
Proof.
  apply (loan_terms_fixed_and_ledger_grows
           (call LoanScenario.carol (ether / 100 - 1) 1002) (FundLoan 0)
           LoanScenario.partly_funded LoanScenario.funded
           [Emit (LoanFunded 0 LoanScenario.carol (ether / 100 - 1))] 0).
  - apply reachable_partly_funded.
  - split; [apply Z.leb_le | apply Z.ltb_lt]; vm_compute; reflexivity.
  - vm_compute. reflexivity.
Defined.

(** X5.  Only three of the five statuses occur: an existing loan is
    [Pending], [Active] or [Repaid], never [Funded] or [Defaulted] (nothing
    in the contract defaults a loan); [isLoanFullyFunded] answers true
    exactly when the loan has left [Pending]; and the views refuse an id
    that was never issued. *)
Theorem statuses_in_use_and_views st i (l := loan_at st i) :
  reachable st ->
  (0 <= i < _loanCounter st ->
     status l <> Funded /\ status l <> Defaulted /\
     isLoanFullyFunded i st = Ok (negb (status_eqb (status l) Pending)) /\
     getLoan i st = Ok l) /\
  (_loanCounter st <= i ->
     isLoanFullyFunded i st = Fail (Revert "Loan does not exist") /\
     getLoan i st = Fail (Revert "Loan does not exist") /\
     calculateRepaymentAmount i st = Fail (Revert "Loan does not exist") /\
     forall a, getLenderContribution i a st = Fail (Revert "Loan does not exist")).
Proof.
  intros Hreach. apply loan_reachable_inv in Hreach as Hinv. split.
  - intros Hi. destruct (inv_loans _ Hinv i Hi) as [_ Hf Hs Hp _ _ _ _ _ _].
    fold l in Hf, Hs, Hp.
    split; [destruct Hs as [->|[->| ->]]; discriminate|].
    split; [destruct Hs as [->|[->| ->]]; discriminate|].
    unfold isLoanFullyFunded, getLoan, onlyValidLoan.
    destruct (Z.ltb_spec i (_loanCounter st)); [|lia]. simpl. fold l.
    split; [|reflexivity]. f_equal.
    destruct (Z.leb_spec (amount l) (fundedAmount l)) as [Hle|Hlt].
    + destruct (status_eqb (status l) Pending) eqn:E; [|reflexivity].
      apply status_eqb_eq, Hp in E. lia.
    + apply Hp in Hlt. rewrite Hlt. reflexivity.
  - intros Hi.
    unfold isLoanFullyFunded, getLoan, calculateRepaymentAmount,
      getLenderContribution, onlyValidLoan.
    destruct (Z.ltb_spec i (_loanCounter st)); [lia|]. simpl. auto.
Qed.

Lemma statuses_in_use_and_views_witness :
  let l := loan_at LoanScenario.funded 0 in
  (0 <= 0 < _loanCounter LoanScenario.funded ->
     status l <> Funded /\ status l <> Defaulted /\
     isLoanFullyFunded 0 LoanScenario.funded
       = Ok (negb (status_eqb (status l) Pending)) /\
     getLoan 0 LoanScenario.funded = Ok l) /\
  (_loanCounter LoanScenario.funded <= 0 ->
     isLoanFullyFunded 0 LoanScenario.funded = Fail (Revert "Loan does not exist") /\
     getLoan 0 LoanScenario.funded = Fail (Revert "Loan does not exist") /\
     calculateRepaymentAmount 0 LoanScenario.funded
       = Fail (Revert "Loan does not exist") /\
     forall a, getLenderContribution 0 a LoanScenario.funded
       = Fail (Revert "Loan does not exist")).
Proof.
  apply (statuses_in_use_and_views LoanScenario.funded 0).
  apply reachable_funded.
Defined.

(** X6.  A fully funded loan that is not repaid by its due date can never
    change again: at any later time every successful call leaves it as it
    is, still [Active], and a repaid loan is final in the same way. *)
Theorem expired_or_repaid_loan_is_frozen env c st st' acts i (l := loan_at st i) :
  reachable st -> 0 <= i < _loanCounter st ->
  (status l = Active /\ dueDate l < timestamp env) \/ status l = Repaid ->
  exec env c st = Ok (st', acts) ->
  loan_at st' i = l.
Proof.
  intros Hreach Hi Hfrozen H. apply loan_reachable_inv in Hreach as Hinv.
  destruct (exec_loan_change env c st st' acts i Hinv Hi H)
    as [E|[(_ & Hst & _ & _)|(_ & Hst & Hdue & _)]]; subst l.
  - exact E.
  - destruct Hfrozen as [[Ha _]|Hr]; congruence.
  - destruct Hfrozen as [[_ Hlate]|Hr]; [lia | congruence].
Qed.

Lemma expired_or_repaid_loan_is_frozen_witness :
  loan_at (transact (call LoanScenario.alice 0 5000000)
             (CreateLoan (ether / 100) 5 (30 * days) "more") LoanScenario.funded) 0
  = loan_at LoanScenario.funded 0.
Proof.
  apply (expired_or_repaid_loan_is_frozen (call LoanScenario.alice 0 5000000)
           (CreateLoan (ether / 100) 5 (30 * days) "more") LoanScenario.funded _
           [Emit (LoanCreated 1 LoanScenario.alice (ether / 100) 5 (30 * days) "more")] 0).
  - apply reachable_funded.
  - split; [apply Z.leb_le | apply Z.ltb_lt]; vm_compute; reflexivity.
  - left. split; [vm_compute; reflexivity | apply Z.ltb_lt; vm_compute; reflexivity].
  - vm_compute. reflexivity.
Defined.

Lemma floors_total_nonneg (m : gmap N Z) R F (ls : list N) :
  0 < F -> 0 <= R -> (forall a, 0 <= mget m a) ->
  0 <= total (map (fun a => (a, mget m a * R / F)) ls).
Proof.
  intros HF HR Hm. induction ls as [|a ls IH]; simpl; [lia|].
  assert (0 <= mget m a * R / F).
  { apply Z.div_pos; [|lia]. specialize (Hm a). nia. }
  fold (total (map (fun a => (a, mget m a * R / F)) ls)). lia.
Qed.

(** The distribution loop goes through when every lender accepts the
    transfer, no product overflows and the balance covers the payouts. *)
Lemma repay_loop_total env loan R (ls : list N) bal
    (paid := map (fun a => (a, mget (lenderContributions loan) a * R / fundedAmount loan)) ls) :
  0 < fundedAmount loan -> 0 <= R ->
  (forall a, 0 <= mget (lenderContributions loan) a) ->
  (forall a, mget (lenderContributions loan) a * R <= uint256_max) ->
  (forall a, a ∈ ls -> accepts env a = true) ->
  total paid <= bal ->
  distribute env loan R ls bal = Ok (bal - total paid, paid).
Proof.
  intros HF HR Hnn Hmul. subst paid. revert bal.
  induction ls as [|a ls IH]; intros bal Hacc Hbal; simpl in *.
  - f_equal. f_equal. lia.
  - fold (total (map (fun a => (a, mget (lenderContributions loan) a * R
                                    / fundedAmount loan)) ls)) in *.
    pose proof (floors_total_nonneg (lenderContributions loan) R (fundedAmount loan)
                  ls HF HR Hnn) as Hrest.
    unfold checked_mul. destruct (Z.leb_spec (mget (lenderContributions loan) a * R)
                                    uint256_max) as [_|Hbad];
      [|specialize (Hmul a); lia]. simpl.
    unfold checked_div. destruct (Z.eqb_spec (fundedAmount loan) 0); [lia|]. simpl.
    unfold transfer. rewrite (Hacc a) by constructor.
    destruct (Z.leb_spec (mget (lenderContributions loan) a * R / fundedAmount loan) bal);
      [|lia]. simpl.
    rewrite IH; [|intros b Hb; apply Hacc; by constructor|lia]. simpl.
    f_equal. f_equal. lia.
Qed.

(** X7.  A timely repayment cannot be blocked: on a reachable state, when
    the borrower of an active loan calls [repayLoan] no later than the due
    date and every lender (and the borrower, for the refund) accepts
    transfers, the call fails only for an insufficient payment.  With at
    least the amount due it succeeds and makes exactly these transfers:
    every lender, in the order of the list, is paid the floor of
    [contribution * due / fundedAmount], and the borrower gets back exactly
    the excess, if any; the loan becomes [Repaid] with nothing else of it
    changed, no other loan is touched, and what the floors leave over,
    less than one unit per lender, stays in the contract. *)
Theorem timely_repayment_succeeds env i st (l := loan_at st i) :
  reachable st -> status l = Active -> borrower l = sender env ->
  timestamp env <= dueDate l ->
  (forall a, a ∈ lenders l -> accepts env a = true) ->
  accepts env (sender env) = true ->
  exists R, calculateRepaymentAmount i st = Ok R /\
    (value env < R ->
       repayLoan env i st = Fail (Revert "Insufficient repayment amount")) /\
    (R <= value env ->
       let paid := map (fun a => (a, mget (lenderContributions l) a * R / fundedAmount l))
                       (lenders l) in
       exists st',
         repayLoan env i st =
           Ok (st', map pay paid
                    ++ (if R <? value env then [Transfer (sender env) (value env - R)]
                        else [])
                    ++ [Emit (LoanRepaid i (sender env) R)]) /\
         loan_at st' i = {|
           id := id l; borrower := borrower l; amount := amount l;
           fundedAmount := fundedAmount l;
           interestRate := interestRate l; duration := duration l;
           createdAt := createdAt l; dueDate := dueDate l; purpose := purpose l;
           status := Repaid; lenders := lenders l;
           lenderContributions := lenderContributions l |} /\
         (forall j, j <> i -> loan_at st' j = loan_at st j) /\
         balance st' = balance st + (R - total paid) /\
         0 <= R - total paid < Z.of_nat (length (lenders l))).
Proof.
  intros Hreach Hst Hb Hdue Hacc Hself.
  apply loan_reachable_inv in Hreach as Hinv.
  pose proof (reachable_solvent _ Hreach) as Hsol.
  pose proof (active_valid _ _ Hinv Hst) as Hi.
  pose proof (calculateRepaymentAmount_total st i Hinv Hi) as HR. fold l in HR.
  pose proof (inv_loans _ Hinv i Hi) as Hl. fold l in Hl.
  pose proof (repayment_bounds l Hl) as HRb. cbv zeta in HRb.
  set (R := fundedAmount l +
            fundedAmount l * interestRate l * duration l / (365 * days * 10000)) in *.
  clearbody R.
  assert (HR0 : 0 <= fundedAmount l * 3 / 73000).
  { apply Z.div_pos; [|lia]. destruct Hl. lia. }
  exists R. split; [exact HR|]. split.
  { intros Hlt. apply repayLoan_enforces_preview with (R := R); assumption. }
  intros Hpay.
  assert (Hcle : forall a, mget (lenderContributions l) a <= fundedAmount l)
    by (intros a; apply contribution_le_funded; assumption).
  destruct Hl as [Ha Hf _ Hp _ Hnn _ Hsum _ _].
  assert (HF : fundedAmount l = amount l).
  { destruct (Z.lt_ge_cases (fundedAmount l) (amount l)) as [Hlt|]; [|lia].
    apply Hp in Hlt. congruence. }
  pose proof MIN_LOAN_AMOUNT_pos as Hmin.
  assert (HFpos : 0 < fundedAmount l) by lia.
  assert (Hdiv : 0 <= fundedAmount l / 200) by (apply Z.div_pos; lia).
  assert (Hdiv' : fundedAmount l / 200 <= fundedAmount l)
    by (apply Z.div_le_upper_bound; lia).
  assert (Hcap : fundedAmount l <= 100000000000000000000).
  { unfold MAX_LOAN_AMOUNT, ether in Ha.
    change (10 ^ 18) with 1000000000000000000 in Ha. lia. }
  assert (Hmul : forall a, mget (lenderContributions l) a * R <= uint256_max).
  { intros a. specialize (Hcle a). specialize (Hnn a).
    assert (mget (lenderContributions l) a * R
            <= 100000000000000000000 * 200000000000000000000).
    { apply Z.mul_le_mono_nonneg; lia. }
    assert (100000000000000000000 * 200000000000000000000 <= uint256_max)
      by (apply Z.leb_le; vm_compute; reflexivity).
    lia. }
  pose proof (floor_split_bounds (lenderContributions l) R (fundedAmount l)
                (lenders l) HFpos) as [Hup Hlow].
  unfold contributed in Hsum. rewrite Hsum in Hup, Hlow.
  assert (Hlen : 0 < Z.of_nat (length (lenders l))).
  { destruct (lenders l); simpl in *; lia. }
  set (paid := map (fun a => (a, mget (lenderContributions l) a * R / fundedAmount l))
                   (lenders l)) in *.
  assert (Hpaid : total paid <= R) by nia.
  assert (Hshort : R - total paid < Z.of_nat (length (lenders l))) by nia.
  assert (Hloop : distribute env l R (lenders l) (balance st + value env) =
                  Ok (balance st + value env - total paid, paid)).
  { pose proof (repay_loop_total env l R (lenders l) (balance st + value env)) as Hx.
    cbv zeta in Hx. fold paid in Hx. apply Hx; try assumption; lia. }
  unfold repayLoan, onlyValidLoan, onlyBorrower, onlyActiveLoan. fold l.
  destruct (Z.ltb_spec i (_loanCounter st)); [|lia]. simpl.
  rewrite Hb, N.eqb_refl, Hst. simpl. rewrite HR. simpl.
  destruct (Z.leb_spec R (value env)); [|lia]. simpl.
  destruct (Z.leb_spec (timestamp env) (dueDate l)); [|lia]. simpl.
  rewrite Hloop. simpl.
  destruct (Z.ltb_spec R (value env)) as [Hex|Hexact].
  - unfold checked_sub. destruct (Z.leb_spec R (value env)); [|lia]. simpl.
    unfold transfer. rewrite Hself.
    destruct (Z.leb_spec (value env - R) (balance st + value env - total paid));
      [|lia]. simpl.
    eexists. split; [reflexivity|].
    split; [unfold loan_at; simpl; rewrite lookup_insert_eq; reflexivity|].
    split; [intros j Hj; unfold loan_at; simpl; rewrite lookup_insert_ne by auto;
            reflexivity|].
    simpl. lia.
  - simpl. eexists. split; [reflexivity|].
    split; [unfold loan_at; simpl; rewrite lookup_insert_eq; reflexivity|].
    split; [intros j Hj; unfold loan_at; simpl; rewrite lookup_insert_ne by auto;
            reflexivity|].
    simpl. lia.
Qed.

Lemma timely_repayment_succeeds_witness :
  let env := call LoanScenario.alice (LoanScenario.due + 5) 2000 in
  let l := loan_at LoanScenario.funded 0 in
  exists R, calculateRepaymentAmount 0 LoanScenario.funded = Ok R /\
    (value env < R ->
       repayLoan env 0 LoanScenario.funded
         = Fail (Revert "Insufficient repayment amount")) /\
    (R <= value env ->
       let paid := map (fun a => (a, mget (lenderContributions l) a * R / fundedAmount l))
                       (lenders l) in
       exists st',
         repayLoan env 0 LoanScenario.funded =
           Ok (st', map pay paid
                    ++ (if R <? value env then [Transfer (sender env) (value env - R)]
                        else [])
                    ++ [Emit (LoanRepaid 0 (sender env) R)]) /\
         loan_at st' 0 = {|
           id := id l; borrower := borrower l; amount := amount l;
           fundedAmount := fundedAmount l;
           interestRate := interestRate l; duration := duration l;
           createdAt := createdAt l; dueDate := dueDate l; purpose := purpose l;
           status := Repaid; lenders := lenders l;
           lenderContributions := lenderContributions l |} /\
         (forall j, j <> 0 -> loan_at st' j = loan_at LoanScenario.funded j) /\
         balance st' = balance LoanScenario.funded + (R - total paid) /\
         0 <= R - total paid < Z.of_nat (length (lenders l))).
Proof.
  apply (timely_repayment_succeeds
           (call LoanScenario.alice (LoanScenario.due + 5) 2000) 0 LoanScenario.funded).
  - apply reachable_funded.
  - vm_compute. reflexivity.
  - vm_compute. reflexivity.
  - apply Z.leb_le. vm_compute. reflexivity.
  - intros a _. reflexivity.
  - reflexivity.
Defined.

(** *** The per-address indexes *)

Lemma push_id_lookup who j (m : gmap N (list Z)) a :
  default [] (push_id who j m !! a) =
  if decide (who = a) then default [] (m !! who) ++ [j] else default [] (m !! a).
Proof.
  unfold push_id. destruct (decide (who = a)) as [->|Hne].
  - by rewrite lookup_insert_eq.
  - by rewrite lookup_insert_ne.
Qed.

Lemma createLoan_index env a r d p st st' i acts :
  createLoan env a r d p st = Ok (st', i, acts) ->
  _lenderLoans st' = _lenderLoans st /\
  _borrowerLoans st' = push_id (sender env) i (_borrowerLoans st).
Proof.
  unfold createLoan. intros H.
  apply bind_Ok in H as (? & _ & H). apply bind_Ok in H as (? & _ & H).
  apply bind_Ok in H as (? & _ & H). apply bind_Ok in H as (? & _ & H).
  apply bind_Ok in H as (? & _ & H). apply bind_Ok in H as (c' & _ & H).
  apply bind_Ok in H as (due & _ & H). injection H as <- <- <-. auto.
Qed.

Lemma fundLoan_index env i st st' acts :
  fundLoan env i st = Ok (st', acts) ->
  _borrowerLoans st' = _borrowerLoans st /\
  _lenderLoans st' =
    (if scan (sender env) (lenders (loan_at st i)) then _lenderLoans st
     else push_id (sender env) i (_lenderLoans st)).
Proof.
  unfold fundLoan. intros H.
  apply bind_Ok in H as (? & _ & H). apply bind_Ok in H as (? & _ & H).
  apply bind_Ok in H as (? & _ & H). apply bind_Ok in H as (? & _ & H).
  apply bind_Ok in H as (? & _ & H). apply bind_Ok in H as (? & _ & H).
  apply bind_Ok in H as (? & _ & H). injection H as <- <-. auto.
Qed.

Lemma repayLoan_index env i st st' acts :
  repayLoan env i st = Ok (st', acts) ->
  _borrowerLoans st' = _borrowerLoans st /\ _lenderLoans st' = _lenderLoans st.
Proof.
  unfold repayLoan. intros H.
  apply bind_Ok in H as (? & _ & H). apply bind_Ok in H as (? & _ & H).
  apply bind_Ok in H as (? & _ & H). apply bind_Ok in H as (? & _ & H).
  apply bind_Ok in H as (? & _ & H). apply bind_Ok in H as (? & _ & H).
  apply bind_Ok in H as ([b pd] & _ & H).
  apply bind_Ok in H as ([b' rf] & _ & H). injection H as <- <-. auto.
Qed.

Lemma initial_index : index_inv initial.
Proof.
  split; unfold getLenderLoans, getBorrowerLoans; simpl; intros;
    rewrite ?lookup_empty; simpl; try constructor.
  - intros Hj. inversion Hj.
  - intros [Hj _]. lia.
  - intros Hj. inversion Hj.
  - intros [Hj _]. lia.
Qed.

Lemma exec_index env c st st' acts :
  state_inv st -> index_inv st -> exec env c st = Ok (st', acts) -> index_inv st'.
Proof.
  intros Hinv [HL HLn HB HBn] H. destruct c as [a r d p|i|i]; simpl in H.
  - apply bind_Ok in H as ([[s1 i1] a1] & E & H). injection H as <- <-.
    pose proof (createLoan_index _ _ _ _ _ _ _ _ _ E) as [EL EB].
    apply createLoan_Ok in E as (-> & _ & _ & _ & _ & Hc & _ & E).
    apply loan_at_updated in E as [He Ho].
    assert (Hslot : loan_at st (_loanCounter st) = empty_loan).
    { unfold loan_at. rewrite (inv_fresh _ Hinv) by lia. reflexivity. }
    rewrite Hslot in He. simpl in He.
    split; unfold getLenderLoans, getBorrowerLoans in *; rewrite ?EL, ?EB, ?Hc.
    + intros b j. rewrite HL. destruct (decide (j = _loanCounter st)) as [->|Hne].
      * rewrite He. simpl. split; [lia|]. intros [_ Hin]. inversion Hin.
      * rewrite Ho by assumption. split; intros [? ?]; split; auto; lia.
    + exact HLn.
    + intros b j. rewrite push_id_lookup.
      destruct (decide (sender env = b)) as [<-|Hsb].
      * rewrite elem_of_app, list_elem_of_singleton, HB.
        destruct (decide (j = _loanCounter st)) as [->|Hne].
        -- rewrite He. simpl. split; [intros _; split; [|reflexivity]|auto].
           pose proof (inv_counter _ Hinv). lia.
        -- rewrite Ho by assumption. split.
           ++ intros [[? ?]|?]; [split; auto; lia | contradiction].
           ++ intros [? ?]. left. split; auto; lia.
      * rewrite HB. destruct (decide (j = _loanCounter st)) as [->|Hne].
        -- rewrite He. simpl. split; [lia|]. intros [_ Hs]. contradiction.
        -- rewrite Ho by assumption. split; intros [? ?]; split; auto; lia.
    + intros b. rewrite push_id_lookup.
      destruct (decide (sender env = b)) as [<-|Hsb]; [|apply HBn].
      apply NoDup_app. split; [apply HBn|]. split; [|apply NoDup_singleton].
      intros x Hx Hx'. apply list_elem_of_singleton in Hx'. subst x.
      apply HB in Hx as [Hx _]. lia.
  - pose proof (fundLoan_index _ _ _ _ _ H) as [EB EL].
    apply fundLoan_Ok in H as (Hi & Hst & Hv & Hle & Hc & _ & _ & E).
    apply loan_at_updated in E as [He Ho].
    assert (Hi0 : 0 <= i < _loanCounter st).
    { apply valid_nonneg; [assumption|]. intros Hn.
      unfold loan_at in Hle. rewrite Hn in Hle. simpl in Hle. lia. }
    set (l := loan_at st i) in *. set (s := sender env) in *.
    split; unfold getLenderLoans, getBorrowerLoans in *; rewrite ?EL, ?EB, ?Hc.
    + intros b j. destruct (scan s (lenders l)) eqn:Hscan.
      * rewrite HL. destruct (decide (j = i)) as [->|Hne].
        -- rewrite He. simpl. reflexivity.
        -- rewrite Ho by assumption. reflexivity.
      * apply scan_not_elem in Hscan. rewrite push_id_lookup.
        destruct (decide (s = b)) as [<-|Hsb].
        -- rewrite elem_of_app, list_elem_of_singleton, HL.
           destruct (decide (j = i)) as [->|Hne].
           ++ rewrite He. simpl. split; [intros _|auto].
              split; [assumption|]. apply elem_of_app. right. constructor.
           ++ rewrite Ho by assumption. split; [intros [?|?]; [auto|contradiction]|auto].
        -- rewrite HL. destruct (decide (j = i)) as [->|Hne].
           ++ rewrite He. simpl. fold l. rewrite elem_of_app, list_elem_of_singleton.
              split; [intros [? ?]; auto|]. intros [? [?|?]]; [auto|congruence].
           ++ rewrite Ho by assumption. reflexivity.
    + intros b. destruct (scan s (lenders l)) eqn:Hscan; [apply HLn|].
      apply scan_not_elem in Hscan. rewrite push_id_lookup.
      destruct (decide (s = b)) as [<-|Hsb]; [|apply HLn].
      apply NoDup_app. split; [apply HLn|]. split; [|apply NoDup_singleton].
      intros x Hx Hx'. apply list_elem_of_singleton in Hx'. subst x.
      apply HL in Hx as [_ Hx]. contradiction.
    + intros b j. rewrite HB. destruct (decide (j = i)) as [->|Hne].
      * rewrite He. simpl. reflexivity.
      * rewrite Ho by assumption. reflexivity.
    + exact HBn.
  - pose proof (repayLoan_index _ _ _ _ _ H) as [EB EL].
    apply repayLoan_Ok in H
      as (R & paid & refund & _ & _ & _ & _ & _ & _ & _ & _ & _ & _ & Hc & E).
    apply loan_at_updated in E as [He Ho].
    split; unfold getLenderLoans, getBorrowerLoans in *; rewrite ?EL, ?EB, ?Hc.
    + intros b j. rewrite HL. destruct (decide (j = i)) as [->|Hne].
      * rewrite He. simpl. reflexivity.
      * rewrite Ho by assumption. reflexivity.
    + exact HLn.
    + intros b j. rewrite HB. destruct (decide (j = i)) as [->|Hne].
      * rewrite He. simpl. reflexivity.
      * rewrite Ho by assumption. reflexivity.
    + exact HBn.
Qed.

(** X8.  The per-address indexes are exact: on every reachable state
    [getLenderLoans a] lists, once each, exactly the loans in whose lender
    list [a] appears, [getBorrowerLoans a] lists, once each, exactly the
    loans whose borrower is [a], and [getTotalLoans] bounds them all. *)
Theorem loan_indexes_are_exact st :
  reachable st ->
  (forall a j, j ∈ getLenderLoans a st <->
     0 <= j < getTotalLoans st /\ getLoanLenders j st = Ok (lenders (loan_at st j)) /\
     a ∈ lenders (loan_at st j)) /\
  (forall a j, j ∈ getBorrowerLoans a st <->
     0 <= j < getTotalLoans st /\ borrower (loan_at st j) = a) /\
  (forall a, NoDup (getLenderLoans a st) /\ NoDup (getBorrowerLoans a st)).
Proof.
  intros Hreach.
  assert (Hidx : index_inv st).
  { induction Hreach as [|env c st st' acts Hr IH _ H]; [apply initial_index|].
    eapply exec_index; eauto. apply loan_reachable_inv, Hr. }
  destruct Hidx as [HL HLn HB HBn]. unfold getTotalLoans.
  split; [|split].
  - intros a j. rewrite HL. unfold getLoanLenders, onlyValidLoan. split.
    + intros [Hj Hin]. destruct (Z.ltb_spec j (_loanCounter st)); [|lia]. auto.
    + intros (Hj & _ & Hin). auto.
  - exact HB.
  - intros a. split; [apply HLn | apply HBn].
Qed.

Lemma loan_indexes_are_exact_witness :
  (forall a j, j ∈ getLenderLoans a LoanScenario.funded <->
     0 <= j < getTotalLoans LoanScenario.funded /\
     getLoanLenders j LoanScenario.funded
       = Ok (lenders (loan_at LoanScenario.funded j)) /\
     a ∈ lenders (loan_at LoanScenario.funded j)) /\
  (forall a j, j ∈ getBorrowerLoans a LoanScenario.funded <->
     0 <= j < getTotalLoans LoanScenario.funded /\
     borrower (loan_at LoanScenario.funded j) = a) /\
  (forall a, NoDup (getLenderLoans a LoanScenario.funded) /\
             NoDup (getBorrowerLoans a LoanScenario.funded)).
Proof.
  apply (loan_indexes_are_exact LoanScenario.funded). apply reachable_funded.
Defined.

(** X9.  [createLoan] issues the ids 0, 1, 2, ... in turn and every new
    loan starts clean: pending, nothing funded, no lender and no recorded
    contribution (its storage slot was never written), due at creation time
    plus duration; the existing loans are untouched and the id is appended
    to the borrower's index. *)
Theorem createLoan_issues_fresh_loan env a r d p st st' i acts :
  reachable st -> createLoan env a r d p st = Ok (st', i, acts) ->
  i = getTotalLoans st /\ getTotalLoans st' = i + 1 /\
  loan_at st' i = {|
    id := i; borrower := sender env; amount := a; fundedAmount := 0;
    interestRate := r; duration := d; createdAt := timestamp env;
    dueDate := timestamp env + d; purpose := p; status := Pending;
    lenders := []; lenderContributions := ∅ |} /\
  (forall j, j <> i -> loan_at st' j = loan_at st j) /\
  getBorrowerLoans (sender env) st' = getBorrowerLoans (sender env) st ++ [i] /\
  acts = [Emit (LoanCreated i (sender env) a r d p)].
Proof.
  intros Hreach H. apply loan_reachable_inv in Hreach as Hinv.
  pose proof (createLoan_index _ _ _ _ _ _ _ _ _ H) as [_ EB].
  assert (Hacts : acts = [Emit (LoanCreated i (sender env) a r d p)]).
  { unfold createLoan in H.
    apply bind_Ok in H as (? & _ & H). apply bind_Ok in H as (? & _ & H).
    apply bind_Ok in H as (? & _ & H). apply bind_Ok in H as (? & _ & H).
    apply bind_Ok in H as (? & _ & H). apply bind_Ok in H as (c' & _ & H).
    apply bind_Ok in H as (due & _ & H). injection H as _ <- <-. reflexivity. }
  apply createLoan_Ok in H as (-> & _ & _ & _ & _ & Hc & _ & E).
  apply loan_at_updated in E as [He Ho].
  assert (Hslot : loan_at st (_loanCounter st) = empty_loan).
  { unfold loan_at. rewrite (inv_fresh _ Hinv) by lia. reflexivity. }
  rewrite Hslot in He. simpl in He. unfold getTotalLoans, getBorrowerLoans.
  repeat split; try assumption.
  rewrite EB, push_id_lookup. destruct (decide (sender env = sender env)); congruence.
Qed.

Lemma createLoan_issues_fresh_loan_witness :
  let env := call LoanScenario.alice 0 3000 in
  exists st',
    1 = getTotalLoans LoanScenario.funded /\ getTotalLoans st' = 1 + 1 /\
    loan_at st' 1 = {|
      id := 1; borrower := sender env; amount := ether; fundedAmount := 0;
      interestRate := 7; duration := 40 * days; createdAt := timestamp env;
      dueDate := timestamp env + 40 * days; purpose := "mill"; status := Pending;
      lenders := []; lenderContributions := ∅ |} /\
    (forall j, j <> 1 -> loan_at st' j = loan_at LoanScenario.funded j) /\
    getBorrowerLoans (sender env) st' =
      getBorrowerLoans (sender env) LoanScenario.funded ++ [1] /\
    [Emit (LoanCreated 1 LoanScenario.alice ether 7 (40 * days) "mill")] =
      [Emit (LoanCreated 1 (sender env) ether 7 (40 * days) "mill")].
Proof.
  eexists.
  apply (createLoan_issues_fresh_loan (call LoanScenario.alice 0 3000) ether 7
           (40 * days) "mill" LoanScenario.funded).
  - apply reachable_funded.
  - vm_compute. reflexivity.
Defined.

End LoanManagerFacts.

(** ** The lender pool *)

Module LenderPoolFacts.
Import Evm EvmFacts LenderPool.

Lemma pool_at_updated st st' i p' :
  _pools st' = <[i := p']> (_pools st) ->
  pool_at st' i = p' /\ forall j, j <> i -> pool_at st' j = pool_at st j.
Proof.
  intros E. unfold pool_at. rewrite E. split.
  - by rewrite lookup_insert_eq.
  - intros j Hj. by rewrite lookup_insert_ne.
Qed.

Lemma paid_to_cons a b x ps :
  paid_to a ((b, x) :: ps) = (if decide (b = a) then x else 0) + paid_to a ps.
Proof.
  unfold paid_to. rewrite filter_cons. simpl.
  destruct (decide (b = a)); simpl; lia.
Qed.

(** The loop credits each listed contributor with the floor of its
    pro-rata part and transfers the same amount. *)
Lemma yield_loop_Ok env pool y ls yields bal yields' bal' paid :
  distribute env pool y ls yields bal = Ok (yields', bal', paid) ->
  paid = map (fun a => (a, y * mget (lenderShares pool) a / currentAmount pool)) ls /\
  bal' = bal - total paid /\
  (forall a, mget yields' a = mget yields a + paid_to a paid).
Proof.
  revert yields bal yields' bal' paid.
  induction ls as [|l ls IH]; simpl; intros yields bal yields' bal' paid H.
  - injection H as <- <- <-. repeat split; [simpl; lia|].
    intros a. unfold paid_to. simpl. lia.
  - apply bind_Ok in H as (p & E1 & H). apply checked_mul_Ok in E1 as [-> E1].
    apply bind_Ok in H as (s & E2 & H). apply checked_div_Ok in E2 as [-> E2].
    apply bind_Ok in H as (c & E3 & H). apply checked_add_Ok in E3 as [-> E3].
    apply bind_Ok in H as (b1 & E4 & H). apply transfer_Ok in E4 as (-> & E4 & E4').
    apply bind_Ok in H as ([[y2 b2] paid'] & E5 & H). injection H as <- <- <-.
    apply IH in E5 as (-> & -> & Hy). repeat split; [simpl; lia|].
    intros a. rewrite Hy, paid_to_cons. destruct (decide (l = a)) as [->|Hne].
    + rewrite mget_insert_eq. lia.
    + rewrite mget_insert_ne by assumption. lia.
Qed.

(** The loop reads the shares and [currentAmount] of the pool only. *)
Lemma distribute_ext env p1 p2 y ls yields bal :
  lenderShares p1 = lenderShares p2 -> currentAmount p1 = currentAmount p2 ->
  distribute env p1 y ls yields bal = distribute env p2 y ls yields bal.
Proof.
  intros Hs Hc. revert yields bal. induction ls as [|l ls IH]; intros yields bal.
  - reflexivity.
  - simpl. rewrite Hs, Hc.
    destruct (checked_mul y (mget (lenderShares p2) l)) as [m|]; [simpl|reflexivity].
    destruct (checked_div m (currentAmount p2)) as [q|]; [simpl|reflexivity].
    destruct (checked_add (mget yields l) q) as [c|]; [simpl|reflexivity].
    destruct (transfer env l q bal) as [b|]; [simpl|reflexivity].
    rewrite IH. reflexivity.
Qed.

(** What a successful [distributeYield] did. *)
Lemma distributeYield_Ok env i y st st' acts (p := pool_at st i) :
  distributeYield env i y st = Ok (st', acts) ->
  exists paid yields',
    i < _poolCounter st /\ creator p = sender env /\ 0 < y /\ 0 < currentAmount p /\
    paid = map (fun a => (a, y * mget (lenderShares p) a / currentAmount p)) (lenders p) /\
    (forall a, mget yields' a = mget (lenderYield p) a + paid_to a paid) /\
    acts = map pay paid ++ [Emit (YieldDistributed i y (timestamp env))] /\
    _poolCounter st' = _poolCounter st /\
    _userPools st' = _userPools st /\
    balance st' = balance st - total paid /\
    _pools st' = <[i := {|
      id := id p; creator := creator p; name := name p;
      description := description p; targetAmount := targetAmount p;
      currentAmount := currentAmount p; interestRate := interestRate p;
      createdAt := createdAt p; active := active p;
      lenders := lenders p; lenderShares := lenderShares p;
      lenderYield := yields' |}]> (_pools st).
Proof.
  unfold distributeYield, onlyValidPool, onlyPoolCreator. intros H.
  apply bind_Ok in H as (? & E0 & H).
  apply bind_Ok in H as (? & E1 & H). apply require_Ok in E1.
  apply bind_Ok in H as (? & E2 & H). apply require_Ok, N.eqb_eq in E2.
  apply bind_Ok in H as (? & E3 & H). apply require_Ok in E3.
  apply bind_Ok in H as (? & E4 & H). apply require_Ok in E4.
  apply bind_Ok in H as ([[yields' bal'] paid] & E5 & H). injection H as <- <-.
  apply yield_loop_Ok in E5 as (Hpaid & -> & Hy).
  exists paid, yields'. fold p in E2, E4, Hpaid, Hy |- *. simpl.
  repeat split; auto; lia.
Qed.

Lemma createPool_Ok env n d t r st st' i acts :
  createPool env n d t r st = Ok (st', i, acts) ->
  i = _poolCounter st /\ _poolCounter st' = _poolCounter st + 1 /\
  _pools st' = <[i := {|
    id := i; creator := sender env; name := n; description := d;
    targetAmount := t; currentAmount := 0; interestRate := r;
    createdAt := timestamp env; active := true;
    lenders := lenders (pool_at st i);
    lenderShares := lenderShares (pool_at st i);
    lenderYield := lenderYield (pool_at st i) |}]> (_pools st).
Proof.
  unfold createPool. intros H.
  apply bind_Ok in H as (? & E0 & H).
  apply bind_Ok in H as (? & E1 & H).
  apply bind_Ok in H as (? & E2 & H).
  apply bind_Ok in H as (? & E3 & H).
  apply bind_Ok in H as (c' & E4 & H). apply checked_add_Ok in E4 as [-> E4].
  injection H as <- <- <-. simpl. auto.
Qed.

Lemma addLiquidity_Ok env i st st' acts (p := pool_at st i) (s := sender env) :
  addLiquidity env i st = Ok (st', acts) ->
  i < _poolCounter st /\ active p = true /\ 0 < value env /\
  _poolCounter st' = _poolCounter st /\
  _pools st' = <[i := {|
    id := id p; creator := creator p; name := name p;
    description := description p; targetAmount := targetAmount p;
    currentAmount := currentAmount p + value env; interestRate := interestRate p;
    createdAt := createdAt p; active := active p;
    lenders := if scan s (lenders p) then lenders p else lenders p ++ [s];
    lenderShares := <[s := mget (lenderShares p) s + value env]> (lenderShares p);
    lenderYield := lenderYield p |}]> (_pools st).
Proof.
  unfold addLiquidity, onlyValidPool, onlyActivePool. intros H.
  apply bind_Ok in H as (? & E1 & H). apply require_Ok in E1.
  apply bind_Ok in H as (? & E2 & H). apply require_Ok in E2.
  apply bind_Ok in H as (? & E3 & H). apply require_Ok in E3.
  apply bind_Ok in H as (sum & E4 & H). apply checked_add_Ok in E4 as [-> E4].
  apply bind_Ok in H as (? & E5 & H).
  apply bind_Ok in H as (c' & E6 & H). apply checked_add_Ok in E6 as [-> E6].
  apply bind_Ok in H as (s' & E7 & H). apply checked_add_Ok in E7 as [-> E7].
  injection H as <- <-. simpl. repeat split; auto; lia.
Qed.

Lemma removeLiquidity_Ok env i a st st' acts (p := pool_at st i) (s := sender env) :
  removeLiquidity env i a st = Ok (st', acts) ->
  i < _poolCounter st /\ a <= mget (lenderShares p) s /\ a <= currentAmount p /\
  _poolCounter st' = _poolCounter st /\
  _pools st' = <[i := {|
    id := id p; creator := creator p; name := name p;
    description := description p; targetAmount := targetAmount p;
    currentAmount := currentAmount p - a; interestRate := interestRate p;
    createdAt := createdAt p; active := active p;
    lenders := lenders p;
    lenderShares := <[s := mget (lenderShares p) s - a]> (lenderShares p);
    lenderYield := lenderYield p |}]> (_pools st).
Proof.
  unfold removeLiquidity, onlyValidPool. intros H.
  apply bind_Ok in H as (? & E0 & H).
  apply bind_Ok in H as (? & E1 & H). apply require_Ok in E1.
  apply bind_Ok in H as (? & E2 & H). apply require_Ok in E2.
  apply bind_Ok in H as (c' & E3 & H). apply checked_sub_Ok in E3 as [-> E3].
  apply bind_Ok in H as (s' & E4 & H). apply checked_sub_Ok in E4 as [-> E4].
  apply bind_Ok in H as (b' & E5 & H).
  injection H as <- <-. simpl. repeat split; auto; lia.
Qed.

Lemma deactivatePool_Ok env i st st' acts (p := pool_at st i) :
  deactivatePool env i st = Ok (st', acts) ->
  i < _poolCounter st /\ _poolCounter st' = _poolCounter st /\
  balance st' = balance st /\
  _pools st' = <[i := {|
    id := id p; creator := creator p; name := name p;
    description := description p; targetAmount := targetAmount p;
    currentAmount := currentAmount p; interestRate := interestRate p;
    createdAt := createdAt p; active := false;
    lenders := lenders p; lenderShares := lenderShares p;
    lenderYield := lenderYield p |}]> (_pools st).
Proof.
  unfold deactivatePool, onlyValidPool. intros H.
  apply bind_Ok in H as (? & E0 & H).
  apply bind_Ok in H as (? & E1 & H). apply require_Ok in E1.
  apply bind_Ok in H as (? & E2 & H).
  injection H as <- <-. simpl. repeat split; auto; lia.
Qed.

(** *** The invariant of reachable states *)

Lemma pool_initial_inv : state_inv initial.
Proof.
  split; simpl; [lia | intros; apply lookup_empty | intros; lia].
Qed.

(** Rewriting one pool keeps the state invariant when the new pool keeps
    the pool invariant. *)
Lemma update_inv st st' i p' :
  state_inv st -> 0 <= i < _poolCounter st ->
  _poolCounter st' = _poolCounter st ->
  _pools st' = <[i := p']> (_pools st) ->
  (pool_inv (pool_at st i) -> pool_inv p') ->
  state_inv st'.
Proof.
  intros [Hc Hf Hp] Hi Hc' E Hnew.
  apply pool_at_updated in E as Hat. destruct Hat as [He Ho].
  split.
  - lia.
  - intros j Hj. rewrite E, lookup_insert_ne by lia. apply Hf. lia.
  - intros j Hj. destruct (decide (j = i)) as [->|Hne].
    + rewrite He. apply Hnew, Hp. lia.
    + rewrite Ho by assumption. apply Hp. lia.
Qed.

Lemma pool_exec_inv env c st st' acts :
  state_inv st -> wf_call c -> exec env c st = Ok (st', acts) -> state_inv st'.
Proof.
  intros Hinv Hw H. destruct c as [n d t r|i|i a|i y|i]; simpl in H, Hw.
  - apply bind_Ok in H as ([[s1 i1] a1] & E & H). injection H as <- <-.
    apply createPool_Ok in E as (-> & Hc' & E).
    destruct Hinv as [Hc Hf Hp].
    assert (Hslot : pool_at st (_poolCounter st) = empty_pool).
    { unfold pool_at. rewrite Hf by lia. reflexivity. }
    rewrite Hslot in E. simpl in E.
    apply pool_at_updated in E as Hat. destruct Hat as [He Ho].
    split.
    + lia.
    + intros j Hj. rewrite E, lookup_insert_ne by lia. apply Hf. lia.
    + intros j Hj. destruct (decide (j = _poolCounter st)) as [->|Hne].
      * rewrite He. split; simpl.
        -- lia.
        -- constructor.
        -- intros. rewrite mget_empty. lia.
        -- reflexivity.
        -- reflexivity.
      * rewrite Ho by assumption. apply Hp. lia.
  - apply addLiquidity_Ok in H as (Hi & _ & Hv & Hc' & E).
    eapply update_inv; eauto; [lia|].
    intros [Hcur Hnd Hnn Hout Hsum]. set (p := pool_at st i) in *.
    set (s := sender env) in *. split; simpl.
    + lia.
    + destruct (scan s (lenders p)) eqn:Hscan; [assumption|].
      apply scan_not_elem in Hscan. apply NoDup_app. split; [assumption|].
      split; [|apply NoDup_singleton].
      intros x Hx Hx'. apply list_elem_of_singleton in Hx'. congruence.
    + intros a. destruct (decide (s = a)) as [<-|Hne].
      * rewrite mget_insert_eq. specialize (Hnn s). lia.
      * rewrite mget_insert_ne by assumption. apply Hnn.
    + intros a Ha. destruct (scan s (lenders p)) eqn:Hscan.
      * apply scan_elem in Hscan.
        rewrite mget_insert_ne by (intros ->; contradiction). auto.
      * rewrite not_elem_of_app in Ha. destruct Ha as [Ha1 Ha2].
        rewrite mget_insert_ne; [auto|].
        intros ->. apply Ha2. constructor.
    + destruct (scan s (lenders p)) eqn:Hscan.
      * apply scan_elem in Hscan. rewrite sum_over_insert_in by assumption. lia.
      * apply scan_not_elem in Hscan.
        rewrite sum_over_app, sum_over_insert_notin by assumption. simpl.
        rewrite mget_insert_eq, (Hout s Hscan). lia.
  - apply removeLiquidity_Ok in H as (Hi & Hshare & Hcur' & Hc' & E).
    eapply update_inv; eauto; [lia|].
    intros [Hcur Hnd Hnn Hout Hsum]. set (p := pool_at st i) in *.
    set (s := sender env) in *. split; simpl.
    + lia.
    + assumption.
    + intros b. destruct (decide (s = b)) as [<-|Hne].
      * rewrite mget_insert_eq. lia.
      * rewrite mget_insert_ne by assumption. apply Hnn.
    + intros b Hb. destruct (decide (s = b)) as [<-|Hne].
      * rewrite mget_insert_eq. rewrite (Hout s Hb) in *. lia.
      * rewrite mget_insert_ne by assumption. auto.
    + destruct (decide (s ∈ lenders p)) as [Hin|Hnin].
      * rewrite sum_over_insert_in by assumption. lia.
      * rewrite sum_over_insert_notin by assumption.
        rewrite (Hout s Hnin) in Hshare. lia.
  - apply distributeYield_Ok in H
      as (paid & yields' & Hi & _ & _ & _ & _ & _ & _ & Hc' & _ & _ & E).
    eapply update_inv; eauto; [lia|].
    intros [Hcur Hnd Hnn Hout Hsum]. split; simpl; assumption.
  - apply deactivatePool_Ok in H as (Hi & Hc' & _ & E).
    eapply update_inv; eauto; [lia|].
    intros [Hcur Hnd Hnn Hout Hsum]. split; simpl; assumption.
Qed.

Lemma pool_reachable_inv st : reachable st -> state_inv st.
Proof.
  induction 1 as [|env c st st' acts _ IH _ Hw H]; [apply pool_initial_inv|].
  eapply pool_exec_inv; eauto.
Qed.

Lemma pool_reachable_transact env c st :
  reachable st -> wf_msg env -> wf_call c -> reachable (transact env c st).
Proof.
  intros Hr Hw Hc. unfold transact. destruct (exec env c st) as [[st' acts]|f] eqn:E.
  - eapply reach_step; eauto.
  - assumption.
Qed.

Lemma reachable_created : reachable PoolScenario.created.
Proof.
  apply pool_reachable_transact; [apply reach_initial | wf | split; range].
Qed.

Lemma reachable_even : reachable PoolScenario.even.
Proof.
  apply pool_reachable_transact; [|wf|range].
  apply pool_reachable_transact; [apply reachable_created | wf | range].
Qed.

Lemma reachable_even_inactive : reachable PoolScenario.even_inactive.
Proof. apply pool_reachable_transact; [apply reachable_even | wf | range]. Qed.

Lemma reachable_uneven : reachable PoolScenario.uneven.
Proof.
  apply pool_reachable_transact; [|wf|range].
  apply pool_reachable_transact; [apply reachable_created | wf | range].
Qed.

Lemma transfers_pay paid rest :
  transfers (map pay paid ++ rest) = paid ++ transfers rest.
Proof.
  induction paid as [|[a x] paid IH]; simpl; [reflexivity | by rewrite IH].
Qed.

(** *** Yield distribution *)

(** C9, as amended.  On a reachable state a successful [distributeYield]
    credits and transfers to every listed contributor, in order,
    [floor (totalYield * share / currentAmount)]; these amounts sum to at
    most [totalYield] and fall short of it by less than the number of
    contributors; the accumulated yields grow by exactly the amounts paid
    and the contract balance drops by exactly their sum, so that the
    remainder is credited and paid to nobody. *)
Theorem distributeYield_floor_shares env i y st st' acts
    (p := pool_at st i) (p' := pool_at st' i) :
  reachable st -> distributeYield env i y st = Ok (st', acts) ->
  exists paid,
    acts = map pay paid ++ [Emit (YieldDistributed i y (timestamp env))] /\
    paid = map (fun a => (a, y * mget (lenderShares p) a / currentAmount p)) (lenders p) /\
    total paid <= y /\
    y < total paid + Z.of_nat (length (lenders p)) /\
    (forall a, mget (lenderYield p') a = mget (lenderYield p) a + paid_to a paid) /\
    balance st' = balance st - total paid.
Proof.
  intros Hreach H. apply pool_reachable_inv in Hreach as Hinv.
  apply distributeYield_Ok in H
    as (paid & yields' & Hi & _ & Hy & Hcur & Hpaid & Hyields & Hacts & _ & _ & Hbal & E).
  fold p in Hcur, Hpaid, Hyields, E.
  apply pool_at_updated in E as [He _]. fold p' in He.
  assert (Hv : 0 <= i < _poolCounter st).
  { destruct (decide (0 <= i < _poolCounter st)) as [|Hn]; [assumption|].
    exfalso. apply (inv_fresh _ Hinv) in Hn. unfold p, pool_at in Hcur.
    rewrite Hn in Hcur. simpl in Hcur. lia. }
  destruct (inv_pools _ Hinv i Hv) as [_ Hnd Hnn Hout Hsum]. fold p in Hnd, Hnn, Hout, Hsum.
  assert (Hpaid' : paid =
    map (fun a => (a, mget (lenderShares p) a * y / currentAmount p)) (lenders p)).
  { rewrite Hpaid. apply map_ext. intros a. by rewrite Z.mul_comm. }
  pose proof (floor_split_bounds (lenderShares p) y (currentAmount p) (lenders p) Hcur)
    as [Hup Hlow].
  rewrite <- Hpaid', Hsum in Hup, Hlow.
  assert (Hlen : 0 < Z.of_nat (length (lenders p))).
  { destruct (lenders p); simpl in *; lia. }
  exists paid. repeat split; try assumption.
  - nia.
  - nia.
  - intros a. rewrite He. simpl. apply Hyields.
Qed.

(** The scenario of the specification: 300 and 300 in a pool of 600, a yield
    of 100 pays 50 to each. *)
Lemma distributeYield_floor_shares_witness :
  exists paid,
    [Transfer PoolScenario.alice 50; Transfer PoolScenario.bob 50;
     Emit (YieldDistributed 0 100 1003)] =
      map pay paid ++ [Emit (YieldDistributed 0 100 1003)] /\
    paid = map (fun a => (a, 100 * mget (lenderShares (pool_at PoolScenario.even 0)) a
                             / currentAmount (pool_at PoolScenario.even 0)))
               (lenders (pool_at PoolScenario.even 0)) /\
    total paid <= 100 /\
    100 < total paid + Z.of_nat (length (lenders (pool_at PoolScenario.even 0))) /\
    (forall a, mget (lenderYield (pool_at PoolScenario.even_yield 0)) a =
               mget (lenderYield (pool_at PoolScenario.even 0)) a + paid_to a paid) /\
    balance PoolScenario.even_yield = balance PoolScenario.even - total paid.
Proof.
  apply (distributeYield_floor_shares (call PoolScenario.dana 0 1003) 0 100
           PoolScenario.even PoolScenario.even_yield).
  - apply reachable_even.
  - vm_compute. reflexivity.
Defined.

(** C9, as stated, fails in its last part: with shares 100 and 200 a yield of
    100 is split into 33 and 66; the hundredth unit is transferred to nobody
    and added to nobody's accumulated yield. *)
Lemma distributeYield_drops_the_remainder :
  reachable PoolScenario.uneven /\
  distributeYield (call PoolScenario.dana 0 1004) 0 100 PoolScenario.uneven =
    Ok (PoolScenario.uneven_paid,
        [Transfer PoolScenario.alice 33; Transfer PoolScenario.bob 66;
         Emit (YieldDistributed 0 100 1004)]) /\
  sum_all (lenderYield (pool_at PoolScenario.uneven 0)) = 0 /\
  sum_all (lenderYield (pool_at PoolScenario.uneven_paid 0)) = 99 /\
  balance PoolScenario.uneven - balance PoolScenario.uneven_paid = 99 /\
  99 < 100.
Proof.
  split; [apply reachable_uneven|].
  repeat split; vm_compute; reflexivity.
Qed.

(** *** What [distributeYield] leaves alone *)

(** C10.  A successful [distributeYield] changes, in the pool, only the
    accumulated yields: identity, creator, texts, target, [currentAmount],
    rate, [active] flag, contributor list and shares are as before, as are
    the other pools and the pool counter; neither its success nor its
    payments depend on the [active] flag (had the creator deactivated the
    pool first, the same call would have made the same payments); and a
    second successful call with the same [totalYield] makes the same
    transfers again and credits the same amounts again. *)
Theorem distributeYield_frame env i y st st' acts
    (p := pool_at st i) (p' := pool_at st' i) :
  distributeYield env i y st = Ok (st', acts) ->
  currentAmount p' = currentAmount p /\
  lenderShares p' = lenderShares p /\
  lenders p' = lenders p /\
  active p' = active p /\
  (id p', creator p', name p', description p', targetAmount p', interestRate p',
   createdAt p') =
  (id p, creator p, name p, description p, targetAmount p, interestRate p,
   createdAt p) /\
  _poolCounter st' = _poolCounter st /\
  _userPools st' = _userPools st /\
  (forall j, j <> i -> pool_at st' j = pool_at st j) /\
  (forall env0 st0 acts0,
     deactivatePool env0 i st = Ok (st0, acts0) ->
     exists st0', distributeYield env i y st0 = Ok (st0', acts)) /\
  (forall env2 st2 acts2,
     distributeYield env2 i y st' = Ok (st2, acts2) ->
     transfers acts2 = transfers acts /\
     forall a, mget (lenderYield (pool_at st2 i)) a - mget (lenderYield p') a =
               mget (lenderYield p') a - mget (lenderYield p) a).
Proof.
  intros H. pose proof H as H0.
  apply distributeYield_Ok in H
    as (paid & yields' & Hi & _ & Hy & Hcur & Hpaid & Hyields & Hacts & Hc & Hu & _ & E).
  fold p in Hpaid, Hyields, E.
  apply pool_at_updated in E as [He Ho]. fold p' in He.
  rewrite He. simpl.
  do 5 (split; [reflexivity|]). do 2 (split; [assumption|]). split; [exact Ho|].
  split.
  { intros env0 st0 acts0 Hd.
    apply deactivatePool_Ok in Hd as (_ & Hc0 & Hb0 & E0).
    apply pool_at_updated in E0 as [He0 _]. fold p in He0.
    unfold distributeYield, onlyValidPool, onlyPoolCreator in H0 |- *.
    fold p in H0. rewrite Hc0, Hb0, He0. simpl.
    rewrite (distribute_ext env _ p) by reflexivity.
    apply bind_Ok in H0 as (? & -> & H0). simpl.
    apply bind_Ok in H0 as (? & -> & H0). simpl.
    apply bind_Ok in H0 as (? & -> & H0). simpl.
    apply bind_Ok in H0 as (? & -> & H0). simpl.
    apply bind_Ok in H0 as (? & -> & H0). simpl.
    apply bind_Ok in H0 as ([[ys b] pd] & -> & H0). simpl.
    injection H0 as _ <-. eexists. reflexivity. }
  intros env2 st2 acts2 H2.
  apply distributeYield_Ok in H2
    as (paid2 & yields2 & _ & _ & _ & _ & Hpaid2 & Hyields2 & Hacts2 & _ & _ & _ & E2).
  apply pool_at_updated in E2 as [He2 _].
  fold p' in Hpaid2, Hyields2. rewrite He in Hpaid2, Hyields2. simpl in *.
  rewrite <- Hpaid in Hpaid2. subst paid2.
  split.
  - rewrite Hacts, Hacts2, !transfers_pay. reflexivity.
  - intros a. rewrite He2. simpl. rewrite Hyields2, Hyields. lia.
Qed.

(** An instance on a pool that its creator has deactivated. *)
Lemma distributeYield_frame_witness :
  let p := pool_at PoolScenario.even_inactive 0 in
  let p' := pool_at PoolScenario.even_paid 0 in
  active p = false /\
  currentAmount p' = currentAmount p /\
  lenderShares p' = lenderShares p /\
  lenders p' = lenders p /\
  active p' = active p /\
  (id p', creator p', name p', description p', targetAmount p', interestRate p',
   createdAt p') =
  (id p, creator p, name p, description p, targetAmount p, interestRate p,
   createdAt p) /\
  _poolCounter PoolScenario.even_paid = _poolCounter PoolScenario.even_inactive /\
  _userPools PoolScenario.even_paid = _userPools PoolScenario.even_inactive /\
  (forall j, j <> 0 -> pool_at PoolScenario.even_paid j =
                       pool_at PoolScenario.even_inactive j) /\
  (forall env0 st0 acts0,
     deactivatePool env0 0 PoolScenario.even_inactive = Ok (st0, acts0) ->
     exists st0', distributeYield (call PoolScenario.dana 0 1004) 0 100 st0 =
       Ok (st0', [Transfer PoolScenario.alice 50; Transfer PoolScenario.bob 50;
                  Emit (YieldDistributed 0 100 1004)])) /\
  (forall env2 st2 acts2,
     distributeYield env2 0 100 PoolScenario.even_paid = Ok (st2, acts2) ->
     transfers acts2 =
       transfers [Transfer PoolScenario.alice 50; Transfer PoolScenario.bob 50;
                  Emit (YieldDistributed 0 100 1004)] /\
     forall a, mget (lenderYield (pool_at st2 0)) a - mget (lenderYield p') a =
               mget (lenderYield p') a - mget (lenderYield p) a).
Proof.
  split; [vm_compute; reflexivity|].
  apply (distributeYield_frame (call PoolScenario.dana 0 1004) 0 100
           PoolScenario.even_inactive PoolScenario.even_paid).
  vm_compute. reflexivity.
Defined.

(** The second distribution on the inactive pool pays 50 and 50 again. *)
Example distributeYield_twice :
  distributeYield (call PoolScenario.dana 0 1005) 0 100 PoolScenario.even_paid =
    Ok (PoolScenario.even_paid_twice,
        [Transfer PoolScenario.alice 50; Transfer PoolScenario.bob 50;
         Emit (YieldDistributed 0 100 1005)]) /\
  getLenderYield 0 PoolScenario.alice PoolScenario.even_paid_twice = Ok 100 /\
  currentAmount (pool_at PoolScenario.even_paid_twice 0) = 600 /\
  active (pool_at PoolScenario.even_paid_twice 0) = false.
Proof. repeat split; vm_compute; reflexivity. Qed.

(** *** Further properties of the lender pool *)

Import SumFacts.

Lemma valid_pool st i :
  state_inv st -> _pools st !! i <> None -> 0 <= i < _poolCounter st.
Proof.
  intros [_ Hf _] Hi. destruct (decide (0 <= i < _poolCounter st)); [assumption|].
  exfalso. auto.
Qed.

Lemma yield_shares_nonneg (m : gmap N Z) y F (ls : list N) :
  0 < F -> 0 <= y -> (forall a, 0 <= mget m a) ->
  0 <= total (map (fun a => (a, y * mget m a / F)) ls).
Proof.
  intros HF Hy Hm. induction ls as [|a ls IH]; simpl; [lia|].
  assert (0 <= y * mget m a / F).
  { apply Z.div_pos; [|lia]. specialize (Hm a). nia. }
  fold (total (map (fun a => (a, y * mget m a / F)) ls)). lia.
Qed.

(** How one successful call changes the balance and what is owed. *)
Lemma exec_accounts env c st st' acts :
  state_inv st -> wf_call c -> exec env c st = Ok (st', acts) ->
  balance st' - balance st =
    liabilities st' - liabilities st
    - match c with DistributeYield _ _ => total (transfers acts) | _ => 0 end /\
  0 <= match c with DistributeYield _ _ => total (transfers acts) | _ => 0 end.
Proof.
  intros Hinv Hw H. destruct c as [n d t r|i|i a|i y|i]; simpl in H, Hw.
  - apply bind_Ok in H as ([[s1 i1] a1] & E & H). injection H as <- <-.
    assert (Hb : balance s1 = balance st).
    { unfold createPool in E.
      apply bind_Ok in E as (? & _ & E). apply bind_Ok in E as (? & _ & E).
      apply bind_Ok in E as (? & _ & E). apply bind_Ok in E as (? & _ & E).
      apply bind_Ok in E as (? & _ & E). injection E as <- _ _. reflexivity. }
    apply createPool_Ok in E as (-> & Hc & E).
    apply pool_at_updated in E as [He Ho].
    pose proof (inv_counter _ Hinv) as Hc0.
    unfold liabilities. rewrite Hc, Hb.
    rewrite seqZ_snoc, sum_ids_snoc, He by assumption. simpl.
    rewrite (sum_ids_ext (fun j => currentAmount (pool_at s1 j))
                          (fun j => currentAmount (pool_at st j))); [lia|].
    intros j Hj. apply elem_of_seqZ in Hj. rewrite Ho by lia. reflexivity.
  - assert (Hb : balance st' = balance st + value env).
    { unfold addLiquidity in H.
      apply bind_Ok in H as (? & _ & H). apply bind_Ok in H as (? & _ & H).
      apply bind_Ok in H as (? & _ & H). apply bind_Ok in H as (? & _ & H).
      apply bind_Ok in H as (? & _ & H). apply bind_Ok in H as (? & _ & H).
      apply bind_Ok in H as (? & _ & H). injection H as <- _. reflexivity. }
    apply addLiquidity_Ok in H as (Hi & _ & Hv & Hc & E).
    apply pool_at_updated in E as [He Ho].
    unfold liabilities. rewrite Hc, Hb.
    rewrite (sum_ids_update (fun j => currentAmount (pool_at st j))
               (fun j => currentAmount (pool_at st' j)) _ i (value env)).
    + lia.
    + apply NoDup_seqZ.
    + apply elem_of_seqZ. lia.
    + rewrite He. reflexivity.
    + intros j Hj. rewrite Ho by assumption. reflexivity.
  - assert (Hb : balance st' = balance st - a).
    { unfold removeLiquidity in H.
      apply bind_Ok in H as (? & _ & H). apply bind_Ok in H as (? & _ & H).
      apply bind_Ok in H as (? & _ & H). apply bind_Ok in H as (? & _ & H).
      apply bind_Ok in H as (? & _ & H). apply bind_Ok in H as (b' & Eb & H).
      apply transfer_Ok in Eb as (-> & _). injection H as <- _. reflexivity. }
    apply removeLiquidity_Ok in H as (Hi & _ & _ & Hc & E).
    apply pool_at_updated in E as [He Ho].
    unfold liabilities. rewrite Hc, Hb.
    rewrite (sum_ids_update (fun j => currentAmount (pool_at st j))
               (fun j => currentAmount (pool_at st' j)) _ i (- a)).
    + lia.
    + apply NoDup_seqZ.
    + apply elem_of_seqZ. lia.
    + rewrite He. simpl. lia.
    + intros j Hj. rewrite Ho by assumption. reflexivity.
  - apply distributeYield_Ok in H
      as (paid & yields' & Hi & _ & Hy & Hcur & Hpaid & _ & Hacts & Hc & _ & Hb & E).
    apply pool_at_updated in E as [He Ho].
    assert (Hl : liabilities st' = liabilities st).
    { unfold liabilities. rewrite Hc. apply sum_ids_ext. intros j _.
      destruct (decide (j = i)) as [->|Hne]; [rewrite He | rewrite Ho by assumption];
        reflexivity. }
    rewrite Hacts, transfers_pay. simpl. rewrite app_nil_r.
    assert (Hi0 : 0 <= i < _poolCounter st) by lia.
    destruct (inv_pools _ Hinv i Hi0) as [_ _ Hnn _ _].
    assert (Hnonneg : 0 <= total paid).
    { rewrite Hpaid. apply yield_shares_nonneg; [assumption | lia | assumption]. }
    split; [lia | assumption].
  - apply deactivatePool_Ok in H as (Hi & Hc & Hb & E).
    apply pool_at_updated in E as [He Ho].
    assert (Hl : liabilities st' = liabilities st).
    { unfold liabilities. rewrite Hc. apply sum_ids_ext. intros j _.
      destruct (decide (j = i)) as [->|Hne]; [rewrite He | rewrite Ho by assumption];
        reflexivity. }
    lia.
Qed.

Lemma yield_loop_balance env pool y ls yields bal yields' bal' paid :
  distribute env pool y ls yields bal = Ok (yields', bal', paid) ->
  0 <= bal -> 0 <= bal'.
Proof.
  revert yields bal yields' bal' paid.
  induction ls as [|l ls IH]; simpl; intros yields bal yields' bal' paid H Hb.
  - injection H as _ <- _. assumption.
  - apply bind_Ok in H as (p & _ & H). apply bind_Ok in H as (s & _ & H).
    apply bind_Ok in H as (c & _ & H).
    apply bind_Ok in H as (b1 & E4 & H). apply transfer_Ok in E4 as (-> & E4 & _).
    apply bind_Ok in H as ([[y2 b2] paid'] & E5 & H). injection H as _ <- _.
    eapply IH; [exact E5 | lia].
Qed.

Lemma exec_balance_nonneg env c st st' acts :
  0 <= balance st -> exec env c st = Ok (st', acts) -> 0 <= balance st'.
Proof.
  intros Hb H. destruct c as [n d t r|i|i a|i y|i]; simpl in H.
  - apply bind_Ok in H as ([[s1 i1] a1] & E & H). injection H as <- <-.
    unfold createPool in E.
    apply bind_Ok in E as (? & _ & E). apply bind_Ok in E as (? & _ & E).
    apply bind_Ok in E as (? & _ & E). apply bind_Ok in E as (? & _ & E).
    apply bind_Ok in E as (? & _ & E). injection E as <- _ _. assumption.
  - unfold addLiquidity in H.
    apply bind_Ok in H as (? & _ & H). apply bind_Ok in H as (? & _ & H).
    apply bind_Ok in H as (? & E & H). apply require_Ok in E.
    apply bind_Ok in H as (? & _ & H).
    apply bind_Ok in H as (? & _ & H). apply bind_Ok in H as (? & _ & H).
    apply bind_Ok in H as (? & _ & H). injection H as <- _. simpl. lia.
  - unfold removeLiquidity in H.
    apply bind_Ok in H as (? & _ & H). apply bind_Ok in H as (? & _ & H).
    apply bind_Ok in H as (? & _ & H). apply bind_Ok in H as (? & _ & H).
    apply bind_Ok in H as (? & _ & H). apply bind_Ok in H as (b' & Eb & H).
    apply transfer_Ok in Eb as (-> & Eb & _). injection H as <- _. simpl. lia.
  - unfold distributeYield in H.
    apply bind_Ok in H as (? & _ & H). apply bind_Ok in H as (? & _ & H).
    apply bind_Ok in H as (? & _ & H). apply bind_Ok in H as (? & _ & H).
    apply bind_Ok in H as (? & _ & H).
    apply bind_Ok in H as ([[ys b] pd] & E & H). injection H as <- _. simpl.
    eapply yield_loop_balance; eauto.
  - apply deactivatePool_Ok in H as (_ & _ & -> & _). assumption.
Qed.

Lemma reachable_accounts st :
  reachable st -> 0 <= balance st <= liabilities st.
Proof.
  induction 1 as [|env c st st' acts Hr IH _ Hw H]; [vm_compute; split; discriminate|].
  apply pool_reachable_inv in Hr as Hinv.
  pose proof (exec_accounts _ _ _ _ _ Hinv Hw H) as [Hacc Hy].
  pose proof (exec_balance_nonneg _ _ _ _ _ (proj1 IH) H). lia.
Qed.

Lemma reachable_deployed st : reachable st -> deployed st.
Proof.
  induction 1 as [|env c st st' acts _ IH Hm Hw H]; [constructor|].
  eapply dep_step; eauto.
Qed.

Lemma deployed_inv st : deployed st -> state_inv st.
Proof.
  induction 1 as [|v st _ IH _|env c st st' acts _ IH _ Hw H].
  - apply pool_initial_inv.
  - destruct IH as [Hc Hf Hp]. split; assumption.
  - eapply pool_exec_inv; eauto.
Qed.

Lemma deployed_balance_nonneg st : deployed st -> 0 <= balance st.
Proof.
  induction 1 as [|v st _ IH Hv|env c st st' acts _ IH _ _ H].
  - simpl. lia.
  - simpl. lia.
  - eapply exec_balance_nonneg; eauto.
Qed.

(** X10.  Yield is paid out of what the contract already holds: on every
    state of the deployed contract, whatever ether reached it from outside,
    a successful [distributeYield] carries no value, leaves the sum of
    [currentAmount] over all pools as it is and lowers the balance by
    exactly the amounts it transfers; every other successful call moves the
    balance and that sum by the same amount.  So no call raises the balance
    over that sum, and each distribution that pays anything lowers it. *)
Theorem yield_is_paid_from_the_balance st env c st' acts :
  deployed st -> wf_call c -> exec env c st = Ok (st', acts) ->
  match c with
  | DistributeYield _ _ =>
      value env = 0 /\
      liabilities st' = liabilities st /\
      balance st' = balance st - total (transfers acts) /\
      0 <= total (transfers acts)
  | _ => balance st' - balance st = liabilities st' - liabilities st
  end /\
  balance st' - liabilities st' <= balance st - liabilities st /\
  0 <= balance st'.
Proof.
  intros Hdep Hw H. apply deployed_inv in Hdep as Hinv.
  pose proof (deployed_balance_nonneg _ Hdep) as Hb0.
  pose proof (exec_balance_nonneg _ _ _ _ _ Hb0 H) as Hb1.
  pose proof (exec_accounts _ _ _ _ _ Hinv Hw H) as [Hd Hy].
  destruct c as [n d t r|i|i a|i y|i]; try (repeat split; lia).
  assert (Hv : value env = 0).
  { simpl in H. unfold distributeYield in H.
    apply bind_Ok in H as (? & E & _). apply nonpayable_Ok in E. exact E. }
  assert (Hl : liabilities st' = liabilities st).
  { simpl in H. apply distributeYield_Ok in H
      as (paid & yields' & _ & _ & _ & _ & _ & _ & _ & Hc & _ & _ & E).
    apply pool_at_updated in E as [He Ho].
    unfold liabilities. rewrite Hc. apply sum_ids_ext. intros j _.
    destruct (decide (j = i)) as [->|Hne]; [rewrite He | rewrite Ho by assumption];
      reflexivity. }
  repeat split; try assumption; lia.
Qed.

Lemma yield_is_paid_from_the_balance_witness :
  let st := PoolScenario.even_forced in
  let st' := PoolScenario.even_forced_paid in
  let acts := [Transfer PoolScenario.alice 50; Transfer PoolScenario.bob 50;
               Emit (YieldDistributed 0 100 1003)] in
  (value (call PoolScenario.dana 0 1003) = 0 /\
   liabilities st' = liabilities st /\
   balance st' = balance st - total (transfers acts) /\
   0 <= total (transfers acts)) /\
  balance st' - liabilities st' <= balance st - liabilities st /\
  0 <= balance st'.
Proof.
  apply (yield_is_paid_from_the_balance PoolScenario.even_forced
           (call PoolScenario.dana 0 1003) (DistributeYield 0 100)
           PoolScenario.even_forced_paid).
  - apply dep_receive; [apply reachable_deployed, reachable_even | lia].
  - split; range.
  - vm_compute. reflexivity.
Defined.

(** How a successful call changes an existing pool, in full. *)
Lemma exec_pool_change env c st st' acts i (p := pool_at st i) (p' := pool_at st' i) :
  state_inv st -> 0 <= i < _poolCounter st -> exec env c st = Ok (st', acts) ->
  p' = p \/
  (c = AddLiquidity i /\ active p = true /\ 0 < value env /\
   currentAmount p + value env <= targetAmount p /\
   p' = {| id := id p; creator := creator p; name := name p;
           description := description p; targetAmount := targetAmount p;
           currentAmount := currentAmount p + value env;
           interestRate := interestRate p; createdAt := createdAt p;
           active := active p;
           lenders := if scan (sender env) (lenders p) then lenders p
                      else lenders p ++ [sender env];
           lenderShares :=
             <[sender env := mget (lenderShares p) (sender env) + value env]>
               (lenderShares p);
           lenderYield := lenderYield p |}) \/
  (exists a, c = RemoveLiquidity i a /\ a <= mget (lenderShares p) (sender env) /\
   p' = {| id := id p; creator := creator p; name := name p;
           description := description p; targetAmount := targetAmount p;
           currentAmount := currentAmount p - a;
           interestRate := interestRate p; createdAt := createdAt p;
           active := active p; lenders := lenders p;
           lenderShares :=
             <[sender env := mget (lenderShares p) (sender env) - a]> (lenderShares p);
           lenderYield := lenderYield p |}) \/
  (exists y yields', c = DistributeYield i y /\
   p' = {| id := id p; creator := creator p; name := name p;
           description := description p; targetAmount := targetAmount p;
           currentAmount := currentAmount p;
           interestRate := interestRate p; createdAt := createdAt p;
           active := active p; lenders := lenders p;
           lenderShares := lenderShares p; lenderYield := yields' |}) \/
  (c = DeactivatePool i /\ creator p = sender env /\
   p' = {| id := id p; creator := creator p; name := name p;
           description := description p; targetAmount := targetAmount p;
           currentAmount := currentAmount p;
           interestRate := interestRate p; createdAt := createdAt p;
           active := false; lenders := lenders p;
           lenderShares := lenderShares p; lenderYield := lenderYield p |}).
Proof.
  intros Hinv Hi H. subst p p'. destruct c as [n d t r|j|j a|j y|j]; simpl in H.
  - apply bind_Ok in H as ([[s1 i1] a1] & E & H). injection H as <- <-.
    apply createPool_Ok in E as (-> & _ & E).
    apply pool_at_updated in E as [_ Ho]. left. apply Ho. lia.
  - assert (Hcap : j = i -> currentAmount (pool_at st i) + value env
                            <= targetAmount (pool_at st i)).
    { intros ->. unfold addLiquidity in H.
      apply bind_Ok in H as (? & _ & H). apply bind_Ok in H as (? & _ & H).
      apply bind_Ok in H as (? & _ & H).
      apply bind_Ok in H as (sum & E & H). apply checked_add_Ok in E as [-> _].
      apply bind_Ok in H as (? & E & H). apply require_Ok in E. lia. }
    apply addLiquidity_Ok in H as (_ & Hact & Hv & _ & E).
    apply pool_at_updated in E as [He Ho].
    destruct (decide (i = j)) as [->|Hne]; [|left; auto].
    right. left. rewrite He. repeat split; auto.
  - apply removeLiquidity_Ok in H as (_ & Hs & _ & _ & E).
    apply pool_at_updated in E as [He Ho].
    destruct (decide (i = j)) as [->|Hne]; [|left; auto].
    right. right. left. exists a. rewrite He. auto.
  - apply distributeYield_Ok in H
      as (paid & yields' & _ & _ & _ & _ & _ & _ & _ & _ & _ & _ & E).
    apply pool_at_updated in E as [He Ho].
    destruct (decide (i = j)) as [->|Hne]; [|left; auto].
    right. right. right. left. exists y, yields'. rewrite He. auto.
  - assert (Hcr : j = i -> creator (pool_at st i) = sender env).
    { intros ->. unfold deactivatePool, onlyPoolCreator in H.
      apply bind_Ok in H as (? & _ & H). apply bind_Ok in H as (? & _ & H).
      apply bind_Ok in H as (? & E & H). apply require_Ok, N.eqb_eq in E. exact E. }
    apply deactivatePool_Ok in H as (_ & _ & _ & E).
    apply pool_at_updated in E as [He Ho].
    destruct (decide (i = j)) as [->|Hne]; [|left; auto].
    right. right. right. right. rewrite He. repeat split; auto.
Qed.

Lemma createPool_bounds env n d t r st st' i acts :
  createPool env n d t r st = Ok (st', i, acts) ->
  MIN_POOL_AMOUNT <= t <= MAX_POOL_AMOUNT /\
  MIN_INTEREST_RATE <= r <= MAX_INTEREST_RATE.
Proof.
  unfold createPool. intros H.
  apply bind_Ok in H as (? & _ & H). apply bind_Ok in H as (? & _ & H).
  apply bind_Ok in H as (? & E1 & H). apply require_Ok, andb_true_iff in E1 as [? ?].
  apply bind_Ok in H as (? & E2 & H). apply require_Ok, andb_true_iff in E2 as [? ?].
  lia.
Qed.

Lemma reachable_caps st i (p := pool_at st i) :
  reachable st -> 0 <= i < _poolCounter st ->
  MIN_POOL_AMOUNT <= targetAmount p <= MAX_POOL_AMOUNT /\
  MIN_INTEREST_RATE <= interestRate p <= MAX_INTEREST_RATE /\
  currentAmount p <= targetAmount p.
Proof.
  intros Hreach. subst p. revert i.
  induction Hreach as [|env c st st' acts Hr IH _ Hw H]; intros i Hi.
  - simpl in Hi. lia.
  - apply pool_reachable_inv in Hr as Hinv.
    destruct (decide (i < _poolCounter st)) as [Hold|Hnew].
    + specialize (IH i ltac:(lia)).
      destruct (exec_pool_change env c st st' acts i Hinv ltac:(lia) H)
        as [->|[(_ & _ & _ & Hcap & ->)|[(a & -> & _ & ->)|
            [(y & ys & _ & ->)|(_ & _ & ->)]]]]; simpl; try lia.
      simpl in Hw. destruct (inv_pools _ Hinv i ltac:(lia)). lia.
    + destruct c as [n d t r|j|j a|j y|j]; simpl in H.
      * apply bind_Ok in H as ([[s1 i1] a1] & E & H). injection H as <- <-.
        pose proof (createPool_bounds _ _ _ _ _ _ _ _ _ E) as [Ht Hrt].
        apply createPool_Ok in E as (-> & Hc & E).
        apply pool_at_updated in E as [He _].
        assert (i = _poolCounter st) as -> by lia.
        rewrite He. simpl. unfold MIN_POOL_AMOUNT, ether in *.
        assert (0 < 1 * 10 ^ 18) by (apply Z.ltb_lt; vm_compute; reflexivity). lia.
      * apply addLiquidity_Ok in H as (_ & _ & _ & Hc & _). lia.
      * apply removeLiquidity_Ok in H as (_ & _ & _ & Hc & _). lia.
      * apply distributeYield_Ok in H
          as (paid & yields' & _ & _ & _ & _ & _ & _ & _ & Hc & _). lia.
      * apply deactivatePool_Ok in H as (_ & Hc & _). lia.
Qed.

Lemma share_le_current p a :
  pool_inv p -> 0 <= mget (lenderShares p) a <= currentAmount p.
Proof.
  intros [_ Hnd Hnn Hout Hsum]. split; [apply Hnn|].
  destruct (decide (a ∈ lenders p)) as [Hin|Hnin].
  - rewrite <- Hsum. clear Hsum Hout Hnd.
    induction (lenders p) as [|b ls IH]; [inversion Hin|]. simpl.
    assert (Hrest : 0 <= sum_over (lenderShares p) ls).
    { clear IH Hin. induction ls as [|k ks IHk]; simpl; [lia|]. specialize (Hnn k). lia. }
    inversion Hin; subst.
    + lia.
    + specialize (Hnn b). specialize (IH ltac:(assumption)). lia.
  - rewrite Hout by assumption. rewrite <- Hsum.
    clear Hsum Hout Hnd Hnin. induction (lenders p) as [|k ks IHk]; simpl; [lia|].
    specialize (Hnn k). lia.
Qed.

(** X11.  On every reachable state every pool stays within its bounds: the
    target lies between 1 and 1000 ether and the rate between 3 and 25,
    [currentAmount] is never negative and never above the target, the
    contributor list has no duplicates, the shares of the listed
    contributors sum to [currentAmount], and every share lies between 0 and
    [currentAmount], with 0 for whoever is not listed. *)
Theorem pool_stays_within_bounds st i (p := pool_at st i) :
  reachable st -> 0 <= i < _poolCounter st ->
  MIN_POOL_AMOUNT <= targetAmount p <= MAX_POOL_AMOUNT /\
  MIN_INTEREST_RATE <= interestRate p <= MAX_INTEREST_RATE /\
  0 <= currentAmount p <= targetAmount p /\
  NoDup (lenders p) /\
  sum_over (lenderShares p) (lenders p) = currentAmount p /\
  (forall a, 0 <= mget (lenderShares p) a <= currentAmount p) /\
  (forall a, a ∉ lenders p -> getLenderShare i a st = Ok 0).
Proof.
  intros Hreach Hi. pose proof (reachable_caps st i Hreach Hi) as (Ht & Hr & Hc).
  apply pool_reachable_inv in Hreach as Hinv.
  pose proof (inv_pools _ Hinv i Hi) as Hp. fold p in Ht, Hr, Hc, Hp.
  pose proof (share_le_current p) as Hs.
  destruct Hp as [Hcur Hnd Hnn Hout Hsum].
  repeat split; try assumption; try lia.
  - apply Hs. split; assumption.
  - apply Hs. split; assumption.
  - intros a Ha. unfold getLenderShare, onlyValidPool.
    destruct (Z.ltb_spec i (_poolCounter st)); [|lia]. simpl. fold p.
    rewrite Hout by assumption. reflexivity.
Qed.

Lemma pool_stays_within_bounds_witness :
  let p := pool_at PoolScenario.uneven 0 in
  MIN_POOL_AMOUNT <= targetAmount p <= MAX_POOL_AMOUNT /\
  MIN_INTEREST_RATE <= interestRate p <= MAX_INTEREST_RATE /\
  0 <= currentAmount p <= targetAmount p /\
  NoDup (lenders p) /\
  sum_over (lenderShares p) (lenders p) = currentAmount p /\
  (forall a, 0 <= mget (lenderShares p) a <= currentAmount p) /\
  (forall a, a ∉ lenders p -> getLenderShare 0 a PoolScenario.uneven = Ok 0).
Proof.
  apply (pool_stays_within_bounds PoolScenario.uneven 0).
  - apply reachable_uneven.
  - split; [apply Z.leb_le | apply Z.ltb_lt]; vm_compute; reflexivity.
Defined.

(** X12.  Deactivation is final and stops deposits only: the contract has
    no way to reactivate a pool, so once [active] is false it stays false
    over every successful call, and every [addLiquidity] on it is refused
    with "Pool is not active". *)
Theorem deactivated_pool_stays_closed st i (p := pool_at st i) :
  reachable st -> 0 <= i < _poolCounter st -> active p = false ->
  (forall env, addLiquidity env i st = Fail (Revert "Pool is not active")) /\
  forall env c st' acts, exec env c st = Ok (st', acts) ->
    active (pool_at st' i) = false.
Proof.
  intros Hreach Hi Hoff. apply pool_reachable_inv in Hreach as Hinv. split.
  - intros env. unfold addLiquidity, onlyValidPool, onlyActivePool. fold p.
    destruct (Z.ltb_spec i (_poolCounter st)); [|lia]. simpl. rewrite Hoff. reflexivity.
  - intros env c st' acts H.
    destruct (exec_pool_change env c st st' acts i Hinv Hi H)
      as [->|[(_ & Hact & _)|[(a & _ & _ & ->)|[(y & ys & _ & ->)|(_ & _ & ->)]]]];
      subst p; simpl; congruence.
Qed.

Lemma deactivated_pool_stays_closed_witness :
  (forall env, addLiquidity env 0 PoolScenario.even_inactive
     = Fail (Revert "Pool is not active")) /\
  forall env c st' acts, exec env c PoolScenario.even_inactive = Ok (st', acts) ->
    active (pool_at st' 0) = false.
Proof.
  apply (deactivated_pool_stays_closed PoolScenario.even_inactive 0).
  - apply reachable_even_inactive.
  - split; [apply Z.leb_le | apply Z.ltb_lt]; vm_compute; reflexivity.
  - vm_compute. reflexivity.
Defined.

(** X13.  On a reachable state a withdrawal by an account that accepts the
    transfer succeeds exactly when the amount is within the caller's share
    and within the contract balance; asking for more than the share is
    refused with "Insufficient shares", a balance that is too small fails
    the transfer; on success the caller receives exactly the amount, and
    the share and [currentAmount] drop by it. *)
Theorem removeLiquidity_succeeds_iff env i a st (p := pool_at st i) :
  reachable st -> 0 <= i < _poolCounter st -> 0 <= a ->
  value env = 0 -> accepts env (sender env) = true ->
  (mget (lenderShares p) (sender env) < a ->
     removeLiquidity env i a st = Fail (Revert "Insufficient shares")) /\
  (a <= mget (lenderShares p) (sender env) -> balance st < a ->
     removeLiquidity env i a st = Fail TransferFailed) /\
  (a <= mget (lenderShares p) (sender env) -> a <= balance st ->
     exists st',
       removeLiquidity env i a st =
         Ok (st', [Transfer (sender env) a; Emit (LiquidityRemoved i (sender env) a)]) /\
       currentAmount (pool_at st' i) = currentAmount p - a /\
       getLenderShare i (sender env) st' = Ok (mget (lenderShares p) (sender env) - a) /\
       balance st' = balance st - a).
Proof.
  intros Hreach Hi Ha Hv Hacc. apply pool_reachable_inv in Hreach as Hinv.
  pose proof (inv_pools _ Hinv i Hi) as Hp. fold p in Hp.
  pose proof (share_le_current p (sender env) Hp) as Hs.
  unfold removeLiquidity, nonpayable, onlyValidPool. fold p. rewrite Hv. simpl.
  destruct (Z.ltb_spec i (_poolCounter st)); [|lia]. simpl.
  split; [|split].
  - intros Hlt. destruct (Z.leb_spec a (mget (lenderShares p) (sender env))); [lia|].
    reflexivity.
  - intros Hle Hbal.
    destruct (Z.leb_spec a (mget (lenderShares p) (sender env))); [|lia]. simpl.
    unfold checked_sub. destruct (Z.leb_spec a (currentAmount p)); [|lia]. simpl.
    destruct (Z.leb_spec a (mget (lenderShares p) (sender env))); [|lia]. simpl.
    unfold transfer. destruct (Z.leb_spec a (balance st)); [lia|]. reflexivity.
  - intros Hle Hbal.
    destruct (Z.leb_spec a (mget (lenderShares p) (sender env))); [|lia]. simpl.
    unfold checked_sub. destruct (Z.leb_spec a (currentAmount p)); [|lia]. simpl.
    destruct (Z.leb_spec a (mget (lenderShares p) (sender env))); [|lia]. simpl.
    unfold transfer. destruct (Z.leb_spec a (balance st)); [|lia]. rewrite Hacc. simpl.
    eexists. split; [reflexivity|].
    unfold getLenderShare, onlyValidPool, pool_at, set_pool. simpl.
    destruct (Z.ltb_spec i (_poolCounter st)); [|lia]. simpl.
    rewrite lookup_insert_eq. simpl. rewrite mget_insert_eq. auto.
Qed.

Lemma removeLiquidity_succeeds_iff_witness :
  let env := call PoolScenario.alice 0 2000 in
  let p := pool_at PoolScenario.uneven 0 in
  (mget (lenderShares p) (sender env) < 40 ->
     removeLiquidity env 0 40 PoolScenario.uneven = Fail (Revert "Insufficient shares")) /\
  (40 <= mget (lenderShares p) (sender env) -> balance PoolScenario.uneven < 40 ->
     removeLiquidity env 0 40 PoolScenario.uneven = Fail TransferFailed) /\
  (40 <= mget (lenderShares p) (sender env) -> 40 <= balance PoolScenario.uneven ->
     exists st',
       removeLiquidity env 0 40 PoolScenario.uneven =
         Ok (st', [Transfer (sender env) 40;
                   Emit (LiquidityRemoved 0 (sender env) 40)]) /\
       currentAmount (pool_at st' 0) = currentAmount p - 40 /\
       getLenderShare 0 (sender env) st' = Ok (mget (lenderShares p) (sender env) - 40) /\
       balance st' = balance PoolScenario.uneven - 40).
Proof.
  apply (removeLiquidity_succeeds_iff (call PoolScenario.alice 0 2000) 0 40
           PoolScenario.uneven).
  - apply reachable_uneven.
  - split; [apply Z.leb_le | apply Z.ltb_lt]; vm_compute; reflexivity.
  - lia.
  - reflexivity.
  - reflexivity.
Defined.

(** X14.  A deposit can always be taken back at once: after a successful
    [addLiquidity] on a reachable state, the same contributor withdrawing
    the same amount succeeds (when the account accepts the transfer), gets
    exactly that amount, and [currentAmount], every share and the balance
    are as before the deposit; the contributor stays on the list. *)
Theorem deposit_then_withdraw env env' i st st1 acts1 (p := pool_at st i) :
  reachable st -> addLiquidity env i st = Ok (st1, acts1) ->
  sender env' = sender env -> value env' = 0 -> accepts env' (sender env) = true ->
  exists st2,
    removeLiquidity env' i (value env) st1 =
      Ok (st2, [Transfer (sender env) (value env);
                Emit (LiquidityRemoved i (sender env) (value env))]) /\
    currentAmount (pool_at st2 i) = currentAmount p /\
    (forall a, mget (lenderShares (pool_at st2 i)) a = mget (lenderShares p) a) /\
    balance st2 = balance st /\
    lenders (pool_at st2 i) = lenders (pool_at st1 i) /\
    sender env ∈ lenders (pool_at st2 i).
Proof.
  intros Hreach H Hs Hv Hacc. apply pool_reachable_inv in Hreach as Hinv.
  pose proof (reachable_accounts _ Hreach) as [Hbal _].
  assert (Hb1 : balance st1 = balance st + value env).
  { unfold addLiquidity in H.
    apply bind_Ok in H as (? & _ & H). apply bind_Ok in H as (? & _ & H).
    apply bind_Ok in H as (? & _ & H). apply bind_Ok in H as (? & _ & H).
    apply bind_Ok in H as (? & _ & H). apply bind_Ok in H as (? & _ & H).
    apply bind_Ok in H as (? & _ & H). injection H as <- _. reflexivity. }
  apply addLiquidity_Ok in H as (Hi & Hact & Hval & Hc & E).
  apply pool_at_updated in E as He. destruct He as [He _]. fold p in He, E.
  assert (Hi0 : 0 <= i < _poolCounter st).
  { apply valid_pool; [assumption|]. intros Hn.
    unfold pool_at in Hact. rewrite Hn in Hact. discriminate. }
  pose proof (inv_pools _ Hinv i Hi0) as Hp. fold p in Hp.
  pose proof (share_le_current p (sender env) Hp) as Hsh.
  destruct Hp as [Hcur _ _ _ _].
  unfold removeLiquidity, nonpayable, onlyValidPool. rewrite Hv, Hs, Hc. simpl.
  destruct (Z.ltb_spec i (_poolCounter st)); [|lia]. simpl.
  rewrite He. simpl. rewrite mget_insert_eq.
  destruct (Z.leb_spec (value env) (mget (lenderShares p) (sender env) + value env));
    [|lia]. simpl.
  unfold checked_sub.
  destruct (Z.leb_spec (value env) (currentAmount p + value env)); [|lia]. simpl.
  destruct (Z.leb_spec (value env) (mget (lenderShares p) (sender env) + value env));
    [|lia]. simpl.
  unfold transfer. rewrite Hb1.
  destruct (Z.leb_spec (value env) (balance st + value env)); [|lia].
  rewrite Hacc. simpl.
  eexists. split; [reflexivity|].
  unfold pool_at, set_pool. simpl. rewrite lookup_insert_eq. simpl.
  split; [lia|]. split; [|split; [lia|split; [reflexivity|]]].
  - intros a. destruct (decide (sender env = a)) as [<-|Hne].
    + rewrite mget_insert_eq. lia.
    + rewrite !mget_insert_ne by assumption. reflexivity.
  - destruct (scan (sender env) (lenders p)) eqn:Hscan.
    + by apply scan_elem.
    + apply elem_of_app. right. constructor.
Qed.

Lemma deposit_then_withdraw_witness :
  let env := call PoolScenario.bob 200 1002 in
  let env' := call PoolScenario.bob 0 1010 in
  let st := transact (call PoolScenario.alice 100 1001) (AddLiquidity 0)
              PoolScenario.created in
  exists st2,
    removeLiquidity env' 0 (value env) PoolScenario.uneven =
      Ok (st2, [Transfer (sender env) (value env);
                Emit (LiquidityRemoved 0 (sender env) (value env))]) /\
    currentAmount (pool_at st2 0) = currentAmount (pool_at st 0) /\
    (forall a, mget (lenderShares (pool_at st2 0)) a
               = mget (lenderShares (pool_at st 0)) a) /\
    balance st2 = balance st /\
    lenders (pool_at st2 0) = lenders (pool_at PoolScenario.uneven 0) /\
    sender env ∈ lenders (pool_at st2 0).
Proof.
  apply (deposit_then_withdraw (call PoolScenario.bob 200 1002)
           (call PoolScenario.bob 0 1010) 0
           (transact (call PoolScenario.alice 100 1001) (AddLiquidity 0)
              PoolScenario.created)
           PoolScenario.uneven [Emit (LiquidityAdded 0 PoolScenario.bob 200)]).
  - apply pool_reachable_transact; [apply reachable_created | wf | range].
  - vm_compute. reflexivity.
  - reflexivity.
  - reflexivity.
  - reflexivity.
Defined.

Lemma listed_push a j who i st (m := _userPools st) st' :
  _userPools st' = push_id who i m ->
  listed j a st' =
    (listed j a st + Nat.b2n (bool_decide (a = who /\ j = i)))%nat.
Proof.
  intros E. unfold listed, getUserPools. rewrite E. unfold push_id. subst m.
  destruct (decide (a = who)) as [->|Hne].
  - rewrite lookup_insert_eq. simpl. rewrite count_occ_app. simpl.
    destruct (Z.eq_dec i j) as [->|Hj].
    + rewrite bool_decide_eq_true_2 by auto. reflexivity.
    + rewrite bool_decide_eq_false_2 by (intros [_ ->]; auto). reflexivity.
  - rewrite lookup_insert_ne by auto.
    rewrite bool_decide_eq_false_2 by (intros [-> _]; auto). simpl. lia.
Qed.

Lemma listed_same a j st st' :
  _userPools st' = _userPools st -> listed j a st' = listed j a st.
Proof. intros E. unfold listed, getUserPools. rewrite E. reflexivity. Qed.

Lemma createPool_userPools env n d t r st st' i acts :
  createPool env n d t r st = Ok (st', i, acts) ->
  _userPools st' = push_id (sender env) i (_userPools st).
Proof.
  unfold createPool. intros H.
  apply bind_Ok in H as (? & _ & H). apply bind_Ok in H as (? & _ & H).
  apply bind_Ok in H as (? & _ & H). apply bind_Ok in H as (? & _ & H).
  apply bind_Ok in H as (? & _ & H). injection H as <- <- _. reflexivity.
Qed.

Lemma addLiquidity_userPools env i st st' acts :
  addLiquidity env i st = Ok (st', acts) ->
  _userPools st' =
    if scan (sender env) (lenders (pool_at st i)) then _userPools st
    else push_id (sender env) i (_userPools st).
Proof.
  unfold addLiquidity. intros H.
  apply bind_Ok in H as (? & _ & H). apply bind_Ok in H as (? & _ & H).
  apply bind_Ok in H as (? & _ & H). apply bind_Ok in H as (? & _ & H).
  apply bind_Ok in H as (? & _ & H). apply bind_Ok in H as (? & _ & H).
  apply bind_Ok in H as (? & _ & H). injection H as <- _. reflexivity.
Qed.

Lemma removeLiquidity_userPools env i a st st' acts :
  removeLiquidity env i a st = Ok (st', acts) -> _userPools st' = _userPools st.
Proof.
  unfold removeLiquidity. intros H.
  apply bind_Ok in H as (? & _ & H). apply bind_Ok in H as (? & _ & H).
  apply bind_Ok in H as (? & _ & H). apply bind_Ok in H as (? & _ & H).
  apply bind_Ok in H as (? & _ & H). apply bind_Ok in H as (? & _ & H).
  injection H as <- _. reflexivity.
Qed.

Lemma deactivatePool_userPools env i st st' acts :
  deactivatePool env i st = Ok (st', acts) -> _userPools st' = _userPools st.
Proof.
  unfold deactivatePool. intros H.
  apply bind_Ok in H as (? & _ & H). apply bind_Ok in H as (? & _ & H).
  apply bind_Ok in H as (? & _ & H). injection H as <- _. reflexivity.
Qed.

Lemma user_index_frame st st' i p' :
  user_index st -> 0 <= i < _poolCounter st ->
  _poolCounter st' = _poolCounter st ->
  _pools st' = <[i := p']> (_pools st) ->
  _userPools st' = _userPools st ->
  creator p' = creator (pool_at st i) -> lenders p' = lenders (pool_at st i) ->
  user_index st'.
Proof.
  intros Hx Hi Hc E Hu Hcr Hl a j.
  apply pool_at_updated in E as [He Ho].
  rewrite (listed_same a j st st' Hu), Hx, Hc.
  destruct (decide (j = i)) as [->|Hne].
  - rewrite He, Hcr, Hl. reflexivity.
  - rewrite Ho by assumption. reflexivity.
Qed.

Lemma exec_user_index env c st st' acts :
  state_inv st -> user_index st -> wf_call c ->
  exec env c st = Ok (st', acts) -> user_index st'.
Proof.
  intros Hinv Hx Hw H. pose proof (inv_counter _ Hinv) as Hc0.
  destruct c as [n d t r|i|i a|i y|i]; simpl in H, Hw.
  - apply bind_Ok in H as ([[s1 i1] a1] & E & H). injection H as <- <-.
    pose proof (createPool_userPools _ _ _ _ _ _ _ _ _ E) as Hu.
    apply createPool_Ok in E as (-> & Hc & E).
    apply pool_at_updated in E as [He Ho].
    assert (Hslot : pool_at st (_poolCounter st) = empty_pool).
    { unfold pool_at. rewrite (inv_fresh _ Hinv) by lia. reflexivity. }
    intros a j. rewrite (listed_push a j _ _ st s1 Hu), Hx, Hc.
    destruct (decide (j = _poolCounter st)) as [->|Hne].
    + rewrite He, Hslot. simpl.
      destruct (decide (0 <= _poolCounter st < _poolCounter st)); [lia|].
      destruct (decide (0 <= _poolCounter st < _poolCounter st + 1)); [|lia].
      destruct (decide (sender env = a)) as [<-|Hsa].
      * rewrite !bool_decide_eq_true_2 by auto. reflexivity.
      * rewrite !bool_decide_eq_false_2 by (try intros [-> _]; auto). reflexivity.
    + rewrite Ho by assumption.
      rewrite (bool_decide_eq_false_2 (a = sender env /\ j = _poolCounter st))
        by (intros [_ ->]; auto).
      destruct (decide (0 <= j < _poolCounter st)),
               (decide (0 <= j < _poolCounter st + 1)); simpl; lia.
  - pose proof (addLiquidity_userPools _ _ _ _ _ H) as Hu.
    apply addLiquidity_Ok in H as (Hi & _ & _ & Hc & E).
    destruct (scan (sender env) (lenders (pool_at st i))) eqn:Hscan.
    + eapply user_index_frame; eauto; lia.
    + apply scan_not_elem in Hscan.
      apply pool_at_updated in E as [He Ho].
      intros a j. rewrite (listed_push a j _ _ st st' Hu), Hx, Hc.
      destruct (decide (j = i)) as [->|Hne].
      * rewrite He. simpl.
        destruct (decide (0 <= i < _poolCounter st)); [|lia].
        destruct (decide (a = sender env)) as [->|Hsa].
        -- rewrite (bool_decide_eq_true_2 (sender env = sender env /\ i = i)) by auto.
           rewrite (bool_decide_eq_false_2 (sender env ∈ lenders (pool_at st i)))
             by assumption.
           rewrite (bool_decide_eq_true_2
                      (sender env ∈ lenders (pool_at st i) ++ [sender env]))
             by (apply elem_of_app; right; constructor).
           simpl. lia.
        -- rewrite (bool_decide_eq_false_2 (a = sender env /\ i = i))
             by (intros [? _]; auto).
           rewrite (bool_decide_ext (a ∈ lenders (pool_at st i) ++ [sender env])
                                    (a ∈ lenders (pool_at st i))).
           ++ simpl. lia.
           ++ rewrite elem_of_app, list_elem_of_singleton. tauto.
      * rewrite Ho by assumption.
        rewrite (bool_decide_eq_false_2 (a = sender env /\ j = i))
          by (intros [_ ?]; auto).
        simpl. lia.
  - pose proof (removeLiquidity_userPools _ _ _ _ _ _ H) as Hu.
    apply removeLiquidity_Ok in H as (Hi & _ & _ & Hc & E).
    eapply user_index_frame; eauto; lia.
  - apply distributeYield_Ok in H
      as (paid & yields' & Hi & _ & _ & _ & _ & _ & _ & Hc & Hu & _ & E).
    eapply user_index_frame; eauto; lia.
  - pose proof (deactivatePool_userPools _ _ _ _ _ H) as Hu.
    apply deactivatePool_Ok in H as (Hi & Hc & _ & E).
    eapply user_index_frame; eauto; lia.
Qed.

Lemma reachable_user_index st : reachable st -> user_index st.
Proof.
  induction 1 as [|env c st st' acts Hr IH _ Hw H].
  - intros a j. unfold listed, getUserPools. simpl.
    destruct (decide (0 <= j < 0)); [lia | reflexivity].
  - apply pool_reachable_inv in Hr. eapply exec_user_index; eauto.
Qed.

Lemma reachable_own : reachable PoolScenario.own.
Proof. apply pool_reachable_transact; [apply reachable_created | wf | range]. Qed.

(** X21.  [getUserPools] is exact up to one double entry: on every
    reachable state a pool id is in the list of a user exactly when the
    pool exists and the user is its creator or one of its lenders; it is
    listed once for the creator and once more for a lender, so a creator
    who deposits into the own pool finds it twice, and nobody finds a pool
    more than twice. *)
Theorem user_pools_listing st a j (p := pool_at st j) :
  reachable st ->
  (j ∈ getUserPools a st <->
   0 <= j < getTotalPools st /\ (creator p = a \/ a ∈ lenders p)) /\
  (0 <= j < getTotalPools st ->
   listed j a st =
     (Nat.b2n (bool_decide (creator p = a)) + Nat.b2n (bool_decide (a ∈ lenders p)))%nat) /\
  (0 <= j < getTotalPools st -> creator p = a -> a ∈ lenders p ->
   listed j a st = 2%nat) /\
  (listed j a st <= 2)%nat.
Proof.
  intros Hreach. pose proof (reachable_user_index st Hreach a j) as Hx.
  fold p in Hx. unfold getTotalPools.
  split; [|split; [|split]].
  - assert (Hin : j ∈ getUserPools a st <-> (0 < listed j a st)%nat).
    { rewrite list_elem_of_In, (count_occ_In Z.eq_dec). unfold listed. lia. }
    rewrite Hin, Hx.
    destruct (decide (0 <= j < _poolCounter st)); [|split; lia].
    repeat case_bool_decide; simpl; split; try lia; try tauto.
  - intros Hj. rewrite Hx. destruct (decide (0 <= j < _poolCounter st)); [reflexivity|lia].
  - intros Hj Hc Hl. rewrite Hx. destruct (decide (0 <= j < _poolCounter st)); [|lia].
    rewrite !bool_decide_eq_true_2 by assumption. reflexivity.
  - rewrite Hx. destruct (decide (0 <= j < _poolCounter st)); [|lia].
    destruct (bool_decide (creator p = a)), (bool_decide (a ∈ lenders p)); simpl; lia.
Qed.

Lemma user_pools_listing_witness :
  let p := pool_at PoolScenario.own 0 in
  (0 ∈ getUserPools PoolScenario.dana PoolScenario.own <->
   0 <= 0 < getTotalPools PoolScenario.own /\
   (creator p = PoolScenario.dana \/ PoolScenario.dana ∈ lenders p)) /\
  (0 <= 0 < getTotalPools PoolScenario.own ->
   listed 0 PoolScenario.dana PoolScenario.own =
     (Nat.b2n (bool_decide (creator p = PoolScenario.dana))
      + Nat.b2n (bool_decide (PoolScenario.dana ∈ lenders p)))%nat) /\
  (0 <= 0 < getTotalPools PoolScenario.own -> creator p = PoolScenario.dana ->
   PoolScenario.dana ∈ lenders p ->
   listed 0 PoolScenario.dana PoolScenario.own = 2%nat) /\
  (listed 0 PoolScenario.dana PoolScenario.own <= 2)%nat.
Proof.
  apply (user_pools_listing PoolScenario.own PoolScenario.dana 0).
  apply reachable_own.
Defined.

Lemma pool_cap_fits : MAX_POOL_AMOUNT <= uint256_max.
Proof. apply Z.leb_le. vm_compute. reflexivity. Qed.

(** X22.  On a reachable state [addLiquidity] succeeds exactly when the
    pool exists and is active and the attached value is positive and fits
    under the target: no arithmetic check can fail on the way.  On success
    the value is added to [currentAmount], to the caller's share and to the
    contract balance, the caller is on the lender list, appended at its end
    when new, and every other share stays as it was. *)
Theorem addLiquidity_succeeds_iff env i st (p := pool_at st i) :
  reachable st ->
  ((exists st' acts, addLiquidity env i st = Ok (st', acts)) <->
   0 <= i < _poolCounter st /\ active p = true /\
   0 < value env <= targetAmount p - currentAmount p) /\
  (forall st' acts, addLiquidity env i st = Ok (st', acts) ->
     acts = [Emit (LiquidityAdded i (sender env) (value env))] /\
     currentAmount (pool_at st' i) = currentAmount p + value env /\
     balance st' = balance st + value env /\
     lenders (pool_at st' i) =
       (if decide (sender env ∈ lenders p) then lenders p
        else lenders p ++ [sender env]) /\
     forall a, mget (lenderShares (pool_at st' i)) a =
               mget (lenderShares p) a + (if decide (a = sender env) then value env else 0)).
Proof.
  intros Hreach. apply pool_reachable_inv in Hreach as Hinv.
  assert (Hvalid : forall st' acts, addLiquidity env i st = Ok (st', acts) ->
            0 <= i < _poolCounter st).
  { intros st' acts H. apply addLiquidity_Ok in H as (Hi & Hact & _).
    split; [|assumption]. destruct (decide (0 <= i)) as [|Hn]; [assumption|].
    exfalso. unfold pool_at in Hact.
    rewrite (inv_fresh _ Hinv i) in Hact by lia. discriminate. }
  split; [split|].
  - intros (st' & acts & H). pose proof (Hvalid _ _ H) as Hi.
    unfold addLiquidity in H. fold p in H.
    apply bind_Ok in H as (? & _ & H).
    apply bind_Ok in H as (? & E2 & H). apply require_Ok in E2.
    apply bind_Ok in H as (? & E3 & H). apply require_Ok in E3.
    apply bind_Ok in H as (sum & E4 & H). apply checked_add_Ok in E4 as [-> E4].
    apply bind_Ok in H as (? & E5 & H). apply require_Ok in E5.
    apply Z.ltb_lt in E3. apply Z.leb_le in E5. fold p in E2. auto with lia.
  - intros (Hi & Hact & Hv).
    pose proof (reachable_caps st i Hreach Hi) as (Ht & _ & _). fold p in Ht.
    pose proof (inv_pools _ Hinv i Hi) as Hp. fold p in Hp.
    pose proof (share_le_current p (sender env) Hp) as Hs.
    pose proof pool_cap_fits as Hcap.
    unfold addLiquidity, onlyValidPool, onlyActivePool. fold p.
    destruct (Z.ltb_spec i (_poolCounter st)); [|lia]. simpl.
    rewrite Hact. simpl.
    destruct (Z.ltb_spec 0 (value env)); [|lia]. simpl.
    unfold checked_add.
    destruct (Z.leb_spec (currentAmount p + value env) uint256_max); [|lia]. simpl.
    destruct (Z.leb_spec (currentAmount p + value env) (targetAmount p)); [|lia]. simpl.
    destruct (Z.leb_spec (mget (lenderShares p) (sender env) + value env) uint256_max);
      [|lia]. simpl.
    eauto.
  - intros st' acts H. pose proof (Hvalid _ _ H) as Hi.
    assert (Hacts : acts = [Emit (LiquidityAdded i (sender env) (value env))] /\
                    balance st' = balance st + value env).
    { unfold addLiquidity in H.
      apply bind_Ok in H as (? & _ & H). apply bind_Ok in H as (? & _ & H).
      apply bind_Ok in H as (? & _ & H). apply bind_Ok in H as (? & _ & H).
      apply bind_Ok in H as (? & _ & H). apply bind_Ok in H as (? & _ & H).
      apply bind_Ok in H as (? & _ & H). injection H as <- <-. auto. }
    destruct Hacts as [-> Hbal].
    apply addLiquidity_Ok in H as (_ & _ & _ & _ & E).
    apply pool_at_updated in E as [He _]. fold p in He. rewrite He. simpl.
    split; [reflexivity|]. split; [reflexivity|]. split; [assumption|]. split.
    + destruct (scan (sender env) (lenders p)) eqn:Hscan.
      * apply scan_elem in Hscan. destruct (decide (sender env ∈ lenders p)); tauto.
      * apply scan_not_elem in Hscan. destruct (decide (sender env ∈ lenders p)); tauto.
    + intros a. destruct (decide (a = sender env)) as [->|Hne].
      * rewrite mget_insert_eq. reflexivity.
      * rewrite mget_insert_ne by auto. lia.
Qed.

Lemma addLiquidity_succeeds_iff_witness :
  let env := call PoolScenario.alice 300 1001 in
  let p := pool_at PoolScenario.created 0 in
  ((exists st' acts, addLiquidity env 0 PoolScenario.created = Ok (st', acts)) <->
   0 <= 0 < _poolCounter PoolScenario.created /\ active p = true /\
   0 < value env <= targetAmount p - currentAmount p) /\
  (forall st' acts, addLiquidity env 0 PoolScenario.created = Ok (st', acts) ->
     acts = [Emit (LiquidityAdded 0 (sender env) (value env))] /\
     currentAmount (pool_at st' 0) = currentAmount p + value env /\
     balance st' = balance PoolScenario.created + value env /\
     lenders (pool_at st' 0) =
       (if decide (sender env ∈ lenders p) then lenders p
        else lenders p ++ [sender env]) /\
     forall a, mget (lenderShares (pool_at st' 0)) a =
               mget (lenderShares p) a + (if decide (a = sender env) then value env else 0)).
Proof.
  apply (addLiquidity_succeeds_iff (call PoolScenario.alice 300 1001) 0
           PoolScenario.created).
  apply reachable_created.
Defined.

End LenderPoolFacts.

(** ** The reputation ledger *)

Module ReputationFacts.
Import Evm EvmFacts Reputation.

Lemma level_eqb_eq a b : level_eqb a b = true <-> a = b.
Proof. destruct a, b; simpl; split; congruence. Qed.

Lemma reputation_of_set st u r v :
  reputation_of (set_reputation st u r) v =
  if decide (u = v) then r else reputation_of st v.
Proof.
  unfold reputation_of, set_reputation. simpl.
  destruct (decide (u = v)) as [->|Hne].
  - by rewrite lookup_insert_eq.
  - by rewrite lookup_insert_ne.
Qed.

(** After [commit] the stored record is the new one with the trust level
    derived from its score; the tier-change event is emitted exactly when
    that level differs from the one the record carried. *)
Lemma commit_spec u prev r' reason st :
  let '(st', evs) := commit u prev r' reason st in
  reputation_of st' u = with_level r' (newLevel_of (score r')) /\
  (forall v, v <> u -> reputation_of st' v = reputation_of st v) /\
  _registeredUsers st' = _registeredUsers st /\
  evs = (if level_eqb (newLevel_of (score r')) (trustLevel r') then []
         else [TrustLevelChanged u (newLevel_of (score r')) (trustLevel r')])
        ++ [ReputationUpdated u (score r') prev reason].
Proof.
  unfold commit, _updateTrustLevel.
  rewrite !reputation_of_set. destruct (decide (u = u)); [|congruence].
  destruct (level_eqb (newLevel_of (score r')) (trustLevel r')) eqn:E; simpl.
  - apply level_eqb_eq in E. rewrite reputation_of_set.
    destruct (decide (u = u)); [|congruence].
    repeat split; auto.
    + destruct r'; simpl in *. unfold with_level. simpl. congruence.
    + intros v Hv. rewrite reputation_of_set. destruct (decide (u = v)); congruence.
  - rewrite reputation_of_set. destruct (decide (u = u)); [|congruence].
    repeat split; auto.
    intros v Hv. rewrite !reputation_of_set. destruct (decide (u = v)); congruence.
Qed.

(** A default on a score below the penalty does not clamp to 0: the
    subtraction underflows before [_max] is reached and the call aborts. *)
Lemma default_underflow env u amt st :
  value env = 0 -> registered st u = true ->
  score (reputation_of st u) < DEFAULT_PENALTY ->
  updateReputationOnDefault env u amt st = Fail (Panic 17).
Proof.
  intros Hv Hr Hs. unfold updateReputationOnDefault, onlyRegisteredUser, nonpayable.
  rewrite Hv, Hr. simpl.
  destruct (checked_add_cases (defaultedLoans (reputation_of st u)) 1) as [->| ->];
    [simpl|reflexivity].
  destruct (checked_add_cases (totalLoans (reputation_of st u)) 1) as [->| ->];
    [simpl|reflexivity].
  destruct (checked_add_cases (totalBorrowed (reputation_of st u)) amt) as [->| ->];
    [simpl|reflexivity].
  unfold checked_sub.
  destruct (Z.leb_spec DEFAULT_PENALTY (score (reputation_of st u))); [lia|reflexivity].
Qed.

Lemma reputation_reachable_transact env c st :
  reachable st -> wf_msg env -> wf_call c -> reachable (transact env c st).
Proof.
  intros Hr Hw Hc. unfold transact. destruct (exec env c st) as [[st' evs]|f] eqn:E.
  - eapply reach_step; eauto.
  - assumption.
Qed.

Lemma reachable_run env cs st :
  reachable st -> wf_msg env -> Forall wf_call cs -> reachable (run env cs st).
Proof.
  intros Hr Hw Hcs. revert st Hr. unfold run.
  induction Hcs as [|c cs Hc _ IH]; intros st Hr; simpl; [assumption|].
  apply IH. apply reputation_reachable_transact; assumption.
Qed.

Lemma reachable_fresh : reachable ReputationScenario.fresh.
Proof. apply reputation_reachable_transact; [apply reach_initial | wf | exact I]. Qed.

Lemma reachable_defaulted : reachable ReputationScenario.defaulted.
Proof. apply reputation_reachable_transact; [apply reachable_fresh | wf | range]. Qed.

Lemma reachable_referred : reachable ReputationScenario.referred.
Proof. apply reputation_reachable_transact; [apply reachable_defaulted | wf | exact I]. Qed.

Lemma reachable_repayments n :
  reachable (run ReputationScenario.env (ReputationScenario.repayments n)
                 ReputationScenario.fresh).
Proof.
  apply reachable_run; [apply reachable_fresh | wf |].
  apply Forall_forall. intros c Hc. apply list_elem_of_In, repeat_spec in Hc.
  subst c. simpl. range.
Qed.

(** *** Scores *)

(** C7 (the code departs from the claim).  A registered user defaults once,
    which takes the score from 100 to 0; a second default, or a default
    after a referral has brought the score to 20, does not yield score 0:
    the call aborts with the arithmetic panic and the record is unchanged. *)
Theorem default_below_penalty_aborts :
  reachable ReputationScenario.defaulted /\
  getUserScore ReputationScenario.user ReputationScenario.defaulted = Ok (0, New) /\
  updateReputationOnDefault ReputationScenario.env ReputationScenario.user 500
    ReputationScenario.defaulted = Fail (Panic 17) /\
  reachable ReputationScenario.referred /\
  getUserScore ReputationScenario.user ReputationScenario.referred = Ok (20, New) /\
  updateReputationOnDefault ReputationScenario.env ReputationScenario.user 500
    ReputationScenario.referred = Fail (Panic 17) /\
  transact ReputationScenario.env (OnDefault ReputationScenario.user 500)
    ReputationScenario.referred = ReputationScenario.referred /\
  _max (20 - DEFAULT_PENALTY) MIN_SCORE = 0.
Proof.
  split; [apply reachable_defaulted|]. split; [vm_compute; reflexivity|].
  split; [vm_compute; reflexivity|].
  split; [apply reachable_referred|].
  repeat split; vm_compute; reflexivity.
Qed.

(** *** Trust levels *)

(** C8, as stated, fails at one score.  The code draws the line between
    Excellent and Premium at 1000, not at 1001: a user at 950 who repays a
    loan reaches 1000 and is moved to Premium, with the tier-change event,
    where the thresholds of the claim keep 1000 in Excellent. *)
Theorem score_1000_is_premium_in_code :
  reachable ReputationScenario.at_950 /\
  getUserScore ReputationScenario.user ReputationScenario.at_950 = Ok (950, Excellent) /\
  (exists st',
     updateReputationOnRepayment ReputationScenario.env ReputationScenario.user 1
       false false ReputationScenario.at_950 =
     Ok (st', [TrustLevelChanged ReputationScenario.user Premium Excellent;
               ReputationUpdated ReputationScenario.user 1000 950
                 "Successful loan repayment"]) /\
     getUserScore ReputationScenario.user st' = Ok (1000, Premium)) /\
  newLevel_of 1000 = Premium /\
  spec_tier 1000 = Excellent.
Proof.
  split; [apply (reachable_repayments 17)|]. split; [vm_compute; reflexivity|].
  split; [|split; reflexivity].
  eexists. split; vm_compute; reflexivity.
Qed.

(** Away from 1000 the code and the specification draw the same tiers. *)
Lemma newLevel_of_spec_tier s : s <> 1000 -> newLevel_of s = spec_tier s.
Proof.
  intros Hs. unfold newLevel_of, spec_tier.
  destruct (Z.leb_spec 1000 s), (Z.leb_spec 601 s), (Z.leb_spec 301 s),
    (Z.leb_spec 101 s), (Z.ltb_spec s 101), (Z.ltb_spec s 301),
    (Z.ltb_spec s 601), (Z.ltb_spec s 1001); try reflexivity; lia.
Qed.

(** *** What does hold of scores and levels *)

Lemma min_in_range raised : 0 <= raised -> 0 <= _min raised MAX_SCORE <= MAX_SCORE.
Proof. unfold _min, MAX_SCORE. destruct (Z.ltb_spec raised 2000); lia. Qed.

Lemma max_in_range lowered :
  0 <= lowered <= MAX_SCORE -> 0 <= _max lowered MIN_SCORE <= MAX_SCORE.
Proof. unfold _max, MIN_SCORE, MAX_SCORE. destruct (Z.ltb_spec 0 lowered); lia. Qed.

(** Every successful call either registers a user or ends in [commit] on a
    record that keeps the stored level and has its score in range. *)
Lemma exec_shape env c st st' evs :
  exec env c st = Ok (st', evs) ->
  (exists u r', c = RegisterUser u /\ score r' = 100 /\ trustLevel r' = New /\
     _reputations st' = <[u := r']> (_reputations st)) \/
  (exists u r' reason, (st', evs) = commit u (score (reputation_of st u)) r' reason st /\
     trustLevel r' = trustLevel (reputation_of st u) /\
     (0 <= score (reputation_of st u) <= MAX_SCORE -> 0 <= score r' <= MAX_SCORE)).
Proof.
  intros H. destruct c as [u|b a t e|b a|l a|r ru|u cat pts]; simpl in H.
  - left. unfold registerUser in H.
    apply bind_Ok in H as (? & _ & H). apply bind_Ok in H as (? & _ & H).
    injection H as <- <-. eexists _, _. repeat split; reflexivity.
  - right. unfold updateReputationOnRepayment in H.
    apply bind_Ok in H as (? & _ & H). apply bind_Ok in H as (? & _ & H).
    apply bind_Ok in H as (s' & E1 & H). apply bind_Ok in H as (t' & E2 & H).
    apply bind_Ok in H as (b' & E3 & H).
    apply bind_Ok in H as (p1 & E4 & H). apply bind_Ok in H as (p2 & E5 & H).
    apply bind_Ok in H as (raised & E6 & H). apply checked_add_Ok in E6 as [-> _].
    injection H as H. eexists _, _, _. split; [symmetry; exact H|].
    split; [reflexivity|]. simpl. intros Hs. apply min_in_range.
    assert (SUCCESSFUL_LOAN_POINTS <= p1).
    { destruct t; [apply checked_add_Ok in E4 as [-> _]; unfold ON_TIME_REPAYMENT_BONUS; lia
                  | injection E4 as <-; lia]. }
    assert (p1 <= p2).
    { destruct e; [apply checked_add_Ok in E5 as [-> _]; unfold EARLY_REPAYMENT_BONUS; lia
                  | injection E5 as <-; lia]. }
    unfold SUCCESSFUL_LOAN_POINTS in *. lia.
  - right. unfold updateReputationOnDefault in H.
    apply bind_Ok in H as (? & _ & H). apply bind_Ok in H as (? & _ & H).
    apply bind_Ok in H as (d' & E1 & H). apply bind_Ok in H as (t' & E2 & H).
    apply bind_Ok in H as (b' & E3 & H).
    apply bind_Ok in H as (lowered & E4 & H). apply checked_sub_Ok in E4 as [-> E4].
    injection H as H. eexists _, _, _. split; [symmetry; exact H|].
    split; [reflexivity|]. simpl. intros Hs. apply max_in_range.
    unfold DEFAULT_PENALTY in *. lia.
  - right. unfold updateReputationOnLending in H.
    apply bind_Ok in H as (? & _ & H). apply bind_Ok in H as (? & _ & H).
    apply bind_Ok in H as (l' & E1 & H).
    apply bind_Ok in H as (raised & E2 & H). apply checked_add_Ok in E2 as [-> _].
    injection H as H. eexists _, _, _. split; [symmetry; exact H|].
    split; [reflexivity|]. simpl. intros Hs. apply min_in_range.
    unfold LENDING_POINTS. lia.
  - right. unfold updateReputationOnReferral in H.
    apply bind_Ok in H as (? & _ & H). apply bind_Ok in H as (? & _ & H).
    apply bind_Ok in H as (raised & E2 & H). apply checked_add_Ok in E2 as [-> _].
    injection H as H. eexists _, _, _. split; [symmetry; exact H|].
    split; [reflexivity|]. simpl. intros Hs. apply min_in_range.
    unfold REFERRAL_POINTS. lia.
  - right. unfold updateCategoryScore in H.
    apply bind_Ok in H as (? & _ & H). apply bind_Ok in H as (? & _ & H).
    apply bind_Ok in H as ([cat' score'] & E & H).
    injection H as H. eexists _, _, _. split; [symmetry; exact H|].
    split; [reflexivity|]. simpl. intros Hs.
    destruct (Z.ltb_spec 0 pts) as [Hpos|Hneg].
    + apply bind_Ok in E as (c & _ & E).
      apply bind_Ok in E as (raised & E2 & E). apply checked_add_Ok in E2 as [-> _].
      injection E as _ <-. apply min_in_range. lia.
    + apply bind_Ok in E as (absPoints & E1 & E).
      assert (absPoints = - pts) as ->.
      { destruct (pts =? int256_min); [discriminate | injection E1 as <-; reflexivity]. }
      apply bind_Ok in E as (c & _ & E).
      apply bind_Ok in E as (lowered & E2 & E). apply checked_sub_Ok in E2 as [-> E2].
      injection E as _ <-. apply max_in_range. lia.
Qed.

(** On every reachable state every score lies in [0, MAX_SCORE] and the
    stored trust level is the one [_updateTrustLevel] derives from the
    stored score. *)
Lemma reachable_score_and_level st u :
  reachable st ->
  0 <= score (reputation_of st u) <= MAX_SCORE /\
  trustLevel (reputation_of st u) = newLevel_of (score (reputation_of st u)).
Proof.
  intros Hreach. revert u.
  induction Hreach as [|env c st st' evs _ IH _ _ H]; intros u.
  - unfold reputation_of. simpl. rewrite lookup_empty. simpl.
    unfold MAX_SCORE. split; [lia | reflexivity].
  - apply exec_shape in H as [(v & r' & _ & Hs & Hl & E)|(v & r' & reason & E & Hl & Hs)].
    + unfold reputation_of. rewrite E. destruct (decide (v = u)) as [->|Hne].
      * rewrite lookup_insert_eq. simpl. rewrite Hs, Hl. unfold MAX_SCORE.
        split; [lia | reflexivity].
      * rewrite lookup_insert_ne by assumption. apply IH.
    + pose proof (commit_spec v (score (reputation_of st v)) r' reason st) as Hc.
      rewrite <- E in Hc. destruct Hc as (Hv & Ho & _ & _).
      destruct (decide (u = v)) as [->|Hne].
      * rewrite Hv. simpl. split; [apply Hs, IH | reflexivity].
      * rewrite Ho by assumption. apply IH.
Qed.

(** *** Further properties of the reputation ledger *)

Lemma min_is_min a b : _min a b = Z.min a b.
Proof. unfold _min. destruct (Z.ltb_spec a b); lia. Qed.

Lemma max_zero a : 0 <= a -> _max a MIN_SCORE = a.
Proof. unfold _max, MIN_SCORE. destruct (Z.ltb_spec 0 a); lia. Qed.

Lemma commit_registry u prev r' reason st :
  _users (fst (commit u prev r' reason st)) = _users st /\
  _registeredUsers (fst (commit u prev r' reason st)) = _registeredUsers st.
Proof.
  unfold commit, _updateTrustLevel.
  destruct (negb _); simpl; auto.
Qed.

Ltac peel H :=
  repeat (let x := fresh "x" in let E := fresh "E" in
          apply bind_Ok in H as (x & E & H));
  repeat match goal with
  | E : checked_add _ _ = Ok _ |- _ => apply checked_add_Ok in E as [-> ?]
  | E : checked_sub _ _ = Ok _ |- _ => apply checked_sub_Ok in E as [-> ?]
  | E : require _ _ = Ok _ |- _ => apply require_Ok in E
  | E : nonpayable _ = Ok _ |- _ => apply nonpayable_Ok in E
  end.

(** From a committed record to the facts about the stored one. *)
Lemma committed u prev r' reason st st' evs :
  (st', evs) = commit u prev r' reason st ->
  reputation_of st' u = with_level r' (newLevel_of (score r')) /\
  (forall v, v <> u -> reputation_of st' v = reputation_of st v) /\
  _users st' = _users st /\
  (forall v, registered st' v = registered st v).
Proof.
  intros E. pose proof (commit_spec u prev r' reason st) as Hc.
  pose proof (commit_registry u prev r' reason st) as [Hu Hr].
  rewrite <- E in Hc, Hu, Hr. simpl in Hu, Hr.
  destruct Hc as (Hv & Ho & _ & _). repeat split; auto.
  intros v. unfold registered. rewrite Hr. reflexivity.
Qed.

(** What a successful call does to the record of its subject and to the
    registry. *)
Lemma exec_outcome env c st st' evs
    (u := subject c) (r := reputation_of st u) (r' := reputation_of st' u) :
  exec env c st = Ok (st', evs) ->
  (forall v, v <> u -> reputation_of st' v = reputation_of st v) /\
  trustLevel r' = newLevel_of (score r') /\
  totalLoans r' - totalLoans r =
    (successfulLoans r' - successfulLoans r) + (defaultedLoans r' - defaultedLoans r) /\
  registered st' u = true /\
  match c with
  | RegisterUser _ =>
      registered st u = false /\ score r' = 100 /\ _users st' = _users st ++ [u] /\
      forall v, v <> u -> registered st' v = registered st v
  | OnDefault _ _ =>
      registered st u = true /\ DEFAULT_PENALTY <= score r /\
      score r' = score r - DEFAULT_PENALTY /\ _users st' = _users st /\
      forall v, registered st' v = registered st v
  | OnCategory _ cat pts =>
      registered st u = true /\
      (if 0 <? pts then score r' = Z.min (score r + pts) MAX_SCORE /\
                        category_of r' cat = category_of r cat + pts
       else - pts <= score r /\ - pts <= category_of r cat /\
            score r' = score r + pts /\
            category_of r' cat = category_of r cat + pts) /\
      _users st' = _users st /\
      forall v, registered st' v = registered st v
  | _ =>
      registered st u = true /\
      score r' = Z.min (score r + reward c) MAX_SCORE /\ _users st' = _users st /\
      forall v, registered st' v = registered st v
  end.
Proof.
  intros H. subst u r r'. destruct c as [u|b a t e|b a|l a|rf ru|u cat pts]; simpl in *.
  - unfold registerUser in H. peel H. injection H as <- <-.
    apply negb_true_iff in E0.
    unfold reputation_of, registered. simpl. rewrite !lookup_insert_eq. simpl.
    repeat split; auto; try lia.
    + intros v Hv. rewrite lookup_insert_ne by congruence. reflexivity.
    + intros v Hv. rewrite lookup_insert_ne by congruence. reflexivity.
  - unfold updateReputationOnRepayment, onlyRegisteredUser in H.
    destruct t, e; peel H; injection H as H; symmetry in H;
      apply committed in H as (Hr & Ho & Hu & Hreg);
      rewrite Hr, Hreg; simpl; rewrite ?min_is_min;
      repeat split; auto; try lia;
      repeat match goal with
      | E : mret _ = Ok _ |- _ => injection E as <-
      end; try reflexivity; try lia.
  - unfold updateReputationOnDefault, onlyRegisteredUser in H. peel H.
    injection H as H. symmetry in H. apply committed in H as (Hr & Ho & Hu & Hreg).
    rewrite Hr, Hreg. simpl. unfold DEFAULT_PENALTY in *.
    rewrite max_zero by lia. repeat split; auto; lia.
  - unfold updateReputationOnLending, onlyRegisteredUser in H. peel H.
    injection H as H. symmetry in H. apply committed in H as (Hr & Ho & Hu & Hreg).
    rewrite Hr, Hreg. simpl. rewrite min_is_min. repeat split; auto; lia.
  - unfold updateReputationOnReferral, onlyRegisteredUser in H. peel H.
    injection H as H. symmetry in H. apply committed in H as (Hr & Ho & Hu & Hreg).
    rewrite Hr, Hreg. simpl. rewrite min_is_min. repeat split; auto; lia.
  - unfold updateCategoryScore, onlyRegisteredUser in H.
    apply bind_Ok in H as (? & E0 & H). apply bind_Ok in H as (? & E1 & H).
    apply require_Ok in E1.
    apply bind_Ok in H as ([cat' score'] & E & H).
    injection H as H. symmetry in H. apply committed in H as (Hr & Ho & Hu & Hreg).
    assert (Hcat : category_of (reputation_of st' u) cat = cat').
    { rewrite Hr. unfold category_of. simpl. rewrite lookup_insert_eq. reflexivity. }
    assert (Hsc : score (reputation_of st' u) = score') by (rewrite Hr; reflexivity).
    rewrite Hcat, Hsc, Hreg.
    split; [exact Ho|]. split; [rewrite Hr; reflexivity|].
    split; [rewrite Hr; simpl; lia|]. split; [assumption|]. split; [assumption|].
    split; [|split; [assumption | intros; apply Hreg]].
    destruct (Z.ltb_spec 0 pts) as [Hpos|Hneg].
    + peel E. injection E as <- <-. rewrite min_is_min. auto.
    + apply bind_Ok in E as (absPoints & Ea & E).
      assert (absPoints = - pts) as ->.
      { destruct (pts =? int256_min); [discriminate | injection Ea as <-; reflexivity]. }
      peel E. injection E as <- <-. unfold MIN_SCORE, _max.
      destruct (Z.ltb_spec 0 (category_of (reputation_of st u) cat - - pts));
        destruct (Z.ltb_spec 0 (score (reputation_of st u) - - pts));
        repeat split; lia.
Qed.

(** X15.  The point table, as the contract applies it.  A successful call
    writes the record of its subject only and leaves every other user's
    record as it was; registration sets the score to 100; a repayment adds
    50, plus 25 when on time, plus 10 when early, lending adds 30 and a
    referral 20, each capped at [MAX_SCORE]; a default goes through only
    from a score of at least 100 and takes exactly 100 off; a category
    adjustment adds positive points capped at [MAX_SCORE], or takes
    non-positive points off both the score and the category score, neither
    of which may fall below zero. *)
Theorem outcome_points env c st st' evs
    (u := subject c) (r := reputation_of st u) (r' := reputation_of st' u) :
  exec env c st = Ok (st', evs) ->
  (forall v, v <> u -> reputation_of st' v = reputation_of st v) /\
  match c with
  | RegisterUser _ => registered st u = false /\ score r' = 100
  | OnDefault _ _ => DEFAULT_PENALTY <= score r /\ score r' = score r - DEFAULT_PENALTY
  | OnCategory _ cat pts =>
      if 0 <? pts then score r' = Z.min (score r + pts) MAX_SCORE /\
                       category_of r' cat = category_of r cat + pts
      else - pts <= score r /\ - pts <= category_of r cat /\
           score r' = score r + pts /\ category_of r' cat = category_of r cat + pts
  | _ => score r' = Z.min (score r + reward c) MAX_SCORE
  end.
Proof.
  intros H. apply exec_outcome in H as (Ho & _ & _ & _ & Hc).
  split; [exact Ho|]. fold u r r' in Hc.
  destruct c; try (destruct Hc as (_ & Hs & _); exact Hs).
  - destruct Hc as (Hreg & Hs & _). auto.
  - destruct Hc as (_ & Hd & Hs & _). auto.
Qed.

Lemma outcome_points_witness :
  let c := OnRepayment ReputationScenario.user 1 true true in
  let st' := transact ReputationScenario.env c ReputationScenario.fresh in
  (forall v, v <> subject c ->
     reputation_of st' v = reputation_of ReputationScenario.fresh v) /\
  score (reputation_of st' (subject c)) =
    Z.min (score (reputation_of ReputationScenario.fresh (subject c)) + reward c) MAX_SCORE.
Proof.
  apply (outcome_points ReputationScenario.env
           (OnRepayment ReputationScenario.user 1 true true) ReputationScenario.fresh
           (transact ReputationScenario.env
              (OnRepayment ReputationScenario.user 1 true true) ReputationScenario.fresh)
           [TrustLevelChanged ReputationScenario.user Basic New;
            ReputationUpdated ReputationScenario.user 185 100 "Successful loan repayment"]).
  vm_compute. reflexivity.
Defined.

Lemma initial_record u : reputation_of initial u = empty_reputation.
Proof. unfold reputation_of. simpl. rewrite lookup_empty. reflexivity. Qed.

Lemma reachable_registry st :
  reachable st ->
  NoDup (_users st) /\
  (forall u, u ∈ _users st <-> registered st u = true) /\
  (forall u, registered st u = false -> reputation_of st u = empty_reputation) /\
  (forall u, totalLoans (reputation_of st u) =
             successfulLoans (reputation_of st u) + defaultedLoans (reputation_of st u)).
Proof.
  induction 1 as [|env c st st' evs _ IH _ _ H].
  - split; [constructor|]. split; [|split].
    + intros u. unfold registered. simpl. rewrite lookup_empty. simpl.
      split; [intros Hu; inversion Hu | discriminate].
    + intros u _. apply initial_record.
    + intros u. rewrite initial_record. reflexivity.
  - destruct IH as (Hnd & Hmem & Hempty & Hcount).
    apply exec_outcome in H as (Ho & _ & Hdelta & Hreg' & Hc).
    set (s := subject c) in *.
    assert (Hframe : forall v, v <> s -> registered st' v = registered st v).
    { intros v Hv. destruct c.
      - destruct Hc as (_ & _ & _ & Hr). auto.
      - destruct Hc as (_ & _ & _ & Hr). auto.
      - destruct Hc as (_ & _ & _ & _ & Hr). auto.
      - destruct Hc as (_ & _ & _ & Hr). auto.
      - destruct Hc as (_ & _ & _ & Hr). auto.
      - destruct Hc as (_ & _ & _ & Hr). auto. }
    assert (Hcase : (registered st s = false /\ _users st' = _users st ++ [s]) \/
                    (registered st s = true /\ _users st' = _users st)).
    { destruct c.
      - left. destruct Hc as (Hr & _ & Hu & _). auto.
      - right. destruct Hc as (Hr & _ & Hu & _). auto.
      - right. destruct Hc as (Hr & _ & _ & Hu & _). auto.
      - right. destruct Hc as (Hr & _ & Hu & _). auto.
      - right. destruct Hc as (Hr & _ & Hu & _). auto.
      - right. destruct Hc as (Hr & _ & Hu & _). auto. }
    split; [|split; [|split]].
    + destruct Hcase as [[Hr Hu]|[Hr Hu]]; rewrite Hu; [|assumption].
      apply NoDup_app. split; [assumption|]. split; [|apply NoDup_singleton].
      intros x Hx Hx'. apply list_elem_of_singleton in Hx'. subst x.
      apply Hmem in Hx. congruence.
    + intros v. destruct (decide (v = s)) as [->|Hne].
      * rewrite Hreg'. split; [auto|]. intros _.
        destruct Hcase as [[Hr Hu]|[Hr Hu]]; rewrite Hu.
        -- apply elem_of_app. right. constructor.
        -- apply Hmem. assumption.
      * rewrite Hframe by assumption. rewrite <- Hmem.
        destruct Hcase as [[Hr Hu]|[Hr Hu]]; rewrite Hu; [|reflexivity].
        rewrite elem_of_app, list_elem_of_singleton. split; [intros [?|?]|]; auto.
        contradiction.
    + intros v Hv. destruct (decide (v = s)) as [->|Hne]; [congruence|].
      rewrite Ho by assumption. apply Hempty. rewrite <- Hframe by assumption.
      assumption.
    + intros v. destruct (decide (v = s)) as [->|Hne].
      * specialize (Hcount s). lia.
      * rewrite Ho by assumption. apply Hcount.
Qed.

(** X16.  What every reachable state keeps: each score lies between 0 and
    [MAX_SCORE], the stored trust level is the one derived from the stored
    score, the loan count of a user is the sum of the successful and the
    defaulted ones, the user list has no duplicates and holds exactly the
    registered users, and a user who never registered has an untouched
    record and is refused by [getUserReputation]. *)
Theorem reputation_ledger_invariants st u (r := reputation_of st u) :
  reachable st ->
  0 <= score r <= MAX_SCORE /\
  trustLevel r = newLevel_of (score r) /\
  totalLoans r = successfulLoans r + defaultedLoans r /\
  NoDup (getAllUsers st) /\
  (u ∈ getAllUsers st <-> isUserRegistered u st = true) /\
  (isUserRegistered u st = true -> getUserReputation u st = Ok r) /\
  (isUserRegistered u st = false ->
     r = empty_reputation /\
     getUserReputation u st = Fail (Revert "User not registered")).
Proof.
  intros Hreach.
  destruct (reachable_score_and_level st u Hreach) as [Hs Hl].
  destruct (reachable_registry st Hreach) as (Hnd & Hmem & Hempty & Hcount).
  unfold getAllUsers, isUserRegistered, getUserReputation, onlyRegisteredUser.
  split; [exact Hs|]. split; [exact Hl|]. split; [apply Hcount|].
  split; [exact Hnd|]. split; [apply Hmem|]. split.
  - intros ->. reflexivity.
  - intros Hr. rewrite Hr. split; [apply Hempty; assumption | reflexivity].
Qed.

Lemma reputation_ledger_invariants_witness :
  let r := reputation_of ReputationScenario.at_950 ReputationScenario.user in
  0 <= score r <= MAX_SCORE /\
  trustLevel r = newLevel_of (score r) /\
  totalLoans r = successfulLoans r + defaultedLoans r /\
  NoDup (getAllUsers ReputationScenario.at_950) /\
  (ReputationScenario.user ∈ getAllUsers ReputationScenario.at_950 <->
   isUserRegistered ReputationScenario.user ReputationScenario.at_950 = true) /\
  (isUserRegistered ReputationScenario.user ReputationScenario.at_950 = true ->
   getUserReputation ReputationScenario.user ReputationScenario.at_950 = Ok r) /\
  (isUserRegistered ReputationScenario.user ReputationScenario.at_950 = false ->
     r = empty_reputation /\
     getUserReputation ReputationScenario.user ReputationScenario.at_950
       = Fail (Revert "User not registered")).
Proof.
  apply (reputation_ledger_invariants ReputationScenario.at_950 ReputationScenario.user).
  apply (reachable_repayments 17).
Defined.

(** X17.  A category adjustment by zero or by negative points succeeds
    exactly when the points fit under both the category score and the
    overall score; otherwise the subtraction underflows and the call aborts
    with the arithmetic panic, so an adjustment below a category score of
    zero is impossible even for a user whose overall score would cover it.
    An adjustment by zero always succeeds and changes neither score. *)
Theorem category_adjustment_downwards env u cat pts st (r := reputation_of st u) :
  registered st u = true -> value env = 0 -> int256_min < pts <= 0 ->
  ((exists st' evs, updateCategoryScore env u cat pts st = Ok (st', evs)) <->
   - pts <= category_of r cat /\ - pts <= score r) /\
  (category_of r cat < - pts \/ score r < - pts ->
   updateCategoryScore env u cat pts st = Fail (Panic 17)) /\
  (forall st' evs, updateCategoryScore env u cat pts st = Ok (st', evs) ->
   score (reputation_of st' u) = score r + pts /\
   getCategoryScore u cat st' = Ok (category_of r cat + pts)).
Proof.
  intros Hreg Hv Hpts.
  assert (Hshape : forall st' evs, updateCategoryScore env u cat pts st = Ok (st', evs) ->
            - pts <= score r /\ - pts <= category_of r cat /\
            score (reputation_of st' u) = score r + pts /\
            category_of (reputation_of st' u) cat = category_of r cat + pts /\
            registered st' u = true).
  { intros st' evs H.
    pose proof (exec_outcome env (OnCategory u cat pts) st st' evs H)
      as (_ & _ & _ & Hreg' & _ & Hc & _). simpl in Hc. fold r in Hc.
    destruct (Z.ltb_spec 0 pts); [lia|]. destruct Hc as (? & ? & ? & ?). auto. }
  assert (Hrun : updateCategoryScore env u cat pts st =
            (if (- pts <=? category_of r cat) && (- pts <=? score r)
             then updateCategoryScore env u cat pts st else Fail (Panic 17))).
  { destruct (Z.leb_spec (- pts) (category_of r cat)) as [Hc|Hc];
      destruct (Z.leb_spec (- pts) (score r)) as [Hs|Hs]; simpl; try reflexivity;
      unfold updateCategoryScore, onlyRegisteredUser, nonpayable;
      rewrite Hv, Hreg; simpl; fold r;
      (destruct (Z.ltb_spec 0 pts); [lia|]);
      (destruct (Z.eqb_spec pts int256_min); [lia|]); simpl;
      unfold checked_sub.
    - destruct (Z.leb_spec (- pts) (category_of r cat)); [|lia]. simpl.
      destruct (Z.leb_spec (- pts) (score r)); [lia|]. reflexivity.
    - destruct (Z.leb_spec (- pts) (category_of r cat)); [lia|]. reflexivity.
    - destruct (Z.leb_spec (- pts) (category_of r cat)); [lia|]. reflexivity. }
  split; [split|split].
  - intros (st' & evs & H). apply Hshape in H. lia.
  - intros [Hc Hs].
    unfold updateCategoryScore, onlyRegisteredUser, nonpayable.
    rewrite Hv, Hreg. simpl. fold r.
    destruct (Z.ltb_spec 0 pts); [lia|].
    destruct (Z.eqb_spec pts int256_min); [lia|]. simpl.
    unfold checked_sub.
    destruct (Z.leb_spec (- pts) (category_of r cat)); [|lia]. simpl.
    destruct (Z.leb_spec (- pts) (score r)); [|lia]. simpl.
    destruct (commit u (score r) _ _ st) as [st' evs]. eauto.
  - intros Hlow. rewrite Hrun.
    destruct (Z.leb_spec (- pts) (category_of r cat));
      destruct (Z.leb_spec (- pts) (score r)); simpl; try reflexivity. lia.
  - intros st' evs H. apply Hshape in H as (_ & _ & Hs & Hc & Hreg').
    split; [exact Hs|]. unfold getCategoryScore, onlyRegisteredUser.
    rewrite Hreg'. simpl. rewrite Hc. reflexivity.
Qed.

Lemma category_adjustment_downwards_witness :
  let r := reputation_of ReputationScenario.fresh ReputationScenario.user in
  ((exists st' evs, updateCategoryScore ReputationScenario.env ReputationScenario.user
                      "farming" (-10) ReputationScenario.fresh = Ok (st', evs)) <->
   - (-10) <= category_of r "farming" /\ - (-10) <= score r) /\
  (category_of r "farming" < - (-10) \/ score r < - (-10) ->
   updateCategoryScore ReputationScenario.env ReputationScenario.user
     "farming" (-10) ReputationScenario.fresh = Fail (Panic 17)) /\
  (forall st' evs, updateCategoryScore ReputationScenario.env ReputationScenario.user
                     "farming" (-10) ReputationScenario.fresh = Ok (st', evs) ->
   score (reputation_of st' ReputationScenario.user) = score r + (-10) /\
   getCategoryScore ReputationScenario.user "farming" st'
     = Ok (category_of r "farming" + (-10))).
Proof.
  apply (category_adjustment_downwards ReputationScenario.env ReputationScenario.user
           "farming" (-10) ReputationScenario.fresh).
  - vm_compute. reflexivity.
  - reflexivity.
  - split; [apply Z.ltb_lt | apply Z.leb_le]; vm_compute; reflexivity.
Defined.

(** *** Trust levels follow the score *)

Lemma newLevel_of_threshold_tier s : newLevel_of s = threshold_tier s.
Proof.
  unfold newLevel_of, threshold_tier.
  destruct (Z.leb_spec 1000 s), (Z.leb_spec 601 s), (Z.leb_spec 301 s),
    (Z.leb_spec 101 s), (Z.ltb_spec s 101), (Z.ltb_spec s 301),
    (Z.ltb_spec s 601), (Z.ltb_spec s 1000); try reflexivity; lia.
Qed.

(** Every successful call but a registration ends in [commit] on the record
    of its subject, which still carries the level stored before the call. *)
Lemma exec_commits env c st st' evs (u := subject c) :
  exec env c st = Ok (st', evs) ->
  (exists v, c = RegisterUser v) \/
  exists r' reason,
    (st', evs) = commit u (score (reputation_of st u)) r' reason st /\
    trustLevel r' = trustLevel (reputation_of st u).
Proof.
  intros H. subst u. destruct c as [u|b a t e|b a|l a|rf ru|u cat pts]; simpl in *.
  - left. eauto.
  - right. unfold updateReputationOnRepayment in H.
    apply bind_Ok in H as (? & _ & H). apply bind_Ok in H as (? & _ & H).
    apply bind_Ok in H as (? & _ & H). apply bind_Ok in H as (? & _ & H).
    apply bind_Ok in H as (? & _ & H). apply bind_Ok in H as (? & _ & H).
    apply bind_Ok in H as (? & _ & H). apply bind_Ok in H as (? & _ & H).
    injection H as H. eexists _, _. split; [symmetry; exact H | reflexivity].
  - right. unfold updateReputationOnDefault in H.
    apply bind_Ok in H as (? & _ & H). apply bind_Ok in H as (? & _ & H).
    apply bind_Ok in H as (? & _ & H). apply bind_Ok in H as (? & _ & H).
    apply bind_Ok in H as (? & _ & H). apply bind_Ok in H as (? & _ & H).
    injection H as H. eexists _, _. split; [symmetry; exact H | reflexivity].
  - right. unfold updateReputationOnLending in H.
    apply bind_Ok in H as (? & _ & H). apply bind_Ok in H as (? & _ & H).
    apply bind_Ok in H as (? & _ & H). apply bind_Ok in H as (? & _ & H).
    injection H as H. eexists _, _. split; [symmetry; exact H | reflexivity].
  - right. unfold updateReputationOnReferral in H.
    apply bind_Ok in H as (? & _ & H). apply bind_Ok in H as (? & _ & H).
    apply bind_Ok in H as (? & _ & H).
    injection H as H. eexists _, _. split; [symmetry; exact H | reflexivity].
  - right. unfold updateCategoryScore in H.
    apply bind_Ok in H as (? & _ & H). apply bind_Ok in H as (? & _ & H).
    apply bind_Ok in H as ([cat' score'] & _ & H).
    injection H as H. eexists _, _. split; [symmetry; exact H | reflexivity].
Qed.

(** C8, as amended.  On every reachable state the stored trust level of
    every user is the tier of the stored score by the thresholds New < 101,
    Basic < 301, Good < 601, Excellent < 1000, Premium from 1000 on; and
    every successful call re-derives the level of its subject from the new
    score and emits [TrustLevelChanged], with the derived and the previous
    level and ahead of [ReputationUpdated], exactly when the derived level
    differs from the previous one. *)
Theorem trust_level_follows_score st :
  reachable st ->
  (forall u, trustLevel (reputation_of st u) = threshold_tier (score (reputation_of st u))) /\
  forall env c st' evs, exec env c st = Ok (st', evs) ->
    let u := subject c in
    let previous := trustLevel (reputation_of st u) in
    let derived := threshold_tier (score (reputation_of st' u)) in
    trustLevel (reputation_of st' u) = derived /\
    (forall v, v <> u -> trustLevel (reputation_of st' v) = trustLevel (reputation_of st v)) /\
    exists reason,
      let updated := ReputationUpdated u (score (reputation_of st' u))
                       (score (reputation_of st u)) reason in
      (derived = previous -> evs = [updated]) /\
      (derived <> previous -> evs = [TrustLevelChanged u derived previous; updated]).
Proof.
  intros Hreach. split.
  { intros u. rewrite <- newLevel_of_threshold_tier. apply reachable_score_and_level.
    assumption. }
  intros env c st' evs H. cbv zeta.
  destruct (exec_commits env c st st' evs H) as [[v ->]|(r' & reason & E & Hl)].
  - simpl in *. unfold registerUser in H.
    apply bind_Ok in H as (? & _ & H). apply bind_Ok in H as (? & E0 & H).
    apply require_Ok, negb_true_iff in E0.
    destruct (reachable_registry st Hreach) as (_ & _ & Hempty & _).
    rewrite (Hempty v E0) in *. injection H as <- <-.
    unfold reputation_of. simpl. rewrite lookup_insert_eq. simpl.
    split; [reflexivity|]. split.
    + intros w Hw. rewrite lookup_insert_ne by congruence. reflexivity.
    + exists "User registered". split; [reflexivity|].
      intros Hne. exfalso. apply Hne. reflexivity.
  - set (u := subject c) in *.
    pose proof (commit_spec u (score (reputation_of st u)) r' reason st) as Hc.
    rewrite <- E in Hc. destruct Hc as (Hv & Ho & _ & Hevs).
    rewrite Hv. simpl. rewrite <- newLevel_of_threshold_tier, <- Hl.
    split; [reflexivity|]. split; [intros w Hw; rewrite Ho by assumption; reflexivity|].
    exists reason. rewrite Hevs.
    destruct (level_eqb (newLevel_of (score r')) (trustLevel r')) eqn:Heq.
    + apply level_eqb_eq in Heq. split; [reflexivity | congruence].
    + split; [|reflexivity]. intros Hsame. apply level_eqb_eq in Hsame. congruence.
Qed.

Lemma trust_level_follows_score_witness :
  (forall u, trustLevel (reputation_of ReputationScenario.at_950 u) =
             threshold_tier (score (reputation_of ReputationScenario.at_950 u))) /\
  forall env c st' evs, exec env c ReputationScenario.at_950 = Ok (st', evs) ->
    let u := subject c in
    let previous := trustLevel (reputation_of ReputationScenario.at_950 u) in
    let derived := threshold_tier (score (reputation_of st' u)) in
    trustLevel (reputation_of st' u) = derived /\
    (forall v, v <> u -> trustLevel (reputation_of st' v) =
                         trustLevel (reputation_of ReputationScenario.at_950 v)) /\
    exists reason,
      let updated := ReputationUpdated u (score (reputation_of st' u))
                       (score (reputation_of ReputationScenario.at_950 u)) reason in
      (derived = previous -> evs = [updated]) /\
      (derived <> previous -> evs = [TrustLevelChanged u derived previous; updated]).
Proof.
  apply (trust_level_follows_score ReputationScenario.at_950).
  apply (reachable_repayments 17).
Defined.

End ReputationFacts.

(** ** Cancellation on the server *)

Module ServerFacts.
Import Server.

Lemma cancelled_keeps_funding loan now :
  fundedAmount (cancelled loan now) = fundedAmount loan /\
  lenders (cancelled loan now) = lenders loan /\
  lenderContributions (cancelled loan now) = lenderContributions loan /\
  amount (cancelled loan now) = amount loan.
Proof. repeat split; reflexivity. Qed.

(** C5, as amended.  [cancelLoan] by the borrower looks at the status only:
    it succeeds exactly when the loan is 'pending', whatever has been funded
    so far, and then sets the status to 'cancelled' and [isActive] to false
    and leaves the funding as it is; on any other status it answers 400
    "Cannot cancel loan" and the store is unchanged. *)
Theorem cancelLoan_by_borrower db loanId userId now loan :
  findById db loanId = Some loan -> borrowerId loan = userId ->
  (status loan = "pending" ->
     cancelLoan db loanId userId now =
       (Success 200 "Loan cancelled successfully",
        <[loanId := cancelled loan now]> db) /\
     status (cancelled loan now) = "cancelled" /\
     isActive (cancelled loan now) = false /\
     fundedAmount (cancelled loan now) = fundedAmount loan /\
     lenderContributions (cancelled loan now) = lenderContributions loan) /\
  (status loan <> "pending" ->
     cancelLoan db loanId userId now =
       (Refused 400 "Cannot cancel loan" "Only pending loans can be cancelled", db)).
Proof.
  intros Hfind Hb. unfold cancelLoan. rewrite Hfind, Hb, String.eqb_refl. simpl.
  split.
  - intros Hst. rewrite Hst. simpl. repeat split; reflexivity.
  - intros Hst. apply String.eqb_neq in Hst. rewrite Hst. reflexivity.
Qed.

Lemma cancelLoan_by_borrower_witness :
  (status ServerScenario.half_funded = "pending" ->
     cancelLoan ServerScenario.db "loan1" "amara" 4 =
       (Success 200 "Loan cancelled successfully",
        <["loan1" := cancelled ServerScenario.half_funded 4]> ServerScenario.db) /\
     status (cancelled ServerScenario.half_funded 4) = "cancelled" /\
     isActive (cancelled ServerScenario.half_funded 4) = false /\
     fundedAmount (cancelled ServerScenario.half_funded 4) =
       fundedAmount ServerScenario.half_funded /\
     lenderContributions (cancelled ServerScenario.half_funded 4) =
       lenderContributions ServerScenario.half_funded) /\
  (status ServerScenario.half_funded <> "pending" ->
     cancelLoan ServerScenario.db "loan1" "amara" 4 =
       (Refused 400 "Cannot cancel loan" "Only pending loans can be cancelled",
        ServerScenario.db)).
Proof.
  apply (cancelLoan_by_borrower ServerScenario.db "loan1" "amara" 4
           ServerScenario.half_funded).
  - vm_compute. reflexivity.
  - reflexivity.
Defined.

(** C5, as stated, fails: a loan of 1000 of which 500 has been funded is
    still 'pending', and its borrower cancels it with a 200; the 500 stays
    on the cancelled loan. *)
Lemma cancelLoan_succeeds_after_funding :
  fundedAmount ServerScenario.half_funded = 500 /\
  ~ spec_cancellable ServerScenario.half_funded /\
  findById ServerScenario.db "loan1" = Some ServerScenario.half_funded /\
  exists db',
    cancelLoan ServerScenario.db "loan1" "amara" 4 =
      (Success 200 "Loan cancelled successfully", db') /\
    option_map status (findById db' "loan1") = Some "cancelled" /\
    option_map fundedAmount (findById db' "loan1") = Some 500.
Proof.
  split; [reflexivity|]. split.
  - intros [_ H]. vm_compute in H. discriminate.
  - split; [vm_compute; reflexivity|].
    eexists. repeat split; vm_compute; reflexivity.
Qed.

(** Once the loan is fully funded it is 'active', and cancellation is
    refused with a 400. *)
Example cancelLoan_refused_when_active :
  status ServerScenario.fully_funded = "active" /\
  cancelLoan ServerScenario.db_active "loan1" "amara" 4 =
    (Refused 400 "Cannot cancel loan" "Only pending loans can be cancelled",
     ServerScenario.db_active).
Proof. split; vm_compute; reflexivity. Qed.

(** *** Further properties of the server's loan model and handlers *)

Lemma includes_elem (ls : list string) who : includes ls who = true <-> who ∈ ls.
Proof.
  induction ls as [|a rest IH]; simpl.
  - split; [discriminate | intros H; inversion H].
  - destruct (String.eqb_spec a who) as [->|Hne].
    + split; [intros _; constructor | reflexivity].
    + rewrite IH. split; [by constructor|].
      intros H. inversion H; subst; [congruence | assumption].
Qed.

Lemma contributed_ext (l1 l2 : Loan) (ls : list string) :
  (forall a, a ∈ ls -> lenderContributions l1 !! a = lenderContributions l2 !! a) ->
  contributed l1 ls = contributed l2 ls.
Proof.
  induction ls as [|a ls IH]; intros H; simpl; [reflexivity|].
  rewrite (H a) by constructor. f_equal. apply IH.
  intros b Hb. apply H. by constructor.
Qed.

(** One contribution of a positive amount keeps the ledger in order. *)
Lemma fundLoan_ledger loan who v now :
  ledger_ok loan -> 0 < v -> ledger_ok (fundLoan loan who v now).
Proof.
  intros [Hnd Hout Hnn Hsum Hst] Hv.
  set (old := default 0 (lenderContributions loan !! who)).
  assert (Hlook : forall a, a <> who ->
            lenderContributions (fundLoan loan who v now) !! a
            = lenderContributions loan !! a).
  { intros a Ha. simpl. by rewrite lookup_insert_ne. }
  assert (Hwho : lenderContributions (fundLoan loan who v now) !! who = Some (old + v)).
  { simpl. by rewrite lookup_insert_eq. }
  split.
  - simpl. destruct (includes (lenders loan) who) eqn:Hin; simpl; [assumption|].
    apply NoDup_app. split; [assumption|]. split; [|apply NoDup_singleton].
    intros x Hx Hx'. apply list_elem_of_singleton in Hx'. subst x.
    apply includes_elem in Hx. congruence.
  - intros a Ha. assert (Hne : a <> who).
    { intros ->. apply Ha. simpl.
      destruct (includes (lenders loan) who) eqn:Hin; simpl.
      - by apply includes_elem.
      - apply elem_of_app. right. constructor. }
    rewrite Hlook by assumption. apply Hout. intros Hin. apply Ha. simpl.
    destruct (includes (lenders loan) who); simpl; [assumption|].
    apply elem_of_app. by left.
  - intros b. destruct (decide (b = who)) as [->|Hne].
    + rewrite Hwho. simpl. specialize (Hnn who). fold old in Hnn. lia.
    + rewrite Hlook by assumption. apply Hnn.
  - cbn [fundedAmount fundLoan lenders]. rewrite <- Hsum.
    destruct (includes (lenders loan) who) eqn:Hin; cbn [negb].
    + apply includes_elem in Hin. clear Hsum Hout.
      induction Hnd as [|k ls Hk Hnd IH]; [inversion Hin|].
      cbn [contributed foldr]. fold (contributed (fundLoan loan who v now) ls).
      fold (contributed loan ls).
      destruct (decide (k = who)) as [->|Hne].
      * rewrite Hwho. change (default 0 (Some (old + v))) with (old + v).
        rewrite (contributed_ext (fundLoan loan who v now) loan ls); [lia|].
        intros a Ha. apply Hlook. intros ->. contradiction.
      * rewrite Hlook by assumption. rewrite IH; [lia|].
        inversion Hin; subst; [congruence | assumption].
    + assert (Hnin : who ∉ lenders loan).
      { intros Hx. apply includes_elem in Hx. congruence. }
      assert (Hold : old = 0) by (unfold old; rewrite Hout by assumption; reflexivity).
      assert (Happ : forall l ls1 ls2,
                contributed l (ls1 ++ ls2) = contributed l ls1 + contributed l ls2).
      { intros l ls1 ls2. induction ls1 as [|k ks IHk]; simpl; [reflexivity|].
        fold (contributed l (ks ++ ls2)). fold (contributed l ks). lia. }
      rewrite Happ. cbn [contributed foldr]. rewrite Hwho.
      change (default 0 (Some (old + v))) with (old + v).
      rewrite (contributed_ext (fundLoan loan who v now) loan (lenders loan)); [lia|].
      intros a Ha. apply Hlook. intros ->. contradiction.
  - cbn [status fundedAmount amount fundLoan].
    destruct (Z.leb_spec (amount loan) (fundedAmount loan + v)) as [Hfull|Hpart].
    + right. auto.
    + left. destruct Hst as [[Hp _]|[_ Ha]]; [auto | lia].
Qed.

Lemma new_loan_ledger i b a r d now : 0 < a -> ledger_ok (new_loan i b a r d now).
Proof.
  intros Ha. split; simpl.
  - constructor.
  - intros; apply lookup_empty.
  - intros k. rewrite lookup_empty. simpl. lia.
  - reflexivity.
  - left. split; [reflexivity | assumption].
Qed.

Lemma contributed_nonneg (loan : Loan) (ls : list string) :
  (forall a, 0 <= default 0 (lenderContributions loan !! a)) ->
  0 <= contributed loan ls.
Proof.
  intros Hnn. induction ls as [|k ks IH]; simpl; [lia|].
  fold (contributed loan ks). specialize (Hnn k). lia.
Qed.

Lemma contribution_within (loan : Loan) (ls : list string) a :
  (forall b, 0 <= default 0 (lenderContributions loan !! b)) -> a ∈ ls ->
  default 0 (lenderContributions loan !! a) <= contributed loan ls.
Proof.
  intros Hnn. induction ls as [|k ks IH]; intros Ha; [inversion Ha|].
  simpl. fold (contributed loan ks).
  pose proof (contributed_nonneg loan ks Hnn) as Hrest.
  apply elem_of_cons in Ha as [->|Ha]; [lia|].
  specialize (IH Ha). specialize (Hnn k). lia.
Qed.

Lemma ledger_contribution loan a :
  ledger_ok loan -> 0 <= default 0 (lenderContributions loan !! a) <= fundedAmount loan.
Proof.
  intros [Hnd Hout Hnn Hsum Hst]. split; [apply Hnn|]. rewrite <- Hsum.
  destruct (decide (a ∈ lenders loan)) as [Hin|Hnin].
  - apply contribution_within; assumption.
  - rewrite Hout by assumption. simpl. apply contributed_nonneg. assumption.
Qed.

Lemma fund_all_ledger loan fs now :
  ledger_ok loan -> Forall (fun f => 0 < snd f) fs ->
  ledger_ok (fund_all loan fs now) /\
  fundedAmount (fund_all loan fs now) = fundedAmount loan + sum_amounts fs /\
  amount (fund_all loan fs now) = amount loan.
Proof.
  intros Hok Hfs. revert loan Hok.
  induction Hfs as [|f fs Hf _ IH]; intros loan Hok.
  - simpl. split; [assumption | lia].
  - simpl. fold (fund_all (fundLoan loan (fst f) (snd f) now) fs now).
    fold (sum_amounts fs).
    destruct (IH _ (fundLoan_ledger loan (fst f) (snd f) now Hok Hf)) as (H1 & H2 & H3).
    split; [assumption|]. rewrite H2, H3. simpl. lia.
Qed.

(** X18.  The server's own ledger, on whole amounts.  For positive whole
    amounts whose total with [fundedAmount] stays within
    [Number.MAX_SAFE_INTEGER], where the code's additions do not round, and
    lenders whose ids are not inherited property names: funding a loan
    through [Loan.fundLoan], any number of times and by any lenders, keeps
    the lender list free of duplicates and the recorded contributions
    summing to [fundedAmount], every contribution between 0 and
    [fundedAmount], and the status 'active' exactly when [fundedAmount] has
    reached [amount]; but nothing caps the funding: [fundedAmount] is the
    plain sum of everything contributed, which may exceed [amount]. *)
Theorem fund_all_keeps_ledger loan fs now (l := fund_all loan fs now) :
  ledger_ok loan -> exact_funding loan fs ->
  NoDup (lenders l) /\
  contributed l (lenders l) = fundedAmount l /\
  fundedAmount l = fundedAmount loan + sum_amounts fs /\
  (forall a, 0 <= default 0 (lenderContributions l !! a) <= fundedAmount l) /\
  fundedAmount l <= MAX_SAFE_INTEGER /\
  amount l = amount loan /\
  (status l = "active" <-> amount l <= fundedAmount l) /\
  (status l = "pending" <-> fundedAmount l < amount l).
Proof.
  intros Hok (Hamt & Hsafe & Hfs). subst l.
  assert (Hpos : Forall (fun f => 0 < snd f) fs).
  { eapply Forall_impl; [exact Hfs|]. intros f [Hf _]. exact Hf. }
  destruct (fund_all_ledger loan fs now Hok Hpos) as (Hl & Hfund & Ha).
  pose proof (ledger_contribution (fund_all loan fs now)) as Hc.
  destruct Hl as [Hnd Hout Hnn Hsum Hst].
  split; [assumption|]. split; [assumption|]. split; [assumption|].
  split; [intros a; apply Hc; split; assumption|].
  split; [lia|]. split; [assumption|].
  split; destruct Hst as [[Hs Hlt]|[Hs Hle]]; rewrite Hs;
    split; intros; try lia; try discriminate; reflexivity.
Qed.

Lemma fund_all_keeps_ledger_witness :
  let loan := ServerScenario.asked in
  let fs := [("lender", 500); ("lender2", 300); ("lender", 400)] in
  let l := fund_all loan fs 9 in
  NoDup (lenders l) /\
  contributed l (lenders l) = fundedAmount l /\
  fundedAmount l = fundedAmount loan + sum_amounts fs /\
  (forall a, 0 <= default 0 (lenderContributions l !! a) <= fundedAmount l) /\
  fundedAmount l <= MAX_SAFE_INTEGER /\
  amount l = amount loan /\
  (status l = "active" <-> amount l <= fundedAmount l) /\
  (status l = "pending" <-> fundedAmount l < amount l).
Proof.
  apply (fund_all_keeps_ledger ServerScenario.asked
           [("lender", 500); ("lender2", 300); ("lender", 400)] 9).
  - apply new_loan_ledger. lia.
  - split; [split; [apply Z.leb_le | apply Z.leb_le]; vm_compute; reflexivity|].
    split; [apply Z.leb_le; vm_compute; reflexivity|].
    repeat (apply List.Forall_cons;
            [split; [simpl; lia
                    | apply (bool_decide_eq_false_1 (_ ∈ inherited_keys));
                      vm_compute; reflexivity]|]).
    apply List.Forall_nil.
Defined.

(** X19.  The funding handler changes the store only when it answers 200,
    and then only the loan addressed: that loan was pending, the funder is
    not its borrower, is verified with a wallet, and the chain call went
    through; the stored loan keeps its borrower and its amount, lists the
    funder, at the end of the lender list when new, and is 'pending' or
    'active'.  So a borrower never funds the own loan and a loan that is
    not pending is never funded.  Where the sum is exact (whole amounts
    within the safe range) the loan's [fundedAmount] has grown by the
    amount sent, which the handler does not compare with what is left to
    fund, and the loan is 'active' exactly when the new [fundedAmount]
    reaches its [amount]. *)
Theorem handleFundLoan_outcomes db user chain_ok loanId userId amt now resp db' :
  handleFundLoan db user chain_ok loanId userId amt now = Some (resp, db') ->
  (forall j, j <> loanId -> db' !! j = db !! j) /\
  match resp with
  | Refused code _ _ => db' = db /\ code ∈ [404; 400; 403; 500]
  | Success code _ =>
      code = 200 /\
      exists loan u loan',
        findById db loanId = Some loan /\ user = Some u /\
        status loan = "pending" /\ borrowerId loan <> userId /\
        canFundLoan u = true /\ chain_ok = true /\
        findById db' loanId = Some loan' /\
        borrowerId loan' = borrowerId loan /\ amount loan' = amount loan /\
        lenders loan' = (if decide (userId ∈ lenders loan) then lenders loan
                         else lenders loan ++ [userId]) /\
        (status loan' = "pending" \/ status loan' = "active") /\
        (exact_sum loan amt ->
         fundedAmount loan' = fundedAmount loan + amt /\
         (status loan' = "active" <-> amount loan <= fundedAmount loan + amt))
  end.
Proof.
  unfold handleFundLoan. intros H.
  destruct (findById db loanId) as [loan|] eqn:Hfind.
  2:{ injection H as <- <-. split; [auto|]. split; [reflexivity | set_solver]. }
  destruct (String.eqb_spec (status loan) "pending") as [Hst|Hst]; simpl in H.
  2:{ injection H as <- <-. split; [auto|]. split; [reflexivity | set_solver]. }
  destruct (String.eqb_spec (borrowerId loan) userId) as [Hb|Hb].
  { injection H as <- <-. split; [auto|]. split; [reflexivity | set_solver]. }
  destruct user as [u|]; [|discriminate].
  destruct (canFundLoan u) eqn:Hcan; simpl in H.
  2:{ injection H as <- <-. split; [auto|]. split; [reflexivity | set_solver]. }
  destruct chain_ok; simpl in H.
  2:{ injection H as <- <-. split; [auto|]. split; [reflexivity | set_solver]. }
  injection H as <- <-. split.
  - intros j Hj. by rewrite lookup_insert_ne.
  - split; [reflexivity|]. exists loan, u, (fundLoan loan userId amt now).
    unfold findById. rewrite lookup_insert_eq.
    do 9 (split; [auto|]). split; [|split].
    + simpl. destruct (includes (lenders loan) userId) eqn:Hin; simpl.
      * apply includes_elem in Hin. destruct (decide (userId ∈ lenders loan)); tauto.
      * destruct (decide (userId ∈ lenders loan)) as [Hx|]; [|reflexivity].
        apply includes_elem in Hx. congruence.
    + simpl. destruct (amount loan <=? fundedAmount loan + amt); auto.
    + intros _. split; [reflexivity|]. simpl.
      destruct (Z.leb_spec (amount loan) (fundedAmount loan + amt)).
      * split; auto.
      * rewrite Hst. split; [discriminate | lia].
Qed.

Lemma handleFundLoan_outcomes_witness :
  let u := {| isVerified := true; walletAddress := Some "0xabc" |} in
  exact_sum ServerScenario.half_funded 700 /\
  exists db',
    (forall j, j <> "loan1" -> db' !! j = ServerScenario.db !! j) /\
    200 = 200 /\
    exists loan u' loan',
      findById ServerScenario.db "loan1" = Some loan /\ Some u = Some u' /\
      status loan = "pending" /\ borrowerId loan <> "lender2" /\
      canFundLoan u' = true /\ true = true /\
      findById db' "loan1" = Some loan' /\
      borrowerId loan' = borrowerId loan /\ amount loan' = amount loan /\
      lenders loan' = (if decide ("lender2" ∈ lenders loan) then lenders loan
                       else lenders loan ++ ["lender2"]) /\
      (status loan' = "pending" \/ status loan' = "active") /\
      (exact_sum loan 700 ->
       fundedAmount loan' = fundedAmount loan + 700 /\
       (status loan' = "active" <-> amount loan <= fundedAmount loan + 700)).
Proof.
  split; [repeat split; apply Z.leb_le; vm_compute; reflexivity|].
  eexists.
  apply (handleFundLoan_outcomes ServerScenario.db
           (Some {| isVerified := true; walletAddress := Some "0xabc" |}) true
           "loan1" "lender2" 700 3 (Success 200 "Loan funded successfully")).
  vm_compute. reflexivity.
Defined.

(** X20.  Cancellation on the server: a missing loan is answered 404 and a
    caller who is not the borrower 403; every refusal leaves the store as
    it was and a success rewrites the addressed loan only; and 'cancelled'
    is final for both handlers: after a successful cancellation a second
    [cancelLoan] by the borrower is refused with 400 and [handleFundLoan]
    refuses every contribution with 400. *)
Theorem cancelLoan_outcomes db loanId userId now resp db' :
  cancelLoan db loanId userId now = (resp, db') ->
  (findById db loanId = None <-> exists e m, resp = Refused 404 e m) /\
  ((exists loan, findById db loanId = Some loan /\ borrowerId loan <> userId) <->
   exists e m, resp = Refused 403 e m) /\
  (forall j, j <> loanId -> db' !! j = db !! j) /\
  match resp with
  | Refused _ _ _ => db' = db
  | Success _ _ =>
      (forall who now', cancelLoan db' loanId who now' =
         (Refused (if String.eqb who userId then 400 else 403)
            (if String.eqb who userId then "Cannot cancel loan" else "Permission denied")
            (if String.eqb who userId then "Only pending loans can be cancelled"
             else "Only the borrower can cancel this loan"), db')) /\
      (forall user ok who amt now',
         handleFundLoan db' user ok loanId who amt now' =
           Some (Refused 400 "Invalid loan status" "Loan is not available for funding",
                 db'))
  end.
Proof.
  unfold cancelLoan. intros H.
  destruct (findById db loanId) as [loan|] eqn:Hfind.
  2:{ injection H as <- <-. repeat split; eauto; try discriminate.
      - intros (l & Hl & _). discriminate.
      - intros (e & m & Hr). discriminate. }
  destruct (String.eqb_spec (borrowerId loan) userId) as [Hb|Hb]; simpl in H.
  2:{ injection H as <- <-. repeat split; eauto; try discriminate.
      intros (e & m & Hr). discriminate. }
  destruct (String.eqb_spec (status loan) "pending") as [Hst|Hst]; simpl in H.
  2:{ injection H as <- <-. repeat split; eauto; try discriminate.
      - intros (e & m & Hr). discriminate.
      - intros (l & Hl & Hne). congruence.
      - intros (e & m & Hr). discriminate. }
  injection H as <- <-. split; [|split; [|split; [|split]]].
  - split; [discriminate | intros (e & m & Hr); discriminate].
  - split; [intros (l & Hl & Hne); congruence | intros (e & m & Hr); discriminate].
  - intros j Hj. by rewrite lookup_insert_ne.
  - intros who now'. unfold cancelLoan, findById. rewrite lookup_insert_eq. simpl.
    rewrite Hb. rewrite (String.eqb_sym userId who).
    destruct (String.eqb who userId); reflexivity.
  - intros user ok who amt now'. unfold handleFundLoan, findById.
    rewrite lookup_insert_eq. reflexivity.
Qed.

Lemma cancelLoan_outcomes_witness :
  exists db',
  (findById ServerScenario.db "loan1" = None <->
   exists e m, Success 200 "Loan cancelled successfully" = Refused 404 e m) /\
  ((exists loan, findById ServerScenario.db "loan1" = Some loan /\
                 borrowerId loan <> "amara") <->
   exists e m, Success 200 "Loan cancelled successfully" = Refused 403 e m) /\
  (forall j, j <> "loan1" -> db' !! j = ServerScenario.db !! j) /\
  (forall who now', cancelLoan db' "loan1" who now' =
     (Refused (if String.eqb who "amara" then 400 else 403)
        (if String.eqb who "amara" then "Cannot cancel loan" else "Permission denied")
        (if String.eqb who "amara" then "Only pending loans can be cancelled"
         else "Only the borrower can cancel this loan"), db')) /\
  (forall user ok who amt now',
     handleFundLoan db' user ok "loan1" who amt now' =
       Some (Refused 400 "Invalid loan status" "Loan is not available for funding",
             db')).
Proof.
  eexists.
  apply (cancelLoan_outcomes ServerScenario.db "loan1" "amara" 4
           (Success 200 "Loan cancelled successfully")).
  vm_compute. reflexivity.
Defined.

End ServerFacts.
